(** * LevelDB key/value layer: internal keys, block reader, POSIX environment

    A shallow embedding of [db/dbformat.h], [table/block.cc] and
    [util/env_posix.cc], with the properties of the design document that
    concern them.

    Conventions.  Fixed-width C++ integers are [Z] values with their
    wrap-around written out ([wrap32], [wrap64]).  A [const char*] into the
    block is the offset from the block's first byte.  A failed [assert] and
    an operation that C++ leaves undefined are the outcome [Abort]; loops
    take their iteration bound as fuel and give [Timeout] when it runs out. *)

From Stdlib Require Import ZArith List Bool Lia.
From Stdlib.Strings Require Import Byte.
From stdpp Require Import base list gmap strings.
Import ListNotations.

Open Scope Z_scope.

(** ** Bytes and fixed-width arithmetic *)

Definition wrap32 (x : Z) : Z := x mod 2 ^ 32.
Definition wrap64 (x : Z) : Z := x mod 2 ^ 64.

Definition byte_to_Z (b : byte) : Z := Z.of_N (Byte.to_N b).

Definition byte_of_Z (z : Z) : byte :=
  match Byte.of_N (Z.to_N (z mod 256)) with
  | Some b => b
  | None => x00
  end.

(** [bytes [1; 2; 255]] is the byte string 01 02 ff. *)
Definition bytes (l : list Z) : list byte := map byte_of_Z l.

Definition zlen {A : Type} (l : list A) : Z := Z.of_nat (length l).

(** [reinterpret_cast<const unsigned char*>(data)[i]].  Memory outside the
    buffer is not part of the model: a read there gives 0. *)
Definition byte_at (data : list byte) (i : Z) : Z :=
  if i <? 0 then 0
  else match nth_error data (Z.to_nat i) with
       | Some b => byte_to_Z b
       | None => 0
       end.

(** The [n] bytes at offset [p] of a buffer, as far as the buffer has them
    (offset and count are cut to the buffer's size before counting): what
    [pread] and [fread] deliver, and what [std::string(p, n)],
    [append(p, n)] and a [Slice(p, n)] denote when [p + n] is within the
    buffer.  Code that reads a range not within its buffer is [Abort] where
    it reads. *)
Definition slice_bytes (data : list byte) (p n : Z) : list byte :=
  firstn (Z.to_nat (Z.min n (zlen data)))
         (skipn (Z.to_nat (Z.min p (zlen data))) data).

Module Coding.

(** Modelled from the spec: [DecodeFixed32] and [DecodeFixed64] of
    [util/coding.h], which is not among the sources; the spec fixes them as
    little-endian ("trailing little-endian u32", "fixed-little-endian-u64").
    Byte [k] is shifted left by [8k] and or-ed in. *)
Fixpoint DecodeFixed (n : nat) (data : list byte) (p : Z) : Z :=
  match n with
  | O => 0
  | S k => Z.lor (byte_at data p) (Z.shiftl (DecodeFixed k data (p + 1)) 8)
  end.

Definition DecodeFixed32 (data : list byte) (p : Z) : Z := DecodeFixed 4 data p.
Definition DecodeFixed64 (data : list byte) (p : Z) : Z := DecodeFixed 8 data p.

(** Modelled from the spec: [EncodeFixed64]/[PutFixed64] of [util/coding.cc],
    not among the sources: the little-endian bytes of a 64-bit value, lowest
    byte first. *)
Fixpoint EncodeFixed (n : nat) (value : Z) : list byte :=
  match n with
  | O => []
  | S k => byte_of_Z (Z.land value 255) :: EncodeFixed k (Z.shiftr value 8)
  end.

Definition EncodeFixed32 (value : Z) : list byte := EncodeFixed 4 value.
Definition EncodeFixed64 (value : Z) : list byte := EncodeFixed 8 value.

(** Modelled from the spec: [GetVarint32Ptr] of [util/coding.h] and its
    fallback in [util/coding.cc], not among the sources.  The spec names the
    header fields "varint32": seven payload bits per byte, least significant
    group first, the high bit set on every byte but the last, at most five
    bytes.  [GetVarint32PtrFallback] is the loop
    [for (shift = 0; shift <= 28 && p < limit; shift += 7)]; the result is a
    [uint32_t], so the fifth group is cut to 32 bits. *)
Fixpoint GetVarint32PtrFallback (groups : nat) (data : list byte)
    (p limit : Z) (shift result : Z) : option (Z * Z) :=
  match groups with
  | O => None
  | S g =>
      if p <? limit then
        let b := byte_at data p in
        if Z.land b 128 =? 0
        then Some (p + 1, Z.lor result (wrap32 (Z.shiftl b shift)))
        else GetVarint32PtrFallback g data (p + 1) limit (shift + 7)
               (Z.lor result (wrap32 (Z.shiftl (Z.land b 127) shift)))
      else None
  end.

(** Returns the pointer past the varint and the decoded value, or [None]
    for the C++ [NULL]. *)
Definition GetVarint32Ptr (data : list byte) (p limit : Z) : option (Z * Z) :=
  if (p <? limit) && (Z.land (byte_at data p) 128 =? 0)
  then Some (p + 1, byte_at data p)
  else GetVarint32PtrFallback 5 data p limit 0 0.

End Coding.

(** ** Internal keys ([db/dbformat.h]) *)

Module DBFormat.
Import Coding.

(** [enum ValueType { kTypeDeletion = 0x0, kTypeValue = 0x1 }]. *)
Inductive ValueType : Type :=
  | kTypeDeletion
  | kTypeValue.

Definition ValueType_code (t : ValueType) : Z :=
  match t with
  | kTypeDeletion => 0
  | kTypeValue => 1
  end.

Definition kValueTypeForSeek : ValueType := kTypeValue.

(** [typedef uint64_t SequenceNumber]. *)
Definition SequenceNumber : Type := Z.

Definition kMaxSequenceNumber : SequenceNumber := Z.shiftl 1 56 - 1.

Record ParsedInternalKey : Type := mkParsedInternalKey {
  user_key : list byte;
  sequence : SequenceNumber;
  type : ValueType
}.

Definition InternalKeyEncodingLength (key : ParsedInternalKey) : Z :=
  zlen (user_key key) + 8.

(** Modelled from the spec: [PackSequenceAndType] and [AppendInternalKey] of
    [db/dbformat.cc], not among the sources.  The spec gives the encoding as
    [UK || fixed-little-endian-u64(SN<<8 | VT)]. *)
Definition PackSequenceAndType (seq : SequenceNumber) (t : ValueType) : Z :=
  Z.lor (wrap64 (Z.shiftl seq 8)) (ValueType_code t).

Definition AppendInternalKey (result : list byte) (key : ParsedInternalKey)
    : list byte :=
  result ++ user_key key
         ++ EncodeFixed64 (PackSequenceAndType (sequence key) (type key)).

(** The canonical encoding in the spec's words:
    [UK || fixed-little-endian-u64(SN<<8 | VT)]. *)
Definition canonical_encoding (UK : list byte) (SN : Z) (VT : ValueType)
    : list byte :=
  UK ++ EncodeFixed64 (Z.lor (Z.shiftl SN 8) (ValueType_code VT)).

(** [ExtractUserKey]: asserts [size >= 8]. *)
Definition ExtractUserKey (internal_key : list byte) : option (list byte) :=
  if zlen internal_key <? 8 then None
  else Some (slice_bytes internal_key 0 (zlen internal_key - 8)).

(** [ParseInternalKey]: [None] is the C++ [false] (the contents of
    [*result] are then documented as undefined).  [static_cast<ValueType>(c)]
    is read back only when [c <= kTypeValue]. *)
Definition ParseInternalKey (internal_key : list byte)
    : option ParsedInternalKey :=
  let n := zlen internal_key in
  if n <? 8 then None
  else
    let num := DecodeFixed64 internal_key (n - 8) in
    let c := Z.land num 255 in
    let seq := Z.shiftr num 8 in
    let uk := slice_bytes internal_key 0 (n - 8) in
    if c <=? ValueType_code kTypeValue then
      Some (mkParsedInternalKey uk seq
              (if c =? 0 then kTypeDeletion else kTypeValue))
    else None.

End DBFormat.

(** ** Outcomes and statuses *)

(** What a call comes to: a result, an abort (failed [assert], or behaviour
    C++ leaves undefined), or fuel exhausted in a loop. *)
Inductive outcome (A : Type) : Type :=
  | Done (a : A)
  | Abort
  | Timeout.
Arguments Done {A} a.
Arguments Abort {A}.
Arguments Timeout {A}.

Definition obind {A B : Type} (m : outcome A) (f : A -> outcome B) : outcome B :=
  match m with
  | Done a => f a
  | Abort => Abort
  | Timeout => Timeout
  end.

Definition assert (b : bool) : outcome unit := if b then Done tt else Abort.

Notation "'do' x <- m ; k" := (obind m (fun x => k))
  (at level 10, x name, m at level 100, k at level 200).
Notation "'do' ' pat <- m ; k" :=
  (obind m (fun x => match x with pat => k end))
  (at level 10, pat pattern, m at level 100, k at level 200).
Notation "'check' b ; k" := (obind (assert b) (fun _ => k))
  (at level 10, b at level 100, k at level 200).


(** [leveldb::Status], as far as these files produce it. *)
Inductive Status : Type :=
  | OK
  | Corruption (msg : string)
  | IOError (context msg : string).

Definition ok (s : Status) : bool :=
  match s with
  | OK => true
  | _ => false
  end.

(** ** Block reader ([table/block.cc]) *)

Module Block.
Import Coding.

Record BlockContents : Type := mkBlockContents {
  contents_data : list byte;
  heap_allocated : bool
}.

(** [restart_offset_] is declared in [table/block.h] (not among the sources);
    it is what [Iter] receives as its [uint32_t restarts] and is kept as a
    32-bit value.  The constructor leaves it unset on a corrupt block. *)
Record Block : Type := mkBlock {
  data_ : list byte;
  size_ : Z;
  restart_offset_ : option Z;
  owned_ : bool
}.

Definition NumRestarts (b : Block) : outcome Z :=
  check (4 <=? size_ b);
  Done (DecodeFixed32 (data_ b) (size_ b - 4)).

(** [Block::Block].  [size_t] arithmetic is exact on the sizes of a buffer;
    [1 + NumRestarts()] is a [uint32_t] sum. *)
Definition new_Block (contents : BlockContents) : outcome Block :=
  let b := mkBlock (contents_data contents) (zlen (contents_data contents))
                   None (heap_allocated contents) in
  if size_ b <? 4 then
    Done (mkBlock (data_ b) 0 None (owned_ b))
  else
    let max_restarts_allowed := (size_ b - 4) / 4 in
    do n <- NumRestarts b;
    if max_restarts_allowed <? n then
      Done (mkBlock (data_ b) 0 None (owned_ b))
    else
      do n' <- NumRestarts b;
      Done (mkBlock (data_ b) (size_ b)
                    (Some (wrap32 (size_ b - wrap32 (1 + n') * 4)))
                    (owned_ b)).

(** [DecodeEntry(p, limit, &shared, &non_shared, &value_length)]: the
    pointer to the key delta with the three lengths, or [None] for [NULL]. *)
Definition DecodeEntry (data : list byte) (p limit : Z)
    : option (Z * Z * Z * Z) :=
  if limit - p <? 3 then None
  else
    let shared := byte_at data p in
    let non_shared := byte_at data (p + 1) in
    let value_length := byte_at data (p + 2) in
    let header :=
      if Z.lor (Z.lor shared non_shared) value_length <? 128 then
        Some (p + 3, shared, non_shared, value_length)
      else
        match GetVarint32Ptr data p limit with
        | None => None
        | Some (p1, shared) =>
            match GetVarint32Ptr data p1 limit with
            | None => None
            | Some (p2, non_shared) =>
                match GetVarint32Ptr data p2 limit with
                | None => None
                | Some (p3, value_length) =>
                    Some (p3, shared, non_shared, value_length)
                end
            end
        end in
    match header with
    | None => None
    | Some (p', shared, non_shared, value_length) =>
        if wrap32 (limit - p') <? wrap32 (non_shared + value_length)
        then None
        else Some (p', shared, non_shared, value_length)
    end.

(** Where a [Slice] points: into the block, at an offset from [data_], or
    elsewhere (the static empty string of a default or cleared [Slice]). *)
Inductive Ptr : Type :=
  | InBlock (off : Z)
  | Detached.

Record Slice : Type := mkSlice {
  slice_data : Ptr;
  slice_size : Z
}.

Definition empty_Slice : Slice := mkSlice Detached 0.

Module Iter.

Record Iter : Type := mkIter {
  comparator_ : list byte -> list byte -> Z;
  data_ : list byte;
  restarts_ : Z;
  num_restarts_ : Z;
  current_ : Z;
  restart_index_ : Z;
  key_ : list byte;
  value_ : Slice;
  status_ : Status
}.

Definition set_position (it : Iter) (current restart_index : Z) : Iter :=
  mkIter (comparator_ it) (data_ it) (restarts_ it) (num_restarts_ it)
         current restart_index (key_ it) (value_ it) (status_ it).

Definition set_current (it : Iter) (current : Z) : Iter :=
  set_position it current (restart_index_ it).

Definition set_restart_index (it : Iter) (restart_index : Z) : Iter :=
  set_position it (current_ it) restart_index.

Definition set_key_value (it : Iter) (key : list byte) (value : Slice) : Iter :=
  mkIter (comparator_ it) (data_ it) (restarts_ it) (num_restarts_ it)
         (current_ it) (restart_index_ it) key value (status_ it).

Definition set_status (it : Iter) (s : Status) : Iter :=
  mkIter (comparator_ it) (data_ it) (restarts_ it) (num_restarts_ it)
         (current_ it) (restart_index_ it) (key_ it) (value_ it) s.

Definition Compare (it : Iter) (a b : list byte) : Z := comparator_ it a b.

(** [(value_.data() + value_.size()) - data_], returned as [uint32_t].  The
    difference of pointers into different objects is undefined. *)
Definition NextEntryOffset (it : Iter) : outcome Z :=
  match slice_data (value_ it) with
  | InBlock off => Done (wrap32 (off + slice_size (value_ it)))
  | Detached => Abort
  end.

Definition GetRestartPoint (it : Iter) (index : Z) : outcome Z :=
  check (index <? num_restarts_ it);
  Done (DecodeFixed32 (data_ it) (restarts_ it + index * 4)).

Definition SeekToRestartPoint (it : Iter) (index : Z) : outcome Iter :=
  let it := set_key_value it [] (value_ it) in
  let it := set_restart_index it index in
  do offset <- GetRestartPoint it index;
  Done (set_key_value it (key_ it) (mkSlice (InBlock offset) 0)).

(** The constructor asserts [num_restarts_ > 0]. *)
Definition new_Iter (comparator : list byte -> list byte -> Z)
    (data : list byte) (restarts num_restarts : Z) : outcome Iter :=
  check (0 <? num_restarts);
  Done (mkIter comparator data restarts num_restarts
               restarts num_restarts [] empty_Slice OK).

Definition Valid (it : Iter) : bool := current_ it <? restarts_ it.

Definition status (it : Iter) : Status := status_ it.

Definition key (it : Iter) : outcome (list byte) :=
  check (Valid it);
  Done (key_ it).

Definition value (it : Iter) : outcome Slice :=
  check (Valid it);
  Done (value_ it).

Definition CorruptionError (it : Iter) : Iter :=
  let it := set_position it (restarts_ it) (num_restarts_ it) in
  let it := set_status it (Corruption "bad entry in block") in
  set_key_value it [] empty_Slice.

(** The loop at the end of [ParseNextKey]:
    [while (restart_index_ + 1 < num_restarts_ &&
            GetRestartPoint(restart_index_ + 1) < current_) ++restart_index_]. *)
Fixpoint advance_restart_index (fuel : nat) (it : Iter) : outcome Iter :=
  match fuel with
  | O => Timeout
  | S fuel' =>
      if wrap32 (restart_index_ it + 1) <? num_restarts_ it then
        do r <- GetRestartPoint it (wrap32 (restart_index_ it + 1));
        if r <? current_ it then
          advance_restart_index fuel'
            (set_restart_index it (wrap32 (restart_index_ it + 1)))
        else Done it
      else Done it
  end.

(** [key_.append(p, non_shared)] copies the [non_shared] bytes at [p]:
    undefined unless they all lie within the block's buffer. *)
Definition ParseNextKey (it : Iter) : outcome (bool * Iter) :=
  do current <- NextEntryOffset it;
  let it := set_current it current in
  let p := current_ it in
  let limit := restarts_ it in
  if limit <=? p then
    Done (false, set_position it (restarts_ it) (num_restarts_ it))
  else
    match DecodeEntry (data_ it) p limit with
    | None => Done (false, CorruptionError it)
    | Some (p, shared, non_shared, value_length) =>
        if zlen (key_ it) <? shared then Done (false, CorruptionError it)
        else
          check (p + non_shared <=? zlen (data_ it));
          let key := firstn (Z.to_nat shared) (key_ it)
                     ++ slice_bytes (data_ it) p non_shared in
          let it := set_key_value it key
                      (mkSlice (InBlock (p + non_shared)) value_length) in
          do it <- advance_restart_index (S (Z.to_nat (num_restarts_ it))) it;
          Done (true, it)
    end.

Definition Next (it : Iter) : outcome Iter :=
  check (Valid it);
  do '(_, it) <- ParseNextKey it;
  Done it.

(** First loop of [Prev]: [inl] is the early [return] (no more entries),
    [inr] the iterator with [restart_index_] moved before [original]. *)
Fixpoint Prev_find_restart (fuel : nat) (it : Iter) (original : Z)
    : outcome (Iter + Iter) :=
  match fuel with
  | O => Timeout
  | S fuel' =>
      do r <- GetRestartPoint it (restart_index_ it);
      if original <=? r then
        if restart_index_ it =? 0 then
          Done (inl (set_position it (restarts_ it) (num_restarts_ it)))
        else
          Prev_find_restart fuel'
            (set_restart_index it (wrap32 (restart_index_ it - 1))) original
      else Done (inr it)
  end.

(** [do { } while (ParseNextKey() && NextEntryOffset() < bound)], the scan
    of [Prev] (bound [original]); entered after the first [ParseNextKey] it
    is also the loop of [SeekToLast] (bound [restarts_]). *)
Fixpoint scan_while_before (fuel : nat) (it : Iter) (bound : Z)
    : outcome Iter :=
  match fuel with
  | O => Timeout
  | S fuel' =>
      do '(parsed, it) <- ParseNextKey it;
      if parsed then
        do next <- NextEntryOffset it;
        if next <? bound then scan_while_before fuel' it bound
        else Done it
      else Done it
  end.

Definition Prev (it : Iter) : outcome Iter :=
  check (Valid it);
  let original := current_ it in
  do found <- Prev_find_restart (S (Z.to_nat (restart_index_ it))) it original;
  match found with
  | inl it => Done it
  | inr it =>
      do it <- SeekToRestartPoint it (restart_index_ it);
      scan_while_before (S (Z.to_nat (restarts_ it))) it original
  end.

(** Binary search of [Seek]: [inl] is the return through [CorruptionError],
    [inr] the index [left] the loop ends with.  [Compare] reads the bytes
    of [mid_key]: undefined unless they all lie within the block's buffer. *)
Fixpoint Seek_restart (fuel : nat) (it : Iter) (target : list byte)
    (left right : Z) : outcome (Iter + Z) :=
  match fuel with
  | O => Timeout
  | S fuel' =>
      if left <? right then
        let mid := wrap32 (wrap32 (wrap32 (left + right) + 1) / 2) in
        do region_offset <- GetRestartPoint it mid;
        match DecodeEntry (data_ it) region_offset (restarts_ it) with
        | None => Done (inl (CorruptionError it))
        | Some (key_ptr, shared, non_shared, value_length) =>
            if negb (shared =? 0) then Done (inl (CorruptionError it))
            else
              check (key_ptr + non_shared <=? zlen (data_ it));
              let mid_key := slice_bytes (data_ it) key_ptr non_shared in
              if Compare it mid_key target <? 0
              then Seek_restart fuel' it target mid right
              else Seek_restart fuel' it target left (wrap32 (mid - 1))
        end
      else Done (inr left)
  end.

(** Linear search of [Seek]: [while (true)] leaving at the first failed
    parse or the first key [>= target]. *)
Fixpoint Seek_scan (fuel : nat) (it : Iter) (target : list byte)
    : outcome Iter :=
  match fuel with
  | O => Timeout
  | S fuel' =>
      do '(parsed, it) <- ParseNextKey it;
      if negb parsed then Done it
      else if 0 <=? Compare it (key_ it) target then Done it
      else Seek_scan fuel' it target
  end.

Definition Seek (it : Iter) (target : list byte) : outcome Iter :=
  let left := 0 in
  let right := wrap32 (num_restarts_ it - 1) in
  do found <- Seek_restart (S (Z.to_nat (num_restarts_ it))) it target left right;
  match found with
  | inl it => Done it
  | inr index =>
      do it <- SeekToRestartPoint it index;
      Seek_scan (S (Z.to_nat (restarts_ it))) it target
  end.

Definition SeekToFirst (it : Iter) : outcome Iter :=
  do it <- SeekToRestartPoint it 0;
  do '(_, it) <- ParseNextKey it;
  Done it.

Definition SeekToLast (it : Iter) : outcome Iter :=
  do it <- SeekToRestartPoint it (wrap32 (num_restarts_ it - 1));
  scan_while_before (S (Z.to_nat (restarts_ it))) it (restarts_ it).

End Iter.

(** What [NewIterator] hands out.  [NewErrorIterator] and [NewEmptyIterator]
    live in [table/iterator.cc], outside these sources: an iterator that is
    never valid and reports the given status, resp. [OK]. *)
Inductive Iterator : Type :=
  | ErrorIterator (s : Status)
  | EmptyIterator
  | BlockIterator (it : Iter.Iter).

Definition NewIterator (b : Block) (cmp : list byte -> list byte -> Z)
    : outcome Iterator :=
  if size_ b <? 4 then
    Done (ErrorIterator (Corruption "bad block contents"))
  else
    do num_restarts <- NumRestarts b;
    if num_restarts =? 0 then Done EmptyIterator
    else
      match restart_offset_ b with
      | None => Abort
      | Some restart_offset =>
          do it <- Iter.new_Iter cmp (data_ b) restart_offset num_restarts;
          Done (BlockIterator it)
      end.

End Block.

(** ** The block format, read off a byte string

    The entries of a block as the format defines them, independently of the
    iterator: decode entry after entry from offset 0 up to the restart
    array, each key being the first [shared] bytes of the previous key
    followed by the stored suffix. *)

Module BlockFormat.
Import Coding Block.

Record Entry : Type := mkEntry {
  e_off : Z;              (* offset of the entry header *)
  e_shared : Z;           (* sharedLen *)
  e_key : list byte;      (* the reconstructed key *)
  e_voff : Z;             (* offset of the value *)
  e_vlen : Z              (* valueLen *)
}.

Definition e_next (e : Entry) : Z := e_voff e + e_vlen e.

(** Entries from [off] to [limit], the previous key being [prev]; [None]
    when some entry does not decode, shares more than the previous key has,
    or does not stay within [[off, limit)]. *)
Fixpoint parse_entries (fuel : nat) (data : list byte) (limit off : Z)
    (prev : list byte) : option (list Entry) :=
  match fuel with
  | O => None
  | S fuel' =>
      if off =? limit then Some []
      else if limit <? off then None
      else
        match DecodeEntry data off limit with
        | None => None
        | Some (p, shared, non_shared, value_length) =>
            if (zlen prev <? shared)
               || (limit - p <? non_shared + value_length) then None
            else
              let k := firstn (Z.to_nat shared) prev
                       ++ slice_bytes data p non_shared in
              match parse_entries fuel' data limit
                      (p + non_shared + value_length) k with
              | None => None
              | Some es =>
                  Some (mkEntry off shared k (p + non_shared) value_length
                          :: es)
              end
        end
  end.

Definition restart_point (data : list byte) (limit : Z) (j : Z) : Z :=
  DecodeFixed32 data (limit + j * 4).

(** Restart 0 is offset 0; every later restart offset is larger than the one
    before it and is the offset of an entry stored with [sharedLen = 0]. *)
Definition restart_ok (data : list byte) (limit : Z) (es : list Entry)
    (j : Z) : bool :=
  if j =? 0 then restart_point data limit 0 =? 0
  else
    (restart_point data limit (j - 1) <? restart_point data limit j)
    && existsb (fun e => (e_off e =? restart_point data limit j)
                         && (e_shared e =? 0)) es.

Record Layout : Type := mkLayout {
  restart_array : Z;      (* restartArrayStart *)
  restart_count : Z;      (* restartCount *)
  entries : list Entry
}.

(** The layout of a well-formed block: size in [[4, 2^32)], at least one
    restart point and no more than fit, entries that decode back to back up
    to the restart array, restart points as above. *)
Definition layout (data : list byte) : option Layout :=
  let size := zlen data in
  if (size <? 4) || (2 ^ 32 <=? size) then None
  else
    let n := DecodeFixed32 data (size - 4) in
    if (n <? 1) || ((size - 4) / 4 <? n) then None
    else
      let limit := size - (1 + n) * 4 in
      match parse_entries (S (Z.to_nat limit)) data limit 0 [] with
      | None => None
      | Some es =>
          if forallb (restart_ok data limit es)
               (map Z.of_nat (seq 0 (Z.to_nat n)))
          then Some (mkLayout limit n es)
          else None
      end.

(** The full key stored at restart point [j]: the key of the entry at that
    offset. *)
Definition restart_key (data : list byte) (L : Layout) (j : Z) : list byte :=
  match List.find (fun e => e_off e =? restart_point data (restart_array L) j)
                  (entries L) with
  | Some e => e_key e
  | None => []
  end.

(** Keys strictly ascending under the comparator. *)
Fixpoint keys_ascending (cmp : list byte -> list byte -> Z)
    (es : list Entry) : bool :=
  match es with
  | e1 :: ((e2 :: _) as rest) =>
      (cmp (e_key e1) (e_key e2) <? 0) && keys_ascending cmp rest
  | _ => true
  end.

(** What a caller sees of an entry: its offset, key and value bytes. *)
Definition entry_view (data : list byte) (e : Entry)
    : Z * list byte * list byte :=
  (e_off e, e_key e, slice_bytes data (e_voff e) (e_vlen e)).

Definition slice_contents (data : list byte) (s : Slice) : list byte :=
  match slice_data s with
  | InBlock off => slice_bytes data off (slice_size s)
  | Detached => []
  end.

(** What the iterator shows at its position: [current_], [key()], [value()]. *)
Definition iter_view (it : Iter.Iter) : outcome (Z * list byte * list byte) :=
  do k <- Iter.key it;
  do v <- Iter.value it;
  Done (Iter.current_ it, k, slice_contents (Iter.data_ it) v).



(** The iterator [NewIterator] builds over a block made from [data]. *)
Definition open_block (data : list byte) (cmp : list byte -> list byte -> Z)
    : outcome Iterator :=
  do b <- new_Block (mkBlockContents data false);
  NewIterator b cmp.

(** *** Well-formed blocks and iterator positions

    [chain data limit off prev es]: decoding from [off], with previous key
    [prev], yields the entries [es] one after the other and ends exactly at
    [limit]. *)
Fixpoint chain (data : list byte) (limit off : Z) (prev : list byte)
    (es : list Entry) : Prop :=
  match es with
  | [] => off = limit
  | e :: es' =>
      off < limit /\ e_off e = off /\
      (exists p non_shared,
          DecodeEntry data off limit
            = Some (p, e_shared e, non_shared, e_vlen e)
          /\ e_shared e <= zlen prev
          /\ non_shared + e_vlen e <= limit - p
          /\ e_key e = firstn (Z.to_nat (e_shared e)) prev
                       ++ slice_bytes data p non_shared
          /\ e_voff e = p + non_shared) /\
      chain data limit (e_next e) (e_key e) es'
  end.

(** The key of the entry before a suffix: the last key of what precedes. *)
Definition last_key (prev : list byte) (pre : list Entry) : list byte :=
  match last pre with
  | Some e => e_key e
  | None => prev
  end.

(** What [layout data = Some L] establishes. *)
Record well_formed (data : list byte) (L : Layout) : Prop := mk_well_formed {
  wf_size : 4 <= zlen data < 2 ^ 32;
  wf_count : restart_count L = DecodeFixed32 data (zlen data - 4);
  wf_count_range : 1 <= restart_count L <= (zlen data - 4) / 4;
  wf_array : restart_array L = zlen data - (1 + restart_count L) * 4;
  wf_chain : chain data (restart_array L) 0 [] (entries L);
  wf_restarts : forall j, 0 <= j < restart_count L ->
      restart_ok data (restart_array L) (entries L) j = true
}.

(** An iterator over the block [data] with layout [L], in any state. *)
Definition iter (data : list byte) (L : Layout)
    (cmp : list byte -> list byte -> Z) (current restart_index : Z)
    (k : list byte) (v : Slice) (st : Status) : Iter.Iter :=
  Iter.mkIter cmp data (restart_array L) (restart_count L)
              current restart_index k v st.

(** The iterator on entry [e]. *)
Definition at_entry (data : list byte) (L : Layout)
    (cmp : list byte -> list byte -> Z) (restart_index : Z) (e : Entry)
    (st : Status) : Iter.Iter :=
  iter data L cmp (e_off e) restart_index (e_key e)
       (mkSlice (InBlock (e_voff e)) (e_vlen e)) st.

(** The key the iterator holds is as good as [prev] for decoding entry [h]. *)
Definition key_ready (k prev : list byte) (h : Entry) : Prop :=
  e_shared h <= zlen k
  /\ firstn (Z.to_nat (e_shared h)) k = firstn (Z.to_nat (e_shared h)) prev.

(** The key of [y] compares strictly less than [target]. *)
Definition below (cmp : list byte -> list byte -> Z) (target : list byte)
    (y : Entry) : Prop :=
  cmp (e_key y) target < 0.

End BlockFormat.

(** ** POSIX environment ([util/env_posix.cc]) *)

(** *** The system calls the environment makes

    Not repository code: a model of the POSIX calls [open], [close],
    [pread], [stat], [mmap] and [fcntl(F_SETLK)] on regular files, as far as
    [env_posix.cc] depends on them.  Descriptor numbers are handed out from
    a counter.  Record locks follow POSIX [fcntl]: they belong to the
    process and the file, not to the descriptor, and "all locks associated
    with a file for a given process shall be removed when a file descriptor
    for that file is closed by that process". *)

Module Posix.

Record Kernel : Type := mkKernel {
  k_files : gmap string (list byte);   (* regular files, by path *)
  k_fds : gmap Z string;               (* open descriptors of this process *)
  k_next_fd : Z;
  k_locks : gset string;               (* files this process holds a lock on *)
  k_foreign : gset string              (* files locked by other processes *)
}.

Definition ENOENT : Z := 2.
Definition EBADF : Z := 9.
Definition EAGAIN : Z := 11.
Definition EINVAL : Z := 22.

Definition strerror (errno : Z) : string :=
  if errno =? ENOENT then "No such file or directory"
  else if errno =? EBADF then "Bad file descriptor"
  else if errno =? EAGAIN then "Resource temporarily unavailable"
  else if errno =? EINVAL then "Invalid argument"
  else "Unknown error".

(** [open(path, O_RDONLY)]: the descriptor (or -1), [errno], the kernel. *)
Definition open_rdonly (k : Kernel) (path : string) : Z * Z * Kernel :=
  match k_files k !! path with
  | None => (-1, ENOENT, k)
  | Some _ =>
      (k_next_fd k, 0,
       mkKernel (k_files k) (<[k_next_fd k := path]> (k_fds k))
                (k_next_fd k + 1) (k_locks k) (k_foreign k))
  end.

(** [open(path, O_RDWR | O_CREAT, 0644)]: creates the file when missing. *)
Definition open_creat (k : Kernel) (path : string) : Z * Z * Kernel :=
  let files := match k_files k !! path with
               | None => <[path := []]> (k_files k)
               | Some _ => k_files k
               end in
  (k_next_fd k, 0,
   mkKernel files (<[k_next_fd k := path]> (k_fds k))
            (k_next_fd k + 1) (k_locks k) (k_foreign k)).

(** [close(fd)]: also drops every record lock of the process on the file. *)
Definition close (k : Kernel) (fd : Z) : Kernel :=
  match k_fds k !! fd with
  | None => k
  | Some path =>
      mkKernel (k_files k) (delete fd (k_fds k)) (k_next_fd k)
               (k_locks k ∖ {[path]}) (k_foreign k)
  end.

(** [fcntl(fd, F_SETLK, &f)] on the whole file, [f.l_type] being [F_WRLCK]
    ([lock = true]) or [F_UNLCK]: result and [errno]. *)
Definition fcntl_setlk (k : Kernel) (fd : Z) (lock : bool) : Z * Z * Kernel :=
  match k_fds k !! fd with
  | None => (-1, EBADF, k)
  | Some path =>
      if lock then
        if decide (path ∈ k_foreign k) then (-1, EAGAIN, k)
        else (0, 0, mkKernel (k_files k) (k_fds k) (k_next_fd k)
                             (k_locks k ∪ {[path]}) (k_foreign k))
      else (0, 0, mkKernel (k_files k) (k_fds k) (k_next_fd k)
                           (k_locks k ∖ {[path]}) (k_foreign k))
  end.


(** [stat(path).st_size]. *)
Definition stat_size (k : Kernel) (path : string) : option Z :=
  match k_files k !! path with
  | None => None
  | Some contents => Some (zlen contents)
  end.

(** [mmap(NULL, size, PROT_READ, MAP_SHARED, fd, 0)]: the mapped bytes, or
    [errno] for [MAP_FAILED].  "The mmap() function shall fail if: [EINVAL]
    The value of len is zero." *)
Definition mmap (k : Kernel) (size : Z) (fd : Z) : list byte + Z :=
  if size <=? 0 then inr EINVAL
  else
    match k_fds k !! fd with
    | None => inr EBADF
    | Some path =>
        match k_files k !! path with
        | None => inr EBADF
        | Some contents => inl (slice_bytes contents 0 size)
        end
    end.

End Posix.

Module EnvPosix.
Import Posix.

Definition IOError_errno (context : string) (err_number : Z) : Status :=
  IOError context (strerror err_number).

(** [Limiter]: the count of resources still allowed. *)
Record Limiter : Type := mkLimiter { allowed_ : Z }.

Definition Acquire (l : Limiter) : bool * Limiter :=
  if allowed_ l <=? 0 then (false, l)
  else
    let x := allowed_ l in
    if x <=? 0 then (false, l) else (true, mkLimiter (x - 1)).

Definition Release (l : Limiter) : Limiter := mkLimiter (allowed_ l + 1).

(** The two [RandomAccessFile] implementations. *)
Inductive RandomAccessFile : Type :=
  | PosixRandomAccessFile (filename_ : string) (temporary_fd_ : bool) (fd_ : Z)
  | PosixMmapReadableFile (filename_ : string) (mmapped_region_ : list byte)
                          (length_ : Z).


(** [static_cast<off_t>(offset)] of a [uint64_t]. *)
Definition to_off_t (offset : Z) : Z :=
  if offset <? 2 ^ 63 then offset else offset - 2 ^ 64.




(** [PosixLockTable]: [Insert] tells whether the name was new. *)
Definition Insert (locked_files_ : gset string) (fname : string)
    : bool * gset string :=
  (bool_decide (fname ∉ locked_files_), locked_files_ ∪ {[fname]}).

Definition Remove (locked_files_ : gset string) (fname : string)
    : gset string :=
  locked_files_ ∖ {[fname]}.

Record PosixFileLock : Type := mkPosixFileLock {
  lock_fd_ : Z;
  name_ : string
}.

(** The members of [PosixEnv] that files and locks use. *)
Record PosixEnv : Type := mkPosixEnv {
  locks_ : gset string;
  mmap_limit_ : Limiter;
  fd_limit_ : Limiter
}.

Definition LockOrUnlock (k : Kernel) (fd : Z) (lock : bool) : Z * Z * Kernel :=
  fcntl_setlk k fd lock.

Definition GetFileSize (k : Kernel) (fname : string) : Status * Z :=
  match stat_size k fname with
  | None => (IOError_errno fname ENOENT, 0)
  | Some size => (OK, size)
  end.

(** [new PosixRandomAccessFile(fname, fd, limiter)]. *)
Definition new_PosixRandomAccessFile (k : Kernel) (fname : string) (fd : Z)
    (limiter : Limiter) : RandomAccessFile * Limiter * Kernel :=
  let '(acquired, limiter) := Acquire limiter in
  let temporary_fd := negb acquired in
  if temporary_fd then (PosixRandomAccessFile fname true (-1), limiter, close k fd)
  else (PosixRandomAccessFile fname false fd, limiter, k).

Definition NewRandomAccessFile (env : PosixEnv) (k : Kernel) (fname : string)
    : Status * option RandomAccessFile * PosixEnv * Kernel :=
  let '(fd, errno, k) := open_rdonly k fname in
  if fd <? 0 then (IOError_errno fname errno, None, env, k)
  else
    let '(acquired, mmap_limit) := Acquire (mmap_limit_ env) in
    if acquired then
      let '(s, size) := GetFileSize k fname in
      let '(s, result) :=
        if ok s then
          match mmap k size fd with
          | inl base => (s, Some (PosixMmapReadableFile fname base size))
          | inr errno => (IOError_errno fname errno, None)
          end
        else (s, None) in
      let k := close k fd in
      let mmap_limit := if ok s then mmap_limit else Release mmap_limit in
      (s, result, mkPosixEnv (locks_ env) mmap_limit (fd_limit_ env), k)
    else
      let '(file, fd_limit, k) :=
        new_PosixRandomAccessFile k fname fd (fd_limit_ env) in
      (OK, Some file, mkPosixEnv (locks_ env) mmap_limit fd_limit, k).

Definition LockFile (env : PosixEnv) (k : Kernel) (fname : string)
    : Status * option PosixFileLock * PosixEnv * Kernel :=
  let '(fd, errno, k) := open_creat k fname in
  if fd <? 0 then (IOError_errno fname errno, None, env, k)
  else
    let '(inserted, locked) := Insert (locks_ env) fname in
    if negb inserted then
      (IOError ("lock " +:+ fname) "already held by process", None, env,
       close k fd)
    else
      let env := mkPosixEnv locked (mmap_limit_ env) (fd_limit_ env) in
      let '(r, errno, k) := LockOrUnlock k fd true in
      if r =? -1 then
        (IOError_errno ("lock " +:+ fname) errno, None,
         mkPosixEnv (Remove (locks_ env) fname) (mmap_limit_ env)
                    (fd_limit_ env),
         close k fd)
      else (OK, Some (mkPosixFileLock fd fname), env, k).

Definition UnlockFile (env : PosixEnv) (k : Kernel) (my_lock : PosixFileLock)
    : Status * PosixEnv * Kernel :=
  let '(r, errno, k) := LockOrUnlock k (lock_fd_ my_lock) false in
  let result := if r =? -1 then IOError_errno "unlock" errno else OK in
  (result,
   mkPosixEnv (Remove (locks_ env) (name_ my_lock)) (mmap_limit_ env)
              (fd_limit_ env),
   close k (lock_fd_ my_lock)).

(** *** Background work

    The scheduling members of [PosixEnv], and what a run leaves behind.
    [Schedule] runs from lock to unlock of [mu_], and so does the part of
    [BGThread] from lock to unlock; each is one step.  A callable is a
    [BGItem]; what it does is not modelled, only when it starts and when it
    returns.  [threads] holds, per thread created by [Schedule], the item it
    is running, if any. *)

Record BGItem : Type := mkBGItem {
  function : nat;
  arg : nat
}.

Inductive Event : Type :=
  | Submitted (i : BGItem)
  | Started (i : BGItem)
  | Returned (i : BGItem).

Record Background : Type := mkBackground {
  started_bgthread_ : bool;
  queue_ : list BGItem;
  threads : list (option BGItem);
  trace : list Event
}.

Definition new_Background : Background := mkBackground false [] [] [].

(** [PosixEnv::Schedule]: create the thread on first use, signal, push. *)
Definition Schedule (bg : Background) (function arg : nat) : Background :=
  let threads := if started_bgthread_ bg then threads bg
                 else threads bg ++ [None] in
  mkBackground true (queue_ bg ++ [mkBGItem function arg]) threads
               (trace bg ++ [Submitted (mkBGItem function arg)]).

(** [BGThread], from [pthread_mutex_lock] to the call of the item, in
    thread [t]: not enabled while the thread is in a callable; with an
    empty queue the thread waits ([None]). *)
Definition BGThread_take (bg : Background) (t : nat) : option Background :=
  match threads bg !! t with
  | Some None =>
      match queue_ bg with
      | [] => None
      | front :: rest =>
          Some (mkBackground (started_bgthread_ bg) rest
                  (<[t := Some front]> (threads bg))
                  (trace bg ++ [Started front]))
      end
  | _ => None
  end.

(** The callable of thread [t] returns and the loop starts over. *)
Definition BGThread_return (bg : Background) (t : nat) : option Background :=
  match threads bg !! t with
  | Some (Some item) =>
      Some (mkBackground (started_bgthread_ bg) (queue_ bg)
              (<[t := None]> (threads bg))
              (trace bg ++ [Returned item]))
  | _ => None
  end.

Inductive step : Background -> Background -> Prop :=
  | step_Schedule bg function arg :
      step bg (Schedule bg function arg)
  | step_take bg t bg' :
      BGThread_take bg t = Some bg' -> step bg bg'
  | step_return bg t bg' :
      BGThread_return bg t = Some bg' -> step bg bg'.

Inductive reachable : Background -> Prop :=
  | reachable_new : reachable new_Background
  | reachable_step bg bg' : reachable bg -> step bg bg' -> reachable bg'.

Definition submitted (tr : list Event) : list BGItem :=
  omap (fun e => match e with Submitted i => Some i | _ => None end) tr.

Definition started (tr : list Event) : list BGItem :=
  omap (fun e => match e with Started i => Some i | _ => None end) tr.

(** The trace without its [Submitted] events. *)
Definition run_events (tr : list Event) : list Event :=
  omap (fun e => match e with Submitted _ => None | _ => Some e end) tr.

(** One callable after the other: started, returned, started, ... *)
Definition one_at_a_time (items : list BGItem) : list Event :=
  flat_map (fun i => [Started i; Returned i]) items.

(** The worker running until the queue is empty. *)
Fixpoint drain (fuel : nat) (bg : Background) : option Background :=
  match fuel with
  | O => Some bg
  | S fuel' =>
      match BGThread_take bg 0 with
      | None => None
      | Some bg1 =>
          match BGThread_return bg1 0 with
          | None => None
          | Some bg2 => drain fuel' bg2
          end
      end
  end.

Definition Schedule_all (bg : Background) (items : list BGItem) : Background :=
  fold_left (fun bg i => Schedule bg (function i) (arg i)) items bg.

Definition running_items (w : option BGItem) : list BGItem :=
  match w with
  | Some i => [i]
  | None => []
  end.

(** What holds of every reachable scheduler state: no thread and nothing
    done before the first [Schedule]; afterwards one thread, the submitted
    items being those done, then the one running, then the queue. *)
Definition invariant (bg : Background) : Prop :=
  (started_bgthread_ bg = false /\ threads bg = [] /\ queue_ bg = []
   /\ trace bg = [])
  \/ (started_bgthread_ bg = true
      /\ exists w done,
           threads bg = [w]
           /\ submitted (trace bg) = done ++ running_items w ++ queue_ bg
           /\ started (trace bg) = done ++ running_items w
           /\ run_events (trace bg)
              = one_at_a_time done ++ map Started (running_items w)).

End EnvPosix.

(** ** Test vectors *)

Module Examples.
Import Block BlockFormat Posix EnvPosix.

(** Byte-wise lexicographic order, the order of LevelDB's default
    comparator: negative, zero or positive. *)
Fixpoint bytewise (a b : list byte) : Z :=
  match a, b with
  | [], [] => 0
  | [], _ :: _ => -1
  | _ :: _, [] => 1
  | x :: a', y :: b' =>
      if byte_to_Z x <? byte_to_Z y then -1
      else if byte_to_Z y <? byte_to_Z x then 1
      else bytewise a' b'
  end.

(** The block iterator [NewIterator] gives for [data], when it gives one. *)
Definition block_iter (data : list byte) (cmp : list byte -> list byte -> Z)
    : outcome Iter.Iter :=
  do i <- open_block data cmp;
  match i with
  | BlockIterator it => Done it
  | _ => Abort
  end.

(** "apple" -> "1", "apply" -> "2" (sharing "app"), "bat" -> "3"; restart
    points at "apple" (offset 0) and "bat" (offset 15). *)
Definition fruit_block : list byte := bytes
  [ 0; 5; 1;  97; 112; 112; 108; 101;  49;
    3; 2; 1;  108; 121;  50;
    0; 3; 1;  98; 97; 116;  51;
    0; 0; 0; 0;   15; 0; 0; 0;
    2; 0; 0; 0 ].

Definition fruit_layout : Layout :=
  Eval vm_compute in
    match layout fruit_block with
    | Some L => L
    | None => mkLayout 0 0 []
    end.

(** One entry, with the key "a", whose header declares [non_shared = 1]
    and [value_length = 0xffffffff]; one restart point.  The restart array
    starts at offset 8, right after the key. *)
Definition overflow_block : list byte := bytes
  [ 0;  1;  255; 255; 255; 255; 15;   97;
    0; 0; 0; 0;
    1; 0; 0; 0 ].

(** One entry whose header declares [non_shared = 0xffffffff] and
    [value_length = 1], with no bytes after the header; one restart
    point. *)
Definition overrun_block : list byte := bytes
  [ 0;  255; 255; 255; 255; 15;  1;
    0; 0; 0; 0;
    1; 0; 0; 0 ].

(** A block of 4 GiB and 8 bytes: [2^32] zero bytes, then one restart
    point (offset 0) and the restart count 1. *)
Definition long_block : list byte :=
  replicate (Z.to_nat (2 ^ 32)) x00 ++ bytes [0; 0; 0; 0;  1; 0; 0; 0].

(** A four-byte file "f" and an environment with the default limits; the
    same environment with no memory maps left. *)
Definition small_file : list byte := bytes [1; 2; 3; 4].

Definition kernel0 : Kernel :=
  mkKernel {[ "f" := small_file ]} ∅ 3 ∅ ∅.

Definition env0 : PosixEnv := mkPosixEnv ∅ (mkLimiter 1000) (mkLimiter 50).


(** A kernel whose only file, "e", is empty. *)
Definition empty_file_kernel : Kernel :=
  mkKernel {[ "e" := [] ]} ∅ 3 ∅ ∅.

End Examples.

(** ** States of a block iterator *)

Module BlockState.
Import Block BlockFormat.

(** [restart_index] brackets the cursor: its restart point is at or before
    the cursor and the next one, if any, at or after it. *)
Definition restart_bracket (data : list byte) (L : Layout)
    (restart_index cursor : Z) : Prop :=
  0 <= restart_index < restart_count L
  /\ restart_point data (restart_array L) restart_index <= cursor
  /\ (restart_index + 1 < restart_count L ->
      cursor <= restart_point data (restart_array L) (restart_index + 1)).

(** The iterator is on an entry of the block, holding that entry's key and
    value, with a restart index that brackets it. *)
Definition positioned (data : list byte) (L : Layout)
    (cmp : list byte -> list byte -> Z) (st : Status) (it : Iter.Iter)
    : Prop :=
  exists restart_index e,
    it = at_entry data L cmp restart_index e st
    /\ In e (entries L)
    /\ restart_bracket data L restart_index (e_off e).

(** The iterator is invalid the way [ParseNextKey] leaves it at the end of
    the entries: cursor on the restart array, restart index the count. *)
Definition at_end (data : list byte) (L : Layout)
    (cmp : list byte -> list byte -> Z) (st : Status) (it : Iter.Iter)
    : Prop :=
  exists k v,
    it = iter data L cmp (restart_array L) (restart_count L) k v st.

(** Two iterators over the same block with the same comparator and status,
    wherever they stand. *)
Definition same_block (it1 it2 : Iter.Iter) : Prop :=
  Iter.comparator_ it1 = Iter.comparator_ it2
  /\ Iter.data_ it1 = Iter.data_ it2
  /\ Iter.restarts_ it1 = Iter.restarts_ it2
  /\ Iter.num_restarts_ it1 = Iter.num_restarts_ it2
  /\ Iter.status_ it1 = Iter.status_ it2.

(** [it'] is [it] after some calls: the same comparator, block and restart
    array, and a status that is the one [it] had or the corruption that
    [CorruptionError] records. *)
Definition moved (it it' : Iter.Iter) : Prop :=
  Iter.comparator_ it' = Iter.comparator_ it
  /\ Iter.data_ it' = Iter.data_ it
  /\ Iter.restarts_ it' = Iter.restarts_ it
  /\ Iter.num_restarts_ it' = Iter.num_restarts_ it
  /\ (Iter.status_ it' = Iter.status_ it
      \/ Iter.status_ it' = Corruption "bad entry in block").

(** The ranges an iterator's numbers stay in: the restart array offset is a
    32-bit value, there is at least one restart point and no more than
    [2^31], and the restart index is at most the count (the count itself
    when the iterator is invalid). *)
Definition in_range (it : Iter.Iter) : Prop :=
  0 <= Iter.restarts_ it < 2 ^ 32
  /\ 1 <= Iter.num_restarts_ it <= 2 ^ 31
  /\ 0 <= Iter.restart_index_ it <= Iter.num_restarts_ it.

End BlockState.

(** ** Callers of a block iterator *)

Module BlockCalls.
Import Block BlockFormat.

Inductive Call : Type :=
  | CallSeekToFirst
  | CallSeekToLast
  | CallSeek (target : list byte)
  | CallNext
  | CallPrev.

Definition call (it : Iter.Iter) (c : Call) : outcome Iter.Iter :=
  match c with
  | CallSeekToFirst => Iter.SeekToFirst it
  | CallSeekToLast => Iter.SeekToLast it
  | CallSeek target => Iter.Seek it target
  | CallNext => Iter.Next it
  | CallPrev => Iter.Prev it
  end.

(** The calls made one after the other. *)
Fixpoint calls (it : Iter.Iter) (cs : list Call) : outcome Iter.Iter :=
  match cs with
  | [] => Done it
  | c :: rest =>
      do it' <- call it c;
      calls it' rest
  end.

(** The same by a caller that honours [assert(Valid())]: it tests
    [Valid()] before [Next] and [Prev], as in
    [for (...; it->Valid(); it->Next())], and does not step an invalid
    iterator. *)
Definition guarded_call (it : Iter.Iter) (c : Call) : outcome Iter.Iter :=
  match c with
  | CallNext | CallPrev => if Iter.Valid it then call it c else Done it
  | _ => call it c
  end.

Fixpoint guarded_calls (it : Iter.Iter) (cs : list Call)
    : outcome Iter.Iter :=
  match cs with
  | [] => Done it
  | c :: rest =>
      do it' <- guarded_call it c;
      guarded_calls it' rest
  end.

End BlockCalls.

Module BlockExamples.
Import Block BlockFormat Examples.

(** A block without entries: one restart point, at offset 0. *)
Definition empty_block : list byte := bytes [ 0; 0; 0; 0;  1; 0; 0; 0 ].

Definition empty_layout : Layout :=
  Eval vm_compute in
    match layout empty_block with
    | Some L => L
    | None => mkLayout 0 0 []
    end.

(** The iterator over the fruit block on "apple", and on "apply". *)
Definition on_apple : Iter.Iter :=
  Iter.mkIter bytewise fruit_block 22 2 0 0
    (bytes [97; 112; 112; 108; 101]) (mkSlice (InBlock 8) 1) OK.

Definition on_apply : Iter.Iter :=
  Iter.mkIter bytewise fruit_block 22 2 9 0
    (bytes [97; 112; 112; 108; 121]) (mkSlice (InBlock 14) 1) OK.

(** A fresh iterator over the fruit block. *)
Definition fresh_fruit : Iter.Iter :=
  Iter.mkIter bytewise fruit_block 22 2 22 2 [] empty_Slice OK.

(** An entry cut short: two bytes of header before the restart array. *)
Definition cut_block : list byte := bytes [ 0; 5;  0; 0; 0; 0;  1; 0; 0; 0 ].

Definition on_cut_block : Iter.Iter :=
  Iter.mkIter bytewise cut_block 2 1 2 1 [] (mkSlice (InBlock 0) 0) OK.

End BlockExamples.

(** ** Internal keys, the rest of [db/dbformat.h] *)

Module Keys.
Import Coding DBFormat.

(** [ExtractValueType]: asserts [size >= 8].  The low byte of the trailing
    tag is cast to [ValueType] whatever its value; the code is kept. *)
Definition ExtractValueType (internal_key : list byte) : option Z :=
  if zlen internal_key <? 8 then None
  else
    let n := zlen internal_key in
    let num := DecodeFixed64 internal_key (n - 8) in
    let c := Z.land num 255 in
    Some c.

(** [class InternalKey], its [rep_]. *)
Record InternalKey : Type := mkInternalKey { rep_ : list byte }.

(** [InternalKey()]: [rep_] is left empty. *)
Definition empty_InternalKey : InternalKey := mkInternalKey [].

(** [InternalKey(user_key, s, t)]. *)
Definition new_InternalKey (user_key : list byte) (s : SequenceNumber)
    (t : ValueType) : InternalKey :=
  mkInternalKey (AppendInternalKey [] (mkParsedInternalKey user_key s t)).

Definition DecodeFrom (k : InternalKey) (s : list byte) : InternalKey :=
  mkInternalKey s.

(** [Encode]: asserts [!rep_.empty()]. *)
Definition Encode (k : InternalKey) : option (list byte) :=
  match rep_ k with
  | [] => None
  | _ => Some (rep_ k)
  end.

Definition InternalKey_user_key (k : InternalKey) : option (list byte) :=
  ExtractUserKey (rep_ k).

Definition SetFrom (k : InternalKey) (p : ParsedInternalKey) : InternalKey :=
  mkInternalKey (AppendInternalKey [] p).

Definition Clear (k : InternalKey) : InternalKey := mkInternalKey [].

(** [class LookupKey]: the array [start_] points into, and the three
    pointers as offsets into it.  The constructor is in [db/dbformat.cc];
    the class comment gives the layout it establishes: a varint32 length
    from [start_], the user key from [kstart_], an 8-byte tag up to
    [end_]. *)
Record LookupKey : Type := mkLookupKey {
  lk_array : list byte;
  start_ : Z;
  kstart_ : Z;
  end_ : Z
}.

Definition memtable_key (k : LookupKey) : list byte :=
  slice_bytes (lk_array k) (start_ k) (end_ k - start_ k).

Definition internal_key (k : LookupKey) : list byte :=
  slice_bytes (lk_array k) (kstart_ k) (end_ k - kstart_ k).

Definition LookupKey_user_key (k : LookupKey) : list byte :=
  slice_bytes (lk_array k) (kstart_ k) (end_ k - kstart_ k - 8).

(** The layout of the class comment. *)
Definition LookupKey_layout (k : LookupKey) : Prop :=
  0 <= start_ k <= kstart_ k
  /\ kstart_ k + 8 <= end_ k <= zlen (lk_array k).

End Keys.

(** ** Files of the POSIX environment, continued ([util/env_posix.cc]) *)

Module EnvFiles.
Import Posix EnvPosix.

(** *** Users of a [Limiter] *)

Inductive LimiterCall : Type :=
  | CallAcquire
  | CallRelease.

(** A run of calls by users that release only what they hold, as the two
    random-access files do in their destructors: [held] counts the
    resources acquired and not released; with nothing held there is nothing
    to release. *)
Fixpoint Limiter_run (l : Limiter) (held : Z) (calls : list LimiterCall)
    : Limiter * Z :=
  match calls with
  | [] => (l, held)
  | CallAcquire :: rest =>
      let '(acquired, l') := Acquire l in
      Limiter_run l' (if acquired then held + 1 else held) rest
  | CallRelease :: rest =>
      if 0 <? held then Limiter_run (Release l) (held - 1) rest
      else Limiter_run l held rest
  end.

(** Descriptors at or above [k_next_fd] are not in use. *)
Definition descriptors_fresh (k : Kernel) : Prop :=
  0 <= k_next_fd k
  /\ forall fd, k_next_fd k <= fd -> k_fds k !! fd = None.

(** [~PosixRandomAccessFile] and [~PosixMmapReadableFile]. *)
Definition delete_RandomAccessFile (env : PosixEnv) (k : Kernel)
    (f : RandomAccessFile) : PosixEnv * Kernel :=
  match f with
  | PosixRandomAccessFile _ temporary_fd fd =>
      if negb temporary_fd then
        (mkPosixEnv (locks_ env) (mmap_limit_ env) (Release (fd_limit_ env)),
         close k fd)
      else (env, k)
  | PosixMmapReadableFile _ _ _ =>
      (mkPosixEnv (locks_ env) (Release (mmap_limit_ env)) (fd_limit_ env), k)
  end.

(** *** [PosixSequentialFile] *)

(** A [FILE*] open for reading: the bytes of the file, the position, the
    end-of-file indicator, and the [errno] with which the device fails
    every read, if it is faulty. *)
Record RStream : Type := mkRStream {
  r_bytes : list byte;
  r_pos : Z;
  r_eof : bool;
  r_fault : option Z
}.

(** [fread_unlocked(scratch, 1, n, file)]: the count, [errno], the bytes
    stored to [scratch], the stream.  A short count at the end of the bytes
    sets the end-of-file indicator. *)
Definition fread_unlocked (f : RStream) (n : Z)
    : Z * Z * list byte * RStream :=
  match r_fault f with
  | Some errno => (0, errno, [], f)
  | None =>
      let got := slice_bytes (r_bytes f) (r_pos f) n in
      let r := zlen got in
      (r, 0, got,
       mkRStream (r_bytes f) (r_pos f + r) (r_eof f || (r <? n)) None)
  end.

Definition feof (f : RStream) : bool := r_eof f.

Definition EOVERFLOW : Z := 75.

(** [fseek(file, offset, SEEK_CUR)], [offset] being a [long]: result,
    [errno], the stream.  A position beyond the end is allowed; a
    successful call clears the end-of-file indicator. *)
Definition fseek_cur (f : RStream) (offset : Z) : Z * Z * RStream :=
  let target := r_pos f + offset in
  if target <? 0 then (-1, EINVAL, f)
  else if 2 ^ 63 <=? target then (-1, EOVERFLOW, f)
  else (0, 0, mkRStream (r_bytes f) target false (r_fault f)).

(** [PosixSequentialFile::Read]: status, [*result], the stream. *)
Definition SequentialFile_Read (filename_ : string) (file_ : RStream) (n : Z)
    : Status * list byte * RStream :=
  let '(r, errno, scratch, file_) := fread_unlocked file_ n in
  let result := slice_bytes scratch 0 r in
  let s :=
    if r <? n then
      if feof file_ then OK else IOError_errno filename_ errno
    else OK in
  (s, result, file_).

(** [PosixSequentialFile::Skip]; the [uint64_t n] is passed as a [long]. *)
Definition SequentialFile_Skip (filename_ : string) (file_ : RStream) (n : Z)
    : Status * RStream :=
  let '(r, errno, file_) := fseek_cur file_ (to_off_t n) in
  if negb (r =? 0) then (IOError_errno filename_ errno, file_)
  else (OK, file_).

(** One [Read] after the other, for the given sizes. *)
Fixpoint Read_each (filename_ : string) (file_ : RStream) (sizes : list Z)
    : list (Status * list byte) * RStream :=
  match sizes with
  | [] => ([], file_)
  | n :: rest =>
      let '(s, result, file_) := SequentialFile_Read filename_ file_ n in
      let '(results, file_) := Read_each filename_ file_ rest in
      ((s, result) :: results, file_)
  end.

(** *** [PosixWritableFile::Sync] *)

(** [filename_.c_str()] as C reads it: up to the first NUL. *)
Fixpoint c_str (s : string) : string :=
  match s with
  | EmptyString => EmptyString
  | String c rest =>
      if Ascii.eqb c Ascii.zero then EmptyString else String c (c_str rest)
  end.

(** [strrchr(f, c)], the last [c] of [f]: what is before it and what is
    after it ([std::string(f, sep - f)] and [sep + 1]), or [None] for
    [NULL]. *)
Fixpoint strrchr (f : string) (c : Ascii.ascii) : option (string * string) :=
  match f with
  | EmptyString => None
  | String a rest =>
      match strrchr rest c with
      | Some (before, after) => Some (String a before, after)
      | None => if Ascii.eqb a c then Some (EmptyString, rest) else None
      end
  end.

(** The character ['/']. *)
Definition slash : Ascii.ascii := Ascii.ascii_of_nat 47.

(** The directory and the base name [SyncDirIfManifest] computes. *)
Definition split_filename (filename_ : string) : string * string :=
  let f := c_str filename_ in
  match strrchr f slash with
  | None => ("."%string, f)
  | Some (before, after) => (before, after)
  end.

(** [Slice::starts_with]. *)
Definition starts_with (s x : string) : bool := String.prefix x s.

Inductive Syscall : Type :=
  | Sys_open (path : string)
  | Sys_fsync (fd : Z)
  | Sys_close (fd : Z)
  | Sys_fflush
  | Sys_fdatasync.

(** What the system answers to the calls of [Sync]: each a result with its
    [errno]. *)
Record SyncAnswers : Type := mkSyncAnswers {
  a_open : string -> Z * Z;
  a_fsync : Z -> Z * Z;
  a_fflush : Z * Z;
  a_fdatasync : Z * Z
}.

(** [SyncDirIfManifest]: the status and the calls made, in order. *)
Definition SyncDirIfManifest (a : SyncAnswers) (filename_ : string)
    : Status * list Syscall :=
  let '(dir, basename) := split_filename filename_ in
  if starts_with basename "MANIFEST" then
    let '(fd, errno) := a_open a dir in
    if fd <? 0 then (IOError_errno dir errno, [Sys_open dir])
    else
      let '(r, errno) := a_fsync a fd in
      let s := if r <? 0 then IOError_errno dir errno else OK in
      (s, [Sys_open dir; Sys_fsync fd; Sys_close fd])
  else (OK, []).

(** [PosixWritableFile::Sync]; [fdatasync] is not called when
    [fflush_unlocked] fails. *)
Definition Sync (a : SyncAnswers) (filename_ : string)
    : Status * list Syscall :=
  let '(s, calls) := SyncDirIfManifest a filename_ in
  if negb (ok s) then (s, calls)
  else
    let '(r1, errno1) := a_fflush a in
    if negb (r1 =? 0) then
      (IOError filename_ (strerror errno1), calls ++ [Sys_fflush])
    else
      let '(r2, errno2) := a_fdatasync a in
      if negb (r2 =? 0) then
        (IOError filename_ (strerror errno2),
         calls ++ [Sys_fflush; Sys_fdatasync])
      else (s, calls ++ [Sys_fflush; Sys_fdatasync]).

(** The descriptors opened and not closed by a run of calls, the answers
    telling which [open] gave a descriptor. *)
Fixpoint open_descriptors (a : SyncAnswers) (calls : list Syscall)
    (held : list Z) : list Z :=
  match calls with
  | [] => held
  | Sys_open path :: rest =>
      let fd := fst (a_open a path) in
      open_descriptors a rest (if fd <? 0 then held else fd :: held)
  | Sys_close fd :: rest =>
      open_descriptors a rest (List.remove Z.eq_dec fd held)
  | _ :: rest => open_descriptors a rest held
  end.

End EnvFiles.

Module FileExamples.
Import Posix EnvPosix EnvFiles Examples.

(** A system in which every call of [Sync] succeeds, [open] giving
    descriptor 7. *)
Definition all_well : SyncAnswers :=
  mkSyncAnswers (fun _ => (7, 0)) (fun _ => (0, 0)) (0, 0) (0, 0).

(** A kernel in which another process holds the lock on "LOCK". *)
Definition contended_kernel : Kernel :=
  mkKernel {[ "LOCK" := [] ]} ∅ 3 ∅ {[ "LOCK" ]}.

(** The four-byte file read from its start. *)
Definition small_stream : RStream := mkRStream small_file 0 false None.

(** The lookup key of user key "k" at sequence number 5: length 9, the
    user key, the tag [5 << 8 | 1]. *)
Definition lookup_k : Keys.LookupKey :=
  Keys.mkLookupKey (bytes [9;  107;  1; 5; 0; 0; 0; 0; 0; 0]) 0 1 10.

End FileExamples.

(** * Properties *)

Module ByteFacts.

Lemma byte_to_Z_range (b : byte) : 0 <= byte_to_Z b < 256.
Proof.
  unfold byte_to_Z. pose proof (Byte.to_N_bounded b). lia.
Qed.

Lemma byte_to_of_Z (z : Z) : byte_to_Z (byte_of_Z z) = z mod 256.
Proof.
  unfold byte_to_Z, byte_of_Z.
  pose proof (Z.mod_pos_bound z 256 eq_refl) as Hr.
  destruct (Byte.of_N (Z.to_N (z mod 256))) as [b|] eqn:E.
  - apply Byte.to_of_N in E. rewrite E. lia.
  - apply Byte.of_N_None_iff in E. lia.
Qed.

Lemma zlen_app {A} (l1 l2 : list A) : zlen (l1 ++ l2) = zlen l1 + zlen l2.
Proof. unfold zlen. rewrite length_app. lia. Qed.

Lemma zlen_nonneg {A} (l : list A) : 0 <= zlen l.
Proof. unfold zlen. lia. Qed.

Lemma byte_at_app_r (pre l : list byte) (i : Z) :
  0 <= i -> byte_at (pre ++ l) (zlen pre + i) = byte_at l i.
Proof.
  intros Hi. unfold byte_at, zlen.
  destruct (Z.ltb_spec (Z.of_nat (length pre) + i) 0); [lia|].
  destruct (Z.ltb_spec i 0); [lia|].
  replace (Z.to_nat (Z.of_nat (length pre) + i))
    with (length pre + Z.to_nat i)%nat by lia.
  rewrite nth_error_app2 by lia.
  replace (length pre + Z.to_nat i - length pre)%nat with (Z.to_nat i) by lia.
  reflexivity.
Qed.

Lemma byte_at_cons_0 (b : byte) (l : list byte) : byte_at (b :: l) 0 = byte_to_Z b.
Proof. reflexivity. Qed.

Lemma byte_at_cons_S (b : byte) (l : list byte) (i : Z) :
  0 <= i -> byte_at (b :: l) (i + 1) = byte_at l i.
Proof.
  intros Hi. change (b :: l) with ([b] ++ l).
  replace (i + 1) with (zlen [b] + i) by (unfold zlen; simpl; lia).
  now apply byte_at_app_r.
Qed.

(** Or-ing a byte below a value shifted by eight bits is adding them. *)
Lemma lor_shiftl_8 (a b : Z) :
  0 <= a < 256 -> 0 <= b -> Z.lor a (Z.shiftl b 8) = a + 256 * b.
Proof.
  intros Ha Hb.
  rewrite <- Z.add_nocarry_lor.
  - rewrite Z.shiftl_mul_pow2 by lia. change (2 ^ 8) with 256. lia.
  - apply Z.bits_inj'. intros n Hn.
    rewrite Z.land_spec, Z.bits_0.
    destruct (Z.lt_ge_cases n 8).
    + rewrite (Z.shiftl_spec_low b 8 n) by lia. apply andb_false_r.
    + replace (Z.testbit a n) with false; [reflexivity|].
      symmetry. destruct (Z.eq_dec a 0) as [->|].
      * apply Z.bits_0.
      * apply Z.bits_above_log2; [lia|].
        assert (Z.log2 a < 8); [|lia].
        apply Z.log2_lt_pow2; lia.
Qed.

End ByteFacts.

Module CodingFacts.
Import Coding ByteFacts.

Lemma DecodeFixed_nonneg n data p : 0 <= DecodeFixed n data p.
Proof.
  revert p. induction n as [|n IH]; intros p; simpl; [lia|].
  assert (0 <= byte_at data p).
  { unfold byte_at. destruct (p <? 0); [lia|].
    destruct (nth_error _ _); [apply byte_to_Z_range | lia]. }
  apply Z.lor_nonneg. split; [assumption|].
  apply Z.shiftl_nonneg. apply IH.
Qed.

Lemma byte_at_range data p : 0 <= byte_at data p < 256.
Proof.
  unfold byte_at. destruct (p <? 0); [lia|].
  destruct (nth_error _ _); [apply byte_to_Z_range | lia].
Qed.

Lemma DecodeFixed_arith n data p :
  DecodeFixed (S n) data p = byte_at data p + 256 * DecodeFixed n data (p + 1).
Proof.
  simpl. apply lor_shiftl_8; [apply byte_at_range | apply DecodeFixed_nonneg].
Qed.

Lemma DecodeFixed_bound n data p : 0 <= DecodeFixed n data p < 2 ^ (8 * Z.of_nat n).
Proof.
  revert p. induction n as [|n IH]; intros p.
  - simpl. lia.
  - rewrite DecodeFixed_arith.
    pose proof (byte_at_range data p). specialize (IH (p + 1)).
    replace (8 * Z.of_nat (S n)) with (8 + 8 * Z.of_nat n) by lia.
    rewrite Z.pow_add_r by lia. change (2 ^ 8) with 256. nia.
Qed.

(** Decoding the bytes just encoded gives the value back, cut to [8n] bits. *)
Lemma DecodeFixed_EncodeFixed n (pre post : list byte) (v : Z) :
  0 <= v ->
  DecodeFixed n (pre ++ EncodeFixed n v ++ post) (zlen pre) = v mod 2 ^ (8 * Z.of_nat n).
Proof.
  revert pre v. induction n as [|n IH]; intros pre v Hv.
  - simpl. now rewrite Z.mod_1_r.
  - rewrite DecodeFixed_arith. cbn [EncodeFixed].
    replace (zlen pre) with (zlen pre + 0) at 1 by lia.
    rewrite byte_at_app_r by lia. cbn [app]. rewrite byte_at_cons_0.
    rewrite byte_to_of_Z.
    replace (pre ++ byte_of_Z (Z.land v 255) :: EncodeFixed n (Z.shiftr v 8) ++ post)
      with ((pre ++ [byte_of_Z (Z.land v 255)]) ++ EncodeFixed n (Z.shiftr v 8) ++ post)
      by (now rewrite <- app_assoc).
    replace (zlen pre + 1) with (zlen (pre ++ [byte_of_Z (Z.land v 255)]))
      by (rewrite zlen_app; reflexivity).
    rewrite IH by (apply Z.shiftr_nonneg; lia).
    change 255 with (Z.ones 8). rewrite Z.land_ones by lia.
    rewrite Z.shiftr_div_pow2 by lia. change (2 ^ 8) with 256.
    rewrite Z.mod_mod by lia.
    replace (8 * Z.of_nat (S n)) with (8 + 8 * Z.of_nat n) by lia.
    rewrite Z.pow_add_r by lia. change (2 ^ 8) with 256.
    rewrite (Z.rem_mul_r v 256 (2 ^ (8 * Z.of_nat n))) by lia.
    reflexivity.
Qed.

Lemma EncodeFixed_length n v : length (EncodeFixed n v) = n.
Proof. revert v; induction n; intros; simpl; auto. Qed.

End CodingFacts.

Module DBFormatFacts.
Import Coding DBFormat ByteFacts CodingFacts.


Lemma slice_bytes_prefix (l1 l2 : list byte) :
  slice_bytes (l1 ++ l2) 0 (zlen l1) = l1.
Proof.
  unfold slice_bytes. rewrite zlen_app.
  pose proof (zlen_nonneg l1). pose proof (zlen_nonneg l2).
  rewrite (Z.min_l (zlen l1)) by lia. rewrite Z.min_l by lia.
  change (Z.to_nat 0) with 0%nat. rewrite drop_0. unfold zlen. rewrite Nat2Z.id.
  apply take_app_length.
Qed.

Lemma tag_arith (SN : Z) (VT : ValueType) :
  0 <= SN < 2 ^ 56 ->
  Z.lor (Z.shiftl SN 8) (ValueType_code VT) = ValueType_code VT + 256 * SN.
Proof.
  intros H. rewrite Z.lor_comm. apply lor_shiftl_8; [destruct VT; simpl; lia | lia].
Qed.

(** Claim C2.  For every user key [UK], sequence number [SN < 2^56] and value
    type [VT] (one of [kTypeValue], [kTypeDeletion]), parsing the canonical
    encoding [UK || fixed-little-endian-u64(SN<<8 | VT)] (which is what
    [AppendInternalKey] writes) succeeds and returns exactly [(UK, SN, VT)]:
    the user key is the prefix of length [|encoding| - 8], the sequence
    number is the trailing tag shifted right by eight bits, the value type
    its low byte. *)
Theorem parse_canonical_encoding (UK : list byte) (SN : Z) (VT : ValueType) :
  0 <= SN < 2 ^ 56 ->
  canonical_encoding UK SN VT
    = AppendInternalKey [] (mkParsedInternalKey UK SN VT)
  /\ ParseInternalKey (canonical_encoding UK SN VT)
     = Some (mkParsedInternalKey UK SN VT)
  /\ UK = slice_bytes (canonical_encoding UK SN VT) 0
            (zlen (canonical_encoding UK SN VT) - 8)
  /\ SN = Z.shiftr (DecodeFixed64 (canonical_encoding UK SN VT)
                      (zlen (canonical_encoding UK SN VT) - 8)) 8
  /\ ValueType_code VT
     = Z.land (DecodeFixed64 (canonical_encoding UK SN VT)
                 (zlen (canonical_encoding UK SN VT) - 8)) 255.
Proof.
  intros HSN.
  pose proof (tag_arith SN VT HSN) as Htag.
  assert (Hcode : 0 <= ValueType_code VT <= 1) by (destruct VT; simpl; lia).
  assert (Hlen : zlen (canonical_encoding UK SN VT) - 8 = zlen UK).
  { unfold canonical_encoding, EncodeFixed64. rewrite zlen_app.
    unfold zlen at 2. rewrite EncodeFixed_length. lia. }
  assert (Hdec : DecodeFixed64 (canonical_encoding UK SN VT) (zlen UK)
                 = ValueType_code VT + 256 * SN).
  { unfold canonical_encoding, DecodeFixed64, EncodeFixed64.
    rewrite <- (app_nil_r (EncodeFixed 8 _)).
    rewrite DecodeFixed_EncodeFixed by (rewrite Htag; lia).
    rewrite Htag. apply Z.mod_small.
    change (8 * Z.of_nat 8) with 64. lia. }
  assert (Hlow : Z.land (ValueType_code VT + 256 * SN) 255 = ValueType_code VT).
  { change 255 with (Z.ones 8). rewrite Z.land_ones by lia.
    change (2 ^ 8) with 256.
    replace (ValueType_code VT + 256 * SN)
      with (ValueType_code VT + SN * 256) by lia.
    rewrite Z.mod_add by lia. apply Z.mod_small. lia. }
  assert (Hhigh : Z.shiftr (ValueType_code VT + 256 * SN) 8 = SN).
  { rewrite Z.shiftr_div_pow2 by lia. change (2 ^ 8) with 256.
    replace (ValueType_code VT + 256 * SN)
      with (ValueType_code VT + SN * 256) by lia.
    rewrite Z.div_add by lia. rewrite Z.div_small by lia. lia. }
  assert (Huk : slice_bytes (canonical_encoding UK SN VT) 0 (zlen UK) = UK)
    by apply slice_bytes_prefix.
  split; [|split; [|split; [|split]]].
  - unfold canonical_encoding, AppendInternalKey, PackSequenceAndType. simpl.
    unfold wrap64. rewrite (Z.mod_small (Z.shiftl SN 8)); [reflexivity|].
    rewrite Z.shiftl_mul_pow2 by lia. change (2 ^ 8) with 256. lia.
  - unfold ParseInternalKey. cbv zeta.
    destruct (Z.ltb_spec (zlen (canonical_encoding UK SN VT)) 8) as [Hlt|_].
    { pose proof (zlen_nonneg UK). lia. }
    rewrite Hlen, Hdec, Hlow, Hhigh, Huk.
    destruct VT; reflexivity.
  - now rewrite Hlen, Huk.
  - now rewrite Hlen, Hdec, Hhigh.
  - now rewrite Hlen, Hdec, Hlow.
Qed.

Lemma parse_canonical_encoding_witness :
  0 <= 5 < 2 ^ 56
  /\ ParseInternalKey (canonical_encoding (bytes [97]) 5 kTypeValue)
     = Some (mkParsedInternalKey (bytes [97]) 5 kTypeValue).
Proof.
  assert (H : 0 <= 5 < 2 ^ 56) by lia.
  split; [exact H|].
  exact (proj1 (proj2 (parse_canonical_encoding (bytes [97]) 5 kTypeValue H))).
Defined.

End DBFormatFacts.

Module ChainFacts.
Import Coding Block BlockFormat ByteFacts CodingFacts.

Lemma wrap32_small (x : Z) : 0 <= x < 2 ^ 32 -> wrap32 x = x.
Proof. intros H. unfold wrap32. now apply Z.mod_small. Qed.

Lemma wrap32_range (x : Z) : 0 <= wrap32 x < 2 ^ 32.
Proof. unfold wrap32. apply Z.mod_pos_bound. lia. Qed.

(** *** Header decoding *)

Lemma GetVarint32PtrFallback_bounds groups data p limit shift result q v :
  0 <= result ->
  GetVarint32PtrFallback groups data p limit shift result = Some (q, v) ->
  p + 1 <= q <= limit /\ 0 <= v.
Proof.
  revert p shift result.
  induction groups as [|g IH]; intros p shift result Hres H; [discriminate|].
  cbn [GetVarint32PtrFallback] in H.
  destruct (Z.ltb_spec p limit) as [Hlt|]; [|discriminate].
  destruct (Z.land (byte_at data p) 128 =? 0).
  - injection H as <- <-. split; [lia|].
    apply Z.lor_nonneg. split; [assumption | apply wrap32_range].
  - apply IH in H.
    + lia.
    + apply Z.lor_nonneg. split; [assumption | apply wrap32_range].
Qed.

Lemma GetVarint32Ptr_bounds data p limit q v :
  GetVarint32Ptr data p limit = Some (q, v) ->
  p + 1 <= q <= limit /\ 0 <= v.
Proof.
  unfold GetVarint32Ptr.
  destruct (Z.ltb_spec p limit) as [Hlt|]; cbn [andb].
  - destruct (Z.land (byte_at data p) 128 =? 0).
    + intros [= <- <-]. pose proof (byte_at_range data p). lia.
    + apply GetVarint32PtrFallback_bounds. lia.
  - apply GetVarint32PtrFallback_bounds. lia.
Qed.

Lemma DecodeEntry_bounds data p limit q shared non_shared value_length :
  DecodeEntry data p limit = Some (q, shared, non_shared, value_length) ->
  p + 3 <= q <= limit /\ 0 <= shared /\ 0 <= non_shared /\ 0 <= value_length.
Proof.
  unfold DecodeEntry.
  destruct (Z.ltb_spec (limit - p) 3) as [|Hroom]; [discriminate|].
  pose proof (byte_at_range data p).
  pose proof (byte_at_range data (p + 1)).
  pose proof (byte_at_range data (p + 2)).
  destruct (Z.lor (Z.lor (byte_at data p) (byte_at data (p + 1)))
                  (byte_at data (p + 2)) <? 128).
  - destruct (_ <? _); [discriminate|]. intros [= <- <- <- <-]. lia.
  - destruct (GetVarint32Ptr data p limit) as [[p1 v1]|] eqn:E1; [|discriminate].
    destruct (GetVarint32Ptr data p1 limit) as [[p2 v2]|] eqn:E2; [|discriminate].
    destruct (GetVarint32Ptr data p2 limit) as [[p3 v3]|] eqn:E3; [|discriminate].
    apply GetVarint32Ptr_bounds in E1, E2, E3.
    destruct (_ <? _); [discriminate|]. intros [= <- <- <- <-]. lia.
Qed.

(** *** Entries as a chain of decodings *)

Lemma parse_entries_chain fuel data limit off prev es :
  parse_entries fuel data limit off prev = Some es ->
  chain data limit off prev es.
Proof.
  revert off prev es.
  induction fuel as [|fuel IH]; intros off prev es H; [discriminate|].
  cbn [parse_entries] in H.
  destruct (Z.eqb_spec off limit) as [->|Hne].
  { injection H as <-. reflexivity. }
  destruct (Z.ltb_spec limit off); [discriminate|].
  destruct (DecodeEntry data off limit) as [[[[p sh] ns] vl]|] eqn:E;
    [|discriminate].
  destruct (Z.ltb_spec (zlen prev) sh); cbn [orb] in H; [discriminate|].
  destruct (Z.ltb_spec (limit - p) (ns + vl)); [discriminate|].
  destruct (parse_entries fuel data limit (p + ns + vl) _) as [es'|] eqn:E';
    [|discriminate].
  injection H as <-. cbn [chain e_off e_shared e_vlen e_key e_voff].
  split; [lia|]. split; [reflexivity|]. split.
  - exists p, ns. repeat split; try assumption; lia.
  - apply IH. unfold e_next. cbn. exact E'.
Qed.

Lemma chain_head data limit off prev e es :
  chain data limit off prev (e :: es) ->
  e_off e = off /\ 0 <= e_shared e /\ 0 <= e_vlen e
  /\ off + 3 <= e_voff e /\ e_next e <= limit.
Proof.
  intros (Hlt & Hoff & (p & ns & Hd & Hsh & Hfit & Hkey & Hv) & _).
  apply DecodeEntry_bounds in Hd. unfold e_next. lia.
Qed.

Lemma last_key_cons prev e pre : last_key prev (e :: pre) = last_key (e_key e) pre.
Proof.
  unfold last_key. destruct pre as [|x pre]; [reflexivity|].
  rewrite last_cons. destruct (last (x :: pre)) eqn:E; [reflexivity|].
  apply last_None in E. discriminate.
Qed.

Lemma chain_split data limit off prev pre e suf :
  chain data limit off prev (pre ++ e :: suf) ->
  chain data limit (e_off e) (last_key prev pre) (e :: suf)
  /\ off <= e_off e
  /\ Forall (fun x => off <= e_off x /\ e_off x < e_next x
                     /\ e_next x <= e_off e) pre.
Proof.
  revert off prev. induction pre as [|x pre IH]; intros off prev H.
  - cbn [app] in H. pose proof (chain_head _ _ _ _ _ _ H) as (-> & _).
    split; [exact H|]. split; [lia | constructor].
  - cbn [app] in H.
    pose proof (chain_head _ _ _ _ _ _ H) as (Hx & _ & Hvl & Hv & _).
    destruct H as (_ & _ & _ & Hrest).
    apply IH in Hrest as (Hc & Hle & Hall).
    rewrite last_key_cons. split; [exact Hc|].
    split; [unfold e_next in *; lia|].
    constructor.
    + unfold e_next in *. lia.
    + eapply Forall_impl; [exact Hall|]. cbn. intros y Hy. unfold e_next in *. lia.
Qed.

End ChainFacts.

Module IterFacts.
Import Coding Block BlockFormat ByteFacts CodingFacts ChainFacts.

(** *** Well-formed blocks *)

Lemma layout_well_formed data L : layout data = Some L -> well_formed data L.
Proof.
  unfold layout.
  destruct (Z.ltb_spec (zlen data) 4); cbn [orb]; [discriminate|].
  destruct (Z.leb_spec (2 ^ 32) (zlen data)); [discriminate|].
  set (n := DecodeFixed32 data (zlen data - 4)).
  destruct (Z.ltb_spec n 1); cbn [orb]; [discriminate|].
  destruct (Z.ltb_spec ((zlen data - 4) / 4) n); [discriminate|].
  destruct (parse_entries _ data _ 0 []) as [es|] eqn:E; [|discriminate].
  destruct (forallb _ _) eqn:F; [|discriminate].
  intros [= <-].
  constructor; cbn [restart_count restart_array entries]; fold n.
  - lia.
  - reflexivity.
  - lia.
  - reflexivity.
  - eapply parse_entries_chain, E.
  - intros j Hj. rewrite forallb_forall in F. apply F.
    apply in_map_iff. exists (Z.to_nat j). split; [lia|].
    apply in_seq. lia.
Qed.

Section WellFormed.

Context (data : list byte) (L : Layout) (WF : well_formed data L).

Local Abbreviation limit := (restart_array L).
Local Abbreviation n := (restart_count L).
Local Abbreviation es := (entries L).
Local Abbreviation restart := (restart_point data limit).

Lemma limit_range : 0 <= limit < 2 ^ 32 /\ 1 <= n < 2 ^ 30.
Proof.
  destruct WF as [Hs _ Hn Ha _ _].
  assert (4 * ((zlen data - 4) / 4) <= zlen data - 4)
    by (apply Z.mul_div_le; lia).
  lia.
Qed.

(** The entries lie within the buffer. *)
Lemma limit_within : limit <= zlen data.
Proof.
  pose proof limit_range. destruct WF as [_ _ _ Ha _ _]. lia.
Qed.

Lemma restart_first : restart 0 = 0.
Proof.
  pose proof limit_range.
  pose proof (wf_restarts _ _ WF 0 ltac:(lia)) as H0.
  unfold restart_ok in H0. change (0 =? 0) with true in H0. cbv iota in H0.
  now apply Z.eqb_eq in H0.
Qed.

Lemma restart_entry j :
  1 <= j < n ->
  restart (j - 1) < restart j
  /\ exists e, In e es /\ e_off e = restart j /\ e_shared e = 0.
Proof.
  intros Hj. pose proof (wf_restarts _ _ WF j ltac:(lia)) as H.
  unfold restart_ok in H.
  destruct (Z.eqb_spec j 0); [lia|].
  apply andb_prop in H as [Hlt Hex]. split; [lia|].
  apply existsb_exists in Hex as (e & Hin & He).
  apply andb_prop in He as [H1 H2]. exists e. repeat split; [assumption|lia|lia].
Qed.

Lemma restart_mono_nat (k : nat) j :
  0 <= j -> j + Z.of_nat k < n -> restart j <= restart (j + Z.of_nat k)
  /\ ((0 < k)%nat -> restart j < restart (j + Z.of_nat k)).
Proof.
  intros Hj. induction k as [|k IH]; intros Hk.
  - replace (j + Z.of_nat 0) with j by lia. split; [lia|lia].
  - destruct IH as [IH1 _]; [lia|].
    pose proof (restart_entry (j + Z.of_nat (S k)) ltac:(lia)) as [Hlt _].
    replace (j + Z.of_nat (S k) - 1) with (j + Z.of_nat k) in Hlt by lia.
    split; [lia|]. intros _. lia.
Qed.

Lemma restart_mono j j' : 0 <= j < j' -> j' < n -> restart j < restart j'.
Proof.
  intros Hj Hj'.
  pose proof (restart_mono_nat (Z.to_nat (j' - j)) j ltac:(lia)) as H.
  replace (j + Z.of_nat (Z.to_nat (j' - j))) with j' in H by lia.
  apply H; lia.
Qed.

Lemma restart_nonneg j : 0 <= j < n -> 0 <= restart j.
Proof.
  intros Hj. unfold restart_point, DecodeFixed32. apply DecodeFixed_nonneg.
Qed.

(** Entries start at non-negative offsets and stay before the restart
    array; they are listed by ascending offset. *)
Lemma entry_split e :
  In e es ->
  exists pre suf, es = pre ++ e :: suf
    /\ chain data limit (e_off e) (last_key [] pre) (e :: suf)
    /\ 0 <= e_off e
    /\ Forall (fun x => 0 <= e_off x /\ e_off x < e_next x
                       /\ e_next x <= e_off e) pre.
Proof.
  intros Hin. apply in_split in Hin as (pre & suf & Heq).
  exists pre, suf. split; [exact Heq|].
  pose proof (wf_chain _ _ WF) as Hc. rewrite Heq in Hc.
  apply chain_split in Hc. exact Hc.
Qed.

(** An entry stored with [sharedLen = 0] decodes the same after any key. *)
Lemma chain_restart off prev e suf :
  chain data limit off prev (e :: suf) -> e_shared e = 0 ->
  chain data limit off [] (e :: suf).
Proof.
  intros (Hlt & Hoff & (p & ns & Hd & Hsh & Hfit & Hkey & Hv) & Hrest) Hz.
  split; [exact Hlt|]. split; [exact Hoff|]. split; [|exact Hrest].
  exists p, ns. rewrite Hz in *. repeat split; try assumption.
  unfold zlen; simpl; lia.
Qed.

(** *** The iterator over the block *)

Ltac iter_simpl :=
  unfold Iter.set_current, Iter.set_restart_index, Iter.set_position,
         Iter.set_key_value, Iter.set_status;
  cbn [Iter.comparator_ Iter.data_ Iter.restarts_ Iter.num_restarts_
       Iter.current_ Iter.restart_index_ Iter.key_ Iter.value_ Iter.status_
       slice_data slice_size obind].

Section Iterator.

Context (cmp : list byte -> list byte -> Z).

Local Abbreviation iter := (BlockFormat.iter data L cmp).
Local Abbreviation at_entry := (BlockFormat.at_entry data L cmp).

Lemma GetRestartPoint_ok cur ri k v st j :
  j < n ->
  Iter.GetRestartPoint (iter cur ri k v st) j = Done (restart j).
Proof.
  intros Hj. unfold Iter.GetRestartPoint, iter. cbn.
  destruct (Z.ltb_spec j n); [reflexivity | lia].
Qed.

Lemma SeekToRestartPoint_ok cur ri k v st j :
  j < n ->
  Iter.SeekToRestartPoint (iter cur ri k v st) j
  = Done (iter cur j [] (mkSlice (InBlock (restart j)) 0) st).
Proof.
  intros Hj. unfold Iter.SeekToRestartPoint.
  change (Iter.set_restart_index (Iter.set_key_value (iter cur ri k v st) [] _) j)
    with (iter cur j [] v st).
  rewrite GetRestartPoint_ok by assumption. reflexivity.
Qed.

Lemma advance_restart_index_ok fuel cur ri k v st :
  0 <= ri < n -> n - ri <= Z.of_nat fuel ->
  exists ri', Iter.advance_restart_index fuel (iter cur ri k v st)
              = Done (iter cur ri' k v st)
              /\ ri <= ri' < n.
Proof.
  pose proof limit_range as Hr.
  revert ri. induction fuel as [|fuel IH]; intros ri Hri Hfuel; [lia|].
  cbn [Iter.advance_restart_index].
  change (Iter.restart_index_ (iter cur ri k v st)) with ri.
  change (Iter.num_restarts_ (iter cur ri k v st)) with n.
  change (Iter.current_ (iter cur ri k v st)) with cur.
  rewrite (wrap32_small (ri + 1)) by lia.
  destruct (Z.ltb_spec (ri + 1) n) as [Hlt|Hge].
  - rewrite GetRestartPoint_ok by lia. cbn [obind].
    destruct (restart (ri + 1) <? cur).
    + change (Iter.set_restart_index (iter cur ri k v st) (ri + 1))
        with (iter cur (ri + 1) k v st).
      destruct (IH (ri + 1)) as (ri' & -> & Hri'); [lia|lia|].
      exists ri'. split; [reflexivity | lia].
    + exists ri. split; [reflexivity | lia].
  - exists ri. split; [reflexivity | lia].
Qed.

(** [ParseNextKey] with the previous value ending where entry [e] starts. *)
Lemma ParseNextKey_entry prev e suf cur ri k o s st :
  chain data limit (e_off e) prev (e :: suf) ->
  0 <= e_off e -> o + s = e_off e ->
  e_shared e <= zlen k ->
  firstn (Z.to_nat (e_shared e)) k = firstn (Z.to_nat (e_shared e)) prev ->
  0 <= ri < n ->
  exists ri',
    Iter.ParseNextKey (iter cur ri k (mkSlice (InBlock o) s) st)
    = Done (true, at_entry ri' e st)
    /\ ri <= ri' < n.
Proof.
  intros (Hlt & _ & (p & ns & Hd & Hsh & Hfit & Hkey & Hv) & _) H0 Hos Hk Htake Hri.
  pose proof limit_range as Hr.
  unfold Iter.ParseNextKey, Iter.NextEntryOffset.
  cbn [Iter.value_ iter slice_data slice_size obind].
  rewrite Hos, wrap32_small by lia.
  change (Iter.set_current (iter cur ri k (mkSlice (InBlock o) s) st) (e_off e))
    with (iter (e_off e) ri k (mkSlice (InBlock o) s) st).
  cbn [Iter.current_ Iter.restarts_ Iter.data_ Iter.key_ iter].
  destruct (Z.leb_spec limit (e_off e)); [lia|].
  rewrite Hd.
  destruct (Z.ltb_spec (zlen k) (e_shared e)); [lia|].
  pose proof (DecodeEntry_bounds _ _ _ _ _ _ _ Hd) as Hb.
  pose proof limit_within as Hw.
  destruct (Z.leb_spec (p + ns) (zlen data)); [|lia]. cbn [assert obind].
  unfold BlockFormat.iter, BlockFormat.at_entry. iter_simpl.
  rewrite Htake, <- Hkey, <- Hv.
  destruct (advance_restart_index_ok (S (Z.to_nat n)) (e_off e) ri (e_key e)
              (mkSlice (InBlock (e_voff e)) (e_vlen e)) st Hri ltac:(lia))
    as (ri' & Hadv & Hri').
  unfold BlockFormat.iter in Hadv. rewrite Hadv.
  exists ri'. split; [reflexivity | exact Hri'].
Qed.

(** [ParseNextKey] with the previous value ending at the restart array. *)
Lemma ParseNextKey_end cur ri k o s st :
  o + s = limit ->
  Iter.ParseNextKey (iter cur ri k (mkSlice (InBlock o) s) st)
  = Done (false, iter limit n k (mkSlice (InBlock o) s) st).
Proof.
  intros Hos. pose proof limit_range as Hr.
  unfold Iter.ParseNextKey, Iter.NextEntryOffset.
  cbn [Iter.value_ iter slice_data slice_size obind].
  rewrite Hos, wrap32_small by lia.
  cbn [Iter.set_current Iter.set_position Iter.current_ Iter.restarts_ iter
       Iter.comparator_ Iter.data_ Iter.num_restarts_ Iter.restart_index_
       Iter.key_ Iter.value_ Iter.status_].
  destruct (Z.leb_spec limit limit); [reflexivity | lia].
Qed.

End Iterator.
End WellFormed.
End IterFacts.

Module ScanFacts.
Import Coding Block BlockFormat ByteFacts CodingFacts ChainFacts IterFacts.

Lemma chain_key_ready data limit off prev e suf :
  chain data limit off prev (e :: suf) -> key_ready prev prev e.
Proof.
  intros (_ & _ & (p & ns & _ & Hsh & _) & _). split; [exact Hsh | reflexivity].
Qed.

Lemma chain_lower data limit off prev es' :
  chain data limit off prev es' ->
  Forall (fun x => off <= e_off x) es'
  /\ off + 3 * Z.of_nat (length es') <= limit.
Proof.
  revert off prev. induction es' as [|x es' IH]; intros off prev H.
  - cbn in H. subst. split; [constructor | cbn; lia].
  - pose proof (chain_head _ _ _ _ _ _ H) as (Hx & _ & Hvl & Hv & _).
    destruct H as (_ & _ & _ & Hrest). apply IH in Hrest as [Hall Hlen].
    unfold e_next in *. split.
    + constructor; [lia|]. eapply Forall_impl; [exact Hall|]. cbn. intros; lia.
    + cbn [length]. lia.
Qed.


Section WellFormed.

Context (data : list byte) (L : Layout) (WF : well_formed data L).

Local Abbreviation limit := (restart_array L).
Local Abbreviation n := (restart_count L).
Local Abbreviation es := (entries L).
Local Abbreviation restart := (restart_point data limit).

Lemma entries_fit : Z.of_nat (length es) <= limit.
Proof.
  pose proof (chain_lower _ _ _ _ _ (wf_chain _ _ WF)) as [_ H]. lia.
Qed.

(** The entries from restart point [j] on. *)
Lemma restart_suffix j :
  0 <= j < n -> es <> [] ->
  exists pre e tail,
    es = pre ++ e :: tail
    /\ e_off e = restart j
    /\ chain data limit (restart j) (last_key [] pre) (e :: tail)
    /\ key_ready [] (last_key [] pre) e
    /\ Forall (fun x => e_next x <= e_off e) pre.
Proof.
  intros Hj Hne. destruct (Z.eq_dec j 0) as [->|Hj0].
  - destruct es as [|e tail] eqn:E; [contradiction|].
    pose proof (wf_chain _ _ WF) as Hc. rewrite E in Hc.
    pose proof (chain_head _ _ _ _ _ _ Hc) as (Hoff & _).
    exists [], e, tail. rewrite (restart_first _ _ WF).
    split; [reflexivity|]. split; [exact Hoff|]. split; [exact Hc|].
    split; [|constructor].
    eapply chain_key_ready. exact Hc.
  - destruct (restart_entry _ _ WF j ltac:(lia)) as (_ & e & Hin & Hoff & Hsh).
    destruct (entry_split _ _ WF e Hin) as (pre & tail & Heq & Hc & _ & Hall).
    exists pre, e, tail. rewrite <- Hoff.
    split; [exact Heq|]. split; [reflexivity|]. split; [exact Hc|]. split.
    + split; rewrite Hsh; [unfold zlen; cbn; lia | reflexivity].
    + eapply Forall_impl; [exact Hall|]. cbn. intros; lia.
Qed.

Section Iterator.

Context (cmp : list byte -> list byte -> Z).

Local Abbreviation iter := (iter data L cmp).
Local Abbreviation at_entry := (at_entry data L cmp).

Lemma Valid_at_entry ri e st :
  e_off e < limit -> Iter.Valid (at_entry ri e st) = true.
Proof.
  intros H. unfold Iter.Valid. cbn. destruct (Z.ltb_spec (e_off e) limit); [reflexivity|lia].
Qed.

Lemma Valid_at_end ri k v st : Iter.Valid (iter limit ri k v st) = false.
Proof. unfold Iter.Valid. cbn. apply Z.ltb_irrefl. Qed.

Lemma iter_view_at_entry ri e st :
  e_off e < limit ->
  iter_view (at_entry ri e st) = Done (entry_view data e).
Proof.
  intros H. unfold iter_view, Iter.key, Iter.value.
  rewrite Valid_at_entry by assumption. reflexivity.
Qed.

Lemma NextEntryOffset_at_entry ri e st :
  0 <= e_next e < 2 ^ 32 ->
  Iter.NextEntryOffset (at_entry ri e st) = Done (e_next e).
Proof.
  intros H. unfold Iter.NextEntryOffset. cbn.
  fold (e_next e). now rewrite wrap32_small.
Qed.

(** [Next] on an entry that has a successor. *)
Lemma Next_entry prev e e' suf ri st :
  chain data limit (e_off e) prev (e :: e' :: suf) ->
  0 <= e_off e -> 0 <= ri < n ->
  exists ri', Iter.Next (at_entry ri e st) = Done (at_entry ri' e' st)
              /\ ri <= ri' < n.
Proof.
  intros Hc H0 Hri.
  pose proof (chain_head _ _ _ _ _ _ Hc) as (_ & _ & Hvl & Hv & _).
  destruct Hc as (Hlt & _ & _ & Hrest).
  pose proof (chain_head _ _ _ _ _ _ Hrest) as (Hoff' & _).
  unfold Iter.Next. rewrite Valid_at_entry by assumption. cbn [assert obind].
  rewrite <- Hoff' in Hrest.
  destruct (ParseNextKey_entry data L WF cmp (e_key e) e' suf (e_off e) ri
              (e_key e) (e_voff e) (e_vlen e) st Hrest
              ltac:(unfold e_next in *; lia) ltac:(unfold e_next in *; lia)
              (proj1 (chain_key_ready _ _ _ _ _ _ Hrest)) eq_refl Hri)
    as (ri' & Hp & Hri').
  unfold BlockFormat.at_entry at 1. rewrite Hp. cbn [obind].
  exists ri'. split; [reflexivity | exact Hri'].
Qed.




Lemma SeekToFirst_empty cur ri k v st :
  es = [] ->
  Iter.SeekToFirst (iter cur ri k v st)
  = Done (iter limit n [] (mkSlice (InBlock 0) 0) st).
Proof.
  intros Heq. pose proof (limit_range _ _ WF) as Hr.
  pose proof (wf_chain _ _ WF) as Hc. rewrite Heq in Hc. cbn in Hc.
  unfold Iter.SeekToFirst.
  rewrite (SeekToRestartPoint_ok data L) by lia. cbn [obind].
  rewrite (restart_first _ _ WF).
  rewrite (ParseNextKey_end data L WF) by lia. reflexivity.
Qed.

(** *** Moving backwards *)

Lemma Prev_find_restart_first fuel : forall ri cur k v st,
  0 <= ri < n -> ri < Z.of_nat fuel ->
  Iter.Prev_find_restart fuel (iter cur ri k v st) 0
  = Done (inl (iter limit n k v st)).
Proof.
  pose proof (limit_range _ _ WF) as Hr.
  induction fuel as [|fuel IH]; intros ri cur k v st Hri Hfuel; [lia|].
  cbn [Iter.Prev_find_restart].
  change (Iter.restart_index_ (iter cur ri k v st)) with ri.
  change (Iter.set_position (iter cur ri k v st) _ _)
    with (iter limit n k v st).
  rewrite (GetRestartPoint_ok data L) by lia. cbn [obind].
  pose proof (restart_nonneg data L ri Hri).
  destruct (Z.leb_spec 0 (restart ri)); [|lia].
  destruct (Z.eqb_spec ri 0) as [->|Hne]; [reflexivity|].
  rewrite wrap32_small by lia.
  change (Iter.set_restart_index (iter cur ri k v st) (ri - 1))
    with (iter cur (ri - 1) k v st).
  apply IH; lia.
Qed.

Lemma Prev_find_restart_entry fuel : forall ri cur k v st original,
  0 < original -> 0 <= ri < n -> ri < Z.of_nat fuel ->
  exists j,
    Iter.Prev_find_restart fuel (iter cur ri k v st) original
    = Done (inr (iter cur j k v st))
    /\ 0 <= j <= ri /\ restart j < original.
Proof.
  pose proof (limit_range _ _ WF) as Hr.
  induction fuel as [|fuel IH]; intros ri cur k v st original Ho Hri Hfuel; [lia|].
  cbn [Iter.Prev_find_restart].
  change (Iter.restart_index_ (iter cur ri k v st)) with ri.
  change (Iter.set_position (iter cur ri k v st) _ _)
    with (iter limit n k v st).
  rewrite (GetRestartPoint_ok data L) by lia. cbn [obind].
  destruct (Z.leb_spec original (restart ri)) as [Hle|Hgt].
  - destruct (Z.eqb_spec ri 0) as [->|Hne].
    { rewrite (restart_first _ _ WF) in Hle. lia. }
    rewrite wrap32_small by lia.
    change (Iter.set_restart_index (iter cur ri k v st) (ri - 1))
      with (iter cur (ri - 1) k v st).
    destruct (IH (ri - 1) cur k v st original Ho ltac:(lia) ltac:(lia))
      as (j & -> & Hj & Hlt).
    exists j. split; [reflexivity | lia].
  - exists ri. split; [reflexivity | lia].
Qed.

(** The scan of [Prev] and [SeekToLast]: parsing entries [seg] and then
    [e1], whose end is the bound. *)
Lemma scan_while_before_ok e1 rest seg : forall fuel off prev cur ri k o s st,
  chain data limit off prev (seg ++ e1 :: rest) ->
  0 <= off -> o + s = off ->
  key_ready k prev (hd e1 seg) ->
  0 <= ri < n -> (length seg < fuel)%nat ->
  exists ri',
    Iter.scan_while_before fuel (iter cur ri k (mkSlice (InBlock o) s) st)
      (e_next e1)
    = Done (at_entry ri' e1 st)
    /\ ri <= ri' < n.
Proof.
  pose proof (limit_range _ _ WF) as Hr.
  induction seg as [|x seg IH];
    intros fuel off prev cur ri k o s st Hc H0 Hos [Hk1 Hk2] Hri Hfuel;
    (destruct fuel as [|fuel]; [cbn in Hfuel; lia|]);
    cbn [app hd] in *; cbn [Iter.scan_while_before].
  - pose proof (chain_head _ _ _ _ _ _ Hc) as (Hoff & _ & Hvl & Hv & Hn).
    rewrite <- Hoff in Hc, Hos, H0.
    destruct (ParseNextKey_entry data L WF cmp prev e1 rest cur ri k o s st
                Hc H0 Hos Hk1 Hk2 Hri) as (ri' & -> & Hri').
    cbn [obind]. rewrite NextEntryOffset_at_entry
      by (unfold e_next in *; lia).
    cbn [obind]. rewrite Z.ltb_irrefl.
    exists ri'. split; [reflexivity | exact Hri'].
  - pose proof (chain_head _ _ _ _ _ _ Hc) as (Hoff & _ & Hvl & Hv & Hn).
    pose proof (chain_split _ _ _ _ (x :: seg) e1 rest Hc) as (Hc1 & _ & Hall).
    pose proof (chain_head _ _ _ _ _ _ Hc1) as (_ & _ & Hvl1 & Hv1 & Hn1).
    apply Forall_cons in Hall as [(_ & _ & Hx) _].
    rewrite <- Hoff in Hc, Hos, H0.
    destruct (ParseNextKey_entry data L WF cmp prev x (seg ++ e1 :: rest)
                cur ri k o s st Hc H0 Hos Hk1 Hk2 Hri) as (ri' & -> & Hri').
    cbn [obind]. rewrite NextEntryOffset_at_entry
      by (unfold e_next in *; lia).
    cbn [obind].
    destruct (Z.ltb_spec (e_next x) (e_next e1)); [|unfold e_next in *; lia].
    destruct Hc as (_ & _ & _ & Hrest).
    assert (Hready : key_ready (e_key x) (e_key x) (hd e1 seg)).
    { destruct seg as [|y seg]; cbn [hd app] in *;
        eapply chain_key_ready; exact Hrest. }
    destruct (IH fuel (e_next x) (e_key x) (e_off x) ri' (e_key x)
                (e_voff x) (e_vlen x) st Hrest
                ltac:(unfold e_next in *; lia) eq_refl Hready
                ltac:(lia) ltac:(cbn in Hfuel; lia)) as (ri'' & Hs & Hri'').
    unfold BlockFormat.at_entry at 1. rewrite Hs.
    exists ri''. split; [reflexivity | lia].
Qed.

(** The run of entries from restart point [j] up to a given entry [e1]. *)
Lemma restart_run j pre e1 rest :
  es = pre ++ e1 :: rest -> 0 <= j < n -> restart j <= e_off e1 ->
  exists pre' seg,
    pre = pre' ++ seg
    /\ chain data limit (restart j) (last_key [] pre') (seg ++ e1 :: rest)
    /\ key_ready [] (last_key [] pre') (hd e1 seg).
Proof.
  intros Heq Hj Hle.
  assert (Hne : es <> []) by (rewrite Heq; destruct pre; discriminate).
  destruct (restart_suffix j Hj Hne)
    as (pre' & e & tail & Heq' & Hoff & Hc & Hk & Hall).
  rewrite Heq in Heq'. symmetry in Heq'.
  apply app_eq_app in Heq' as (l & [[-> Hl]|[-> Hl]]).
  - (* the restart entry is not after [e1] *)
    destruct l as [|x l].
    + cbn [app] in Hl. injection Hl as <- <-.
      exists pre, []. rewrite !app_nil_r in *. cbn [app hd]. auto.
    + cbn [app] in Hl. injection Hl as <- ->.
      apply Forall_app in Hall as [_ Hall].
      apply Forall_cons in Hall as [Hx _].
      pose proof (wf_chain _ _ WF) as Hw. rewrite Heq in Hw.
      apply chain_split in Hw as (Hc1 & _).
      pose proof (chain_head _ _ _ _ _ _ Hc1) as (_ & _ & Hvl & Hv & _).
      unfold e_next in *. lia.
  - exists pre', l. split; [reflexivity|]. rewrite <- Hl. split; [exact Hc|].
    destruct l as [|x l]; cbn [app hd] in *; injection Hl as <-; exact Hk.
Qed.

End Iterator.
End WellFormed.
End ScanFacts.

Module PrevFacts.
Import Coding Block BlockFormat ByteFacts CodingFacts ChainFacts IterFacts ScanFacts.

Lemma hd_app_last {A} (d x : A) (seg : list A) : hd d (seg ++ [x]) = hd x seg.
Proof. destruct seg; reflexivity. Qed.


Section WellFormed.

Context (data : list byte) (L : Layout) (WF : well_formed data L).

Local Abbreviation limit := (restart_array L).
Local Abbreviation n := (restart_count L).
Local Abbreviation es := (entries L).
Local Abbreviation restart := (restart_point data limit).

Lemma open_block_ok cmp :
  open_block data cmp
  = Done (BlockIterator (iter data L cmp limit n [] empty_Slice OK)).
Proof.
  destruct WF as [Hs Hc Hn Ha _ _].
  pose proof (limit_range _ _ WF) as Hr.
  unfold open_block, new_Block. cbn [contents_data heap_allocated size_ data_ owned_].
  destruct (Z.ltb_spec (zlen data) 4); [lia|].
  unfold NumRestarts. cbn [size_ data_].
  destruct (Z.leb_spec 4 (zlen data)); [|lia]. cbn [assert obind].
  rewrite <- Hc.
  destruct (Z.ltb_spec ((zlen data - 4) / 4) n); [lia|]. cbn [obind].
  unfold NewIterator. cbn [size_ data_ restart_offset_].
  destruct (Z.ltb_spec (zlen data) 4); [lia|].
  unfold NumRestarts. cbn [size_ data_].
  destruct (Z.leb_spec 4 (zlen data)); [|lia]. cbn [assert obind].
  rewrite <- Hc.
  destruct (Z.eqb_spec n 0) as [|Hn0]; [lia|].
  rewrite (wrap32_small (1 + n)) by lia.
  rewrite <- Ha. rewrite wrap32_small by lia.
  unfold Iter.new_Iter. destruct (Z.ltb_spec 0 n) as [|Hn1]; [|lia]. reflexivity.
Qed.


Section Iterator.

Context (cmp : list byte -> list byte -> Z).

Local Abbreviation iter := (iter data L cmp).
Local Abbreviation at_entry := (at_entry data L cmp).

(** [Prev] from an entry that has a predecessor lands on the predecessor. *)
Lemma Prev_entry pre e1 e2 suf ri st :
  es = pre ++ e1 :: e2 :: suf -> 0 <= ri < n ->
  exists ri', Iter.Prev (at_entry ri e2 st) = Done (at_entry ri' e1 st)
              /\ 0 <= ri' < n.
Proof.
  intros Heq Hri. pose proof (limit_range _ _ WF) as Hr.
  pose proof (wf_chain _ _ WF) as Hw. rewrite Heq in Hw.
  pose proof (chain_split _ _ _ _ _ _ _ Hw) as (Hc1 & H01 & _).
  pose proof (chain_head _ _ _ _ _ _ Hc1) as (_ & _ & Hvl1 & Hv1 & _).
  assert (Hc2 : chain data limit (e_next e1) (e_key e1) (e2 :: suf)) by apply Hc1.
  pose proof (chain_head _ _ _ _ _ _ Hc2) as (Hoff2 & _).
  assert (Hlt2 : e_off e2 < limit) by (rewrite Hoff2; apply Hc2).
  unfold Iter.Prev. rewrite (Valid_at_entry data L) by assumption.
  cbn [assert obind].
  change (Iter.current_ (at_entry ri e2 st)) with (e_off e2).
  change (Iter.restart_index_ (at_entry ri e2 st)) with ri.
  destruct (Prev_find_restart_entry data L WF cmp (S (Z.to_nat ri)) ri
              (e_off e2) (e_key e2) (mkSlice (InBlock (e_voff e2)) (e_vlen e2))
              st (e_off e2) ltac:(unfold e_next in *; lia) Hri ltac:(lia))
    as (j & Hfind & Hj & Hjlt).
  unfold BlockFormat.at_entry at 1. rewrite Hfind. cbn [obind].
  change (Iter.restart_index_ (iter _ j _ _ _)) with j.
  rewrite (SeekToRestartPoint_ok data L) by lia. cbn [obind].
  change (Iter.restarts_ (iter _ _ _ _ _)) with limit.
  assert (Heq2 : es = (pre ++ [e1]) ++ e2 :: suf)
    by (rewrite Heq, <- app_assoc; reflexivity).
  destruct (restart_run data L WF j _ _ _ Heq2 ltac:(lia) ltac:(lia))
    as (pre' & seg' & Hsplit & Hc & Hk).
  destruct (exists_last (l := seg')) as (seg & x & ->).
  { intros ->. cbn [app] in Hc.
    pose proof (chain_head _ _ _ _ _ _ Hc) as (Ho & _). lia. }
  rewrite app_assoc in Hsplit. apply app_inj_tail in Hsplit as [-> <-].
  rewrite <- app_assoc in Hc. cbn [app] in Hc.
  rewrite hd_app_last in Hk.
  pose proof (entries_fit _ _ WF) as Hfit.
  assert (Hlen : (length seg < S (Z.to_nat limit))%nat).
  { rewrite Heq in Hfit. rewrite !length_app in Hfit. cbn [length] in Hfit.
    lia. }
  destruct (scan_while_before_ok data L WF cmp e1 (e2 :: suf) seg
              (S (Z.to_nat limit)) (restart j) _ (e_off e2) j [] (restart j) 0
              st Hc (restart_nonneg data L j ltac:(lia)) ltac:(lia) Hk
              ltac:(lia) Hlen) as (ri' & Hs & Hri').
  rewrite <- Hoff2 in Hs. rewrite Hs. exists ri'. split; [reflexivity | lia].
Qed.



Lemma SeekToLast_empty cur ri k v st :
  es = [] ->
  Iter.SeekToLast (iter cur ri k v st)
  = Done (iter limit n [] (mkSlice (InBlock 0) 0) st).
Proof.
  intros Heq. pose proof (limit_range _ _ WF) as Hr.
  pose proof (wf_chain _ _ WF) as Hc. rewrite Heq in Hc. cbn in Hc.
  assert (Hn : n = 1).
  { destruct (Z.eq_dec n 1) as [|Hne]; [assumption|].
    destruct (restart_entry data L WF 1 ltac:(lia)) as (_ & e & Hin & _).
    rewrite Heq in Hin. destruct Hin. }
  unfold Iter.SeekToLast.
  change (Iter.num_restarts_ (iter cur ri k v st)) with n.
  rewrite wrap32_small by lia.
  rewrite (SeekToRestartPoint_ok data L) by lia. cbn [obind].
  replace (n - 1) with 0 by lia.
  rewrite (restart_first _ _ WF).
  cbn [Iter.scan_while_before].
  rewrite (ParseNextKey_end data L WF) by lia. reflexivity.
Qed.


End Iterator.
End WellFormed.
End PrevFacts.

Module SeekFacts.
Import Coding Block BlockFormat ByteFacts CodingFacts ChainFacts IterFacts ScanFacts PrevFacts.

Section Ordered.

Context (cmp : list byte -> list byte -> Z).
Context (cmp_trans : forall a b c, cmp a b < 0 -> cmp b c < 0 -> cmp a c < 0).

Lemma ascending_head e l :
  keys_ascending cmp (e :: l) = true ->
  Forall (fun x => cmp (e_key e) (e_key x) < 0) l
  /\ keys_ascending cmp l = true.
Proof.
  revert e. induction l as [|y l IH]; intros e H.
  - split; [constructor | reflexivity].
  - cbn [keys_ascending] in H. apply andb_prop in H as [Hlt Hrest].
    apply Z.ltb_lt in Hlt. split; [|exact Hrest].
    destruct (IH y Hrest) as [Hall _].
    constructor; [exact Hlt|].
    eapply Forall_impl; [exact Hall|]. cbn. intros x Hx.
    eapply cmp_trans; eassumption.
Qed.

Lemma ascending_split pre e suf :
  keys_ascending cmp (pre ++ e :: suf) = true ->
  Forall (fun x => cmp (e_key x) (e_key e) < 0) pre
  /\ Forall (fun x => cmp (e_key e) (e_key x) < 0) suf.
Proof.
  induction pre as [|y pre IH]; intros H.
  - cbn [app] in H. apply ascending_head in H as [H _].
    split; [constructor | exact H].
  - cbn [app] in H. apply ascending_head in H as [Hy Hrest].
    destruct (IH Hrest) as [Hpre Hsuf]. split; [|exact Hsuf].
    constructor; [|exact Hpre].
    apply Forall_app in Hy as [_ Hy]. apply Forall_cons in Hy as [Hy _].
    exact Hy.
Qed.

Section WellFormed.

Context (data : list byte) (L : Layout) (WF : well_formed data L).
Context (sorted : keys_ascending cmp (entries L) = true).

Local Abbreviation limit := (restart_array L).
Local Abbreviation n := (restart_count L).
Local Abbreviation es := (entries L).
Local Abbreviation restart := (restart_point data limit).
Local Abbreviation iter := (iter data L cmp).
Local Abbreviation at_entry := (at_entry data L cmp).
Local Abbreviation below := (fun target (y : Entry) => cmp (e_key y) target < 0).

(** Looking an entry up by its offset finds that entry. *)
Lemma find_entry pre e suf :
  es = pre ++ e :: suf ->
  List.find (fun x => e_off x =? e_off e) es = Some e.
Proof.
  intros Heq. pose proof (wf_chain _ _ WF) as Hw. rewrite Heq in Hw.
  apply chain_split in Hw as (_ & _ & Hall). rewrite Heq.
  clear Heq. induction pre as [|x pre IH].
  - cbn. now rewrite Z.eqb_refl.
  - apply Forall_cons in Hall as [Hx Hall]. cbn [app List.find].
    destruct (Z.eqb_spec (e_off x) (e_off e)); [lia|]. now apply IH.
Qed.

Lemma restart_key_entry j pre e suf :
  es = pre ++ e :: suf -> e_off e = restart j -> restart_key data L j = e_key e.
Proof.
  intros Heq Hoff. unfold restart_key. rewrite <- Hoff.
  now rewrite (find_entry _ _ _ Heq).
Qed.

(** The keys at the restart points ascend with the restart index. *)
Lemma restart_key_mono j j' :
  0 <= j < j' -> j' < n ->
  cmp (restart_key data L j) (restart_key data L j') < 0.
Proof.
  intros Hj Hj'.
  destruct (restart_entry _ _ WF j' ltac:(lia)) as (_ & e' & Hin' & _).
  assert (Hne : es <> []) by (intros E; rewrite E in Hin'; destruct Hin').
  destruct (restart_suffix data L WF j ltac:(lia) Hne)
    as (a & e & b & Heq & Hoff & Hc & _ & _).
  destruct (restart_suffix data L WF j' ltac:(lia) Hne)
    as (a' & e2 & b' & Heq' & Hoff' & Hc' & _ & Hall').
  rewrite (restart_key_entry _ _ _ _ Heq Hoff).
  rewrite (restart_key_entry _ _ _ _ Heq' Hoff').
  pose proof (restart_mono _ _ WF j j' Hj Hj') as Hlt.
  assert (Hin : In e a').
  { pose proof Heq as Heq0. rewrite Heq' in Heq0. symmetry in Heq0.
    apply app_eq_app in Heq0 as (l & [[-> Hl]|[-> Hl]]).
    - exfalso. destruct l as [|x l]; cbn [app] in Hl.
      + injection Hl as <- <-. lia.
      + injection Hl as <- ->.
        pose proof (wf_chain _ _ WF) as Hw. rewrite Heq in Hw.
        rewrite <- app_assoc in Hw. cbn [app] in Hw.
        replace (a' ++ e2 :: l ++ e :: b) with ((a' ++ e2 :: l) ++ e :: b) in Hw
          by (rewrite <- app_assoc; reflexivity).
        apply chain_split in Hw as (_ & _ & Hall2).
        apply Forall_app in Hall2 as [_ Hall2].
        apply Forall_cons in Hall2 as [Hx _]. lia.
    - destruct l as [|x l]; cbn [app] in Hl.
      + injection Hl as <- <-. lia.
      + injection Hl as <- ->. apply in_or_app. right. now left. }
  pose proof sorted as Hs. rewrite Heq' in Hs.
  apply ascending_split in Hs as [Hpre _].
  rewrite Forall_forall in Hpre. apply Hpre. now apply list_elem_of_In.
Qed.

(** The header at a restart point [j >= 1] decodes with [shared = 0], and
    the key bytes it points at are the restart key, within the buffer. *)
Lemma DecodeEntry_restart j :
  1 <= j < n ->
  exists p ns vl,
    DecodeEntry data (restart j) limit = Some (p, 0, ns, vl)
    /\ slice_bytes data p ns = restart_key data L j
    /\ p + ns <= zlen data.
Proof.
  intros Hj.
  destruct (restart_entry _ _ WF j Hj) as (_ & e & Hin & Hoff & Hsh).
  destruct (entry_split _ _ WF e Hin) as (pre & suf & Heq & Hc & _).
  rewrite (restart_key_entry _ _ _ _ Heq Hoff).
  destruct Hc as (_ & _ & (p & ns & Hd & _ & Hfit & Hkey & _) & _).
  pose proof (DecodeEntry_bounds _ _ _ _ _ _ _ Hd) as Hb.
  pose proof (limit_within _ _ WF) as Hw.
  rewrite Hsh in Hd, Hkey. cbn in Hkey. rewrite Hoff in Hd.
  exists p, ns, (e_vlen e). split; [exact Hd|].
  split; [now rewrite Hkey | lia].
Qed.

(** The binary search of [Seek]. *)
Lemma Seek_restart_ok target cur ri k v st fuel : forall left right,
  0 <= left <= right -> right < n ->
  right - left < Z.of_nat fuel ->
  (left = 0 \/ cmp (restart_key data L left) target < 0) ->
  (forall j, right < j < n -> ~ cmp (restart_key data L j) target < 0) ->
  exists index,
    Iter.Seek_restart fuel (iter cur ri k v st) target left right
    = Done (inr index)
    /\ 0 <= index < n
    /\ (index = 0 \/ cmp (restart_key data L index) target < 0)
    /\ (forall j, index < j < n -> ~ cmp (restart_key data L j) target < 0).
Proof.
  pose proof (limit_range _ _ WF) as Hr.
  induction fuel as [|fuel IH]; intros left right Hlr Hrn Hfuel HA HB; [lia|].
  cbn [Iter.Seek_restart].
  destruct (Z.ltb_spec left right) as [Hlt|Hge].
  - rewrite (wrap32_small (left + right)) by lia.
    rewrite (wrap32_small (left + right + 1)) by lia.
    assert (Hmid : left < (left + right + 1) / 2 <= right).
    { pose proof (Z.div_mod (left + right + 1) 2 ltac:(lia)).
      pose proof (Z.mod_pos_bound (left + right + 1) 2 ltac:(lia)). lia. }
    set (mid := (left + right + 1) / 2) in *.
    rewrite (wrap32_small mid) by lia.
    rewrite (GetRestartPoint_ok data L) by lia. cbn [obind].
    destruct (DecodeEntry_restart mid ltac:(lia))
      as (p & ns & vl & Hd & Hkey & Hin).
    change (Iter.data_ (iter cur ri k v st)) with data.
    change (Iter.restarts_ (iter cur ri k v st)) with limit.
    rewrite Hd. change (negb (0 =? 0)) with false. cbv iota.
    destruct (Z.leb_spec (p + ns) (zlen data)); [|lia]. cbn [assert obind].
    rewrite Hkey. unfold Iter.Compare.
    change (Iter.comparator_ (iter cur ri k v st)) with cmp.
    destruct (Z.ltb_spec (cmp (restart_key data L mid) target) 0) as [Hc|Hc].
    + apply IH; [lia | lia | lia | now right | exact HB].
    + rewrite (wrap32_small (mid - 1)) by lia.
      apply IH; [lia | lia | lia | exact HA |].
      intros j Hj Hlj.
      destruct (Z.eq_dec j mid) as [->|Hne]; [lia|].
      destruct (Z.le_gt_cases j right) as [Hjr|Hjr]; [|apply (HB j); [lia|assumption]].
      assert (cmp (restart_key data L mid) target < 0); [|lia].
      eapply cmp_trans; [|exact Hlj].
      apply restart_key_mono; lia.
  - exists left. split; [reflexivity|]. split; [lia|]. split; [assumption|].
    intros j Hj. apply HB. lia.
Qed.

(** The linear scan of [Seek], when some entry is not below the target. *)
Lemma Seek_scan_found target x b a : forall fuel off prev cur ri k o s st,
  chain data limit off prev (a ++ x :: b) ->
  Forall (below target) a -> 0 <= cmp (e_key x) target ->
  0 <= off -> o + s = off ->
  key_ready k prev (hd x a) ->
  0 <= ri < n -> (length a < fuel)%nat ->
  exists ri',
    Iter.Seek_scan fuel (iter cur ri k (mkSlice (InBlock o) s) st) target
    = Done (at_entry ri' x st).
Proof.
  induction a as [|y a IH];
    intros fuel off prev cur ri k o s st Hc Hall Hx H0 Hos [Hk1 Hk2] Hri Hfuel;
    (destruct fuel as [|fuel]; [cbn in Hfuel; lia|]);
    cbn [app hd] in *; cbn [Iter.Seek_scan].
  - pose proof (chain_head _ _ _ _ _ _ Hc) as (Hoff & _).
    rewrite <- Hoff in Hc, Hos, H0.
    destruct (ParseNextKey_entry data L WF cmp prev x b cur ri k o s st
                Hc H0 Hos Hk1 Hk2 Hri) as (ri' & -> & Hri').
    cbn [obind negb]. unfold Iter.Compare.
    change (Iter.comparator_ (at_entry ri' x st)) with cmp.
    change (Iter.key_ (at_entry ri' x st)) with (e_key x).
    destruct (Z.leb_spec 0 (cmp (e_key x) target)); [|lia].
    exists ri'. reflexivity.
  - pose proof (chain_head _ _ _ _ _ _ Hc) as (Hoff & _ & Hvl & Hv & Hn).
    rewrite <- Hoff in Hc, Hos, H0.
    apply Forall_cons in Hall as [Hy Hall].
    destruct (ParseNextKey_entry data L WF cmp prev y (a ++ x :: b)
                cur ri k o s st Hc H0 Hos Hk1 Hk2 Hri) as (ri' & -> & Hri').
    cbn [obind negb]. unfold Iter.Compare.
    change (Iter.comparator_ (at_entry ri' y st)) with cmp.
    change (Iter.key_ (at_entry ri' y st)) with (e_key y).
    destruct (Z.leb_spec 0 (cmp (e_key y) target)); [lia|].
    destruct Hc as (_ & _ & _ & Hrest).
    assert (Hready : key_ready (e_key y) (e_key y) (hd x a)).
    { destruct a as [|z a]; cbn [hd app] in *;
        eapply chain_key_ready; exact Hrest. }
    unfold BlockFormat.at_entry at 1.
    apply (IH fuel (e_next y) (e_key y)); try assumption;
      try (unfold e_next in *; lia); try reflexivity.
    cbn in Hfuel. lia.
Qed.


End WellFormed.
End Ordered.
End SeekFacts.

Module SeekCorrect.
Import Coding Block BlockFormat ByteFacts CodingFacts ChainFacts IterFacts ScanFacts PrevFacts SeekFacts.




End SeekCorrect.

Module IterationCorrect.
Import Coding Block BlockFormat Examples ByteFacts CodingFacts ChainFacts IterFacts ScanFacts PrevFacts SeekFacts SeekCorrect.

Lemma bytewise_trans (a b c : list byte) :
  bytewise a b < 0 -> bytewise b c < 0 -> bytewise a c < 0.
Proof.
  revert b c. induction a as [|x a IH]; intros [|y b] [|z c]; cbn [bytewise];
    try lia.
  destruct (Z.ltb_spec (byte_to_Z x) (byte_to_Z y));
    destruct (Z.ltb_spec (byte_to_Z y) (byte_to_Z x));
    destruct (Z.ltb_spec (byte_to_Z y) (byte_to_Z z));
    destruct (Z.ltb_spec (byte_to_Z z) (byte_to_Z y));
    destruct (Z.ltb_spec (byte_to_Z x) (byte_to_Z z));
    destruct (Z.ltb_spec (byte_to_Z z) (byte_to_Z x));
    try lia.
  apply IH.
Qed.




End IterationCorrect.

Module BlockProperties.
Import Coding Block BlockFormat Examples ByteFacts CodingFacts ChainFacts IterFacts ScanFacts PrevFacts.


(** Claim C3, at the input where the code departs from it.  The entry header
    declares [non_shared = 1] and [value_length = 0xffffffff] with one byte
    (the key "a") left before the restart array at offset 8;
    [non_shared + value_length] is computed in 32 bits and wraps to 0, so
    [DecodeEntry] accepts the entry although its declared lengths exceed the
    room left, and [ParseNextKey] returns true: the iterator is valid, its
    status [OK], its key "a", and its value a [Slice] of [0xffffffff] bytes
    that starts at the restart array and reaches far beyond the end of the
    block.  With the two lengths exchanged [DecodeEntry] accepts likewise,
    and [ParseNextKey] then copies [0xffffffff] key bytes from a block of 15:
    undefined behaviour. *)
Theorem ParseNextKey_length_sum_wraps :
  DecodeEntry overflow_block 0 8 = Some (7, 0, 1, 4294967295)
  /\ 8 - 7 < 1 + 4294967295
  /\ (do it <- block_iter overflow_block bytewise;
      do it <- Iter.SeekToRestartPoint it 0;
      do '(parsed, it) <- Iter.ParseNextKey it;
      Done (parsed, Iter.Valid it, Iter.status it, Iter.current_ it,
            Iter.restarts_ it, Iter.key_ it, Iter.value_ it))
     = Done (true, true, OK, 0, 8, bytes [97],
             mkSlice (InBlock 8) 4294967295)
  /\ zlen overflow_block < 8 + 4294967295
  /\ DecodeEntry overrun_block 0 7 = Some (7, 0, 4294967295, 1)
  /\ 7 - 7 < 4294967295 + 1
  /\ (do it <- block_iter overrun_block bytewise;
      do it <- Iter.SeekToRestartPoint it 0;
      Iter.ParseNextKey it) = Abort.
Proof.
  split; [vm_compute; reflexivity|]. split; [lia|].
  split; [vm_compute; reflexivity|]. split; [vm_compute; reflexivity|].
  split; [vm_compute; reflexivity|]. split; [lia|]. vm_compute. reflexivity.
Qed.

(** Property X11.
    The failures [ParseNextKey] does detect.  On any block, when the next
    entry starts before the restart array and [DecodeEntry] fails on it, or
    it shares more bytes than the key held has, [ParseNextKey] returns false
    through [CorruptionError]: the status is
    [Corruption("bad entry in block")], the iterator is invalid with its
    cursor on the restart array, key and value are cleared, and [Next] may
    not be called (its assertion fails). *)
Lemma ParseNextKey_corruption (it : Iter.Iter) (off size : Z) :
  Iter.value_ it = mkSlice (InBlock off) size ->
  wrap32 (off + size) < Iter.restarts_ it ->
  (DecodeEntry (Iter.data_ it) (wrap32 (off + size)) (Iter.restarts_ it) = None
   \/ exists p shared non_shared value_length,
        DecodeEntry (Iter.data_ it) (wrap32 (off + size)) (Iter.restarts_ it)
        = Some (p, shared, non_shared, value_length)
        /\ zlen (Iter.key_ it) < shared) ->
  exists it',
    Iter.ParseNextKey it = Done (false, it')
    /\ Iter.status it' = Corruption "bad entry in block"
    /\ Iter.Valid it' = false
    /\ Iter.current_ it' = Iter.restarts_ it
    /\ Iter.key_ it' = [] /\ Iter.value_ it' = empty_Slice
    /\ Iter.Next it' = Abort.
Proof.
  intros Hv Hlt Hbad.
  exists (Iter.CorruptionError (Iter.set_current it (wrap32 (off + size)))).
  split.
  - unfold Iter.ParseNextKey, Iter.NextEntryOffset. rewrite Hv.
    cbn [slice_data slice_size obind].
    destruct it as [c d r nr cur ri k v st]. cbn in *.
    destruct (Z.leb_spec r (wrap32 (off + size))); [lia|].
    destruct Hbad as [->|(p & sh & ns & vl & -> & Hk)]; [reflexivity|].
    destruct (Z.ltb_spec (zlen k) sh); [reflexivity | lia].
  - destruct it as [c d r nr cur ri k v st]. cbn.
    unfold Iter.Next, Iter.Valid. cbn. rewrite Z.ltb_irrefl.
    repeat split; reflexivity.
Qed.

(** Claim C5, at the input where the code departs from it.  On the block
    "apple", "apply", "bat" with restart points at offsets 0 and 15,
    [SeekToFirst] and two [Next] leave the iterator valid on "bat" at offset
    15 with [restart_index_] still 0, although restart point 1 has offset 15:
    the loop of [ParseNextKey] advances only past restart points strictly
    before [current_]. *)
Theorem Next_onto_restart_point :
  (do it <- block_iter fruit_block bytewise;
   do it <- Iter.SeekToFirst it;
   do it <- Iter.Next it;
   do it <- Iter.Next it;
   do r0 <- Iter.GetRestartPoint it (Iter.restart_index_ it);
   do r1 <- Iter.GetRestartPoint it (Iter.restart_index_ it + 1);
   Done (Iter.Valid it, Iter.restart_index_ it, r0, Iter.current_ it, r1))
  = Done (true, 0, 0, 15, 15).
Proof. vm_compute. reflexivity. Qed.

(** What the constructor and [NewIterator] do with a region that holds a
    restart count that fits. *)
Lemma Block_of_region (data : list byte) (heap : bool)
    (cmp : list byte -> list byte -> Z) :
  4 <= zlen data ->
  DecodeFixed32 data (zlen data - 4) <= (zlen data - 4) / 4 ->
  new_Block (mkBlockContents data heap)
  = Done (mkBlock data (zlen data)
            (Some (wrap32 (zlen data
                           - (1 + DecodeFixed32 data (zlen data - 4)) * 4)))
            heap)
  /\ (DecodeFixed32 data (zlen data - 4) <> 0 ->
      NewIterator
        (mkBlock data (zlen data)
           (Some (wrap32 (zlen data
                          - (1 + DecodeFixed32 data (zlen data - 4)) * 4)))
           heap) cmp
      = Done (BlockIterator
                (Iter.mkIter cmp data
                   (wrap32 (zlen data
                            - (1 + DecodeFixed32 data (zlen data - 4)) * 4))
                   (DecodeFixed32 data (zlen data - 4))
                   (wrap32 (zlen data
                            - (1 + DecodeFixed32 data (zlen data - 4)) * 4))
                   (DecodeFixed32 data (zlen data - 4))
                   [] empty_Slice OK))).
Proof.
  set (s := zlen data). set (nr := DecodeFixed32 data (s - 4)).
  intros Hs Hfit.
  assert (Hnr : 0 <= nr) by apply DecodeFixed_nonneg.
  assert (Heq : wrap32 (s - wrap32 (1 + nr) * 4) = wrap32 (s - (1 + nr) * 4)).
  { unfold wrap32.
    rewrite <- (Zminus_mod_idemp_r s (_ * 4)).
    rewrite <- (Zminus_mod_idemp_r s ((1 + nr) * 4)).
    f_equal. f_equal.
    rewrite <- (Zmult_mod_idemp_l ((1 + nr) mod 2 ^ 32)).
    rewrite Z.mod_mod by lia.
    now rewrite Zmult_mod_idemp_l. }
  split.
  - unfold new_Block, NumRestarts.
    cbn [contents_data heap_allocated size_ data_ owned_]. fold s.
    destruct (Z.ltb_spec s 4); [lia|].
    destruct (Z.leb_spec 4 s); [|lia]. cbn [assert obind]. fold nr.
    destruct (Z.ltb_spec ((s - 4) / 4) nr); [lia|].
    now rewrite Heq.
  - intros Hnz. unfold NewIterator, NumRestarts.
    cbn [size_ data_ restart_offset_].
    destruct (Z.ltb_spec s 4); [lia|].
    destruct (Z.leb_spec 4 s); [|lia]. cbn [assert obind]. fold nr.
    destruct (Z.eqb_spec nr 0); [contradiction|].
    unfold Iter.new_Iter. destruct (Z.ltb_spec 0 nr); [|lia].
    reflexivity.
Qed.

(** Claim C7, as the code has it.  Constructing a block from a byte region
    of size [s] gives an empty, corrupt block ([size_ = 0], no restart
    offset) when [s < 4], and when the trailing little-endian u32
    [restartCount] exceeds [(s - 4) / 4]; otherwise it keeps the region and
    its size and sets the restart array offset to the 32-bit value of
    [s - (1 + restartCount) * 4], which is that very number when
    [s < 2^32].  [NewIterator] then returns an error iterator with status
    [Corruption] on a corrupt block, an empty iterator when
    [restartCount = 0], and otherwise the block iterator with the given
    comparator over the region, with that restart array offset and
    [restartCount], not positioned ([current_] on the restart array,
    [restart_index_ = restartCount]), with empty key and value and status
    [OK]. *)
Theorem Block_construction (contents : BlockContents)
    (cmp : list byte -> list byte -> Z) :
  let data := contents_data contents in
  let s := zlen data in
  let restartCount := DecodeFixed32 data (s - 4) in
  let restartArrayStart := wrap32 (s - (1 + restartCount) * 4) in
  exists b,
    new_Block contents = Done b
    /\ (s < 4 ->
          b = mkBlock data 0 None (heap_allocated contents)
          /\ NewIterator b cmp
             = Done (ErrorIterator (Corruption "bad block contents")))
    /\ (4 <= s -> (s - 4) / 4 < restartCount ->
          b = mkBlock data 0 None (heap_allocated contents)
          /\ NewIterator b cmp
             = Done (ErrorIterator (Corruption "bad block contents")))
    /\ (4 <= s -> restartCount <= (s - 4) / 4 ->
          b = mkBlock data s (Some restartArrayStart)
                (heap_allocated contents)
          /\ NumRestarts b = Done restartCount
          /\ (s < 2 ^ 32 -> restartArrayStart = s - (1 + restartCount) * 4)
          /\ (restartCount = 0 -> NewIterator b cmp = Done EmptyIterator)
          /\ (restartCount <> 0 ->
              NewIterator b cmp
              = Done (BlockIterator
                        (Iter.mkIter cmp data restartArrayStart restartCount
                           restartArrayStart restartCount
                           [] empty_Slice OK)))).
Proof.
  destruct contents as [data heap]. cbn [contents_data heap_allocated].
  cbv zeta.
  set (s := zlen data). set (nr := DecodeFixed32 data (s - 4)).
  assert (Hnr : 0 <= nr) by apply DecodeFixed_nonneg.
  destruct (Z.ltb_spec s 4) as [Hs|Hs].
  - exists (mkBlock data 0 None heap). split.
    { unfold new_Block. cbn [contents_data heap_allocated size_ data_ owned_].
      fold s. destruct (Z.ltb_spec s 4); [reflexivity | lia]. }
    split; [|split; intros; lia].
    intros _. split; reflexivity.
  - destruct (Z.ltb_spec ((s - 4) / 4) nr) as [Hbig|Hfit].
    + exists (mkBlock data 0 None heap). split.
      { unfold new_Block, NumRestarts.
        cbn [contents_data heap_allocated size_ data_ owned_]. fold s.
        destruct (Z.ltb_spec s 4); [lia|].
        destruct (Z.leb_spec 4 s); [|lia]. cbn [assert obind]. fold nr.
        destruct (Z.ltb_spec ((s - 4) / 4) nr); [reflexivity | lia]. }
      split; [intros; lia|]. split; [|intros; lia].
      intros _ _. split; reflexivity.
    + destruct (Block_of_region data heap cmp Hs Hfit) as [Hnew Hiter].
      fold s in Hnew, Hiter. fold nr in Hnew, Hiter.
      eexists. split; [exact Hnew|].
      split; [intros; lia|]. split; [intros; lia|].
      intros _ _. split; [reflexivity|].
      assert (Hdiv : 4 * ((s - 4) / 4) <= s - 4) by (apply Z.mul_div_le; lia).
      split.
      { unfold NumRestarts. cbn [size_ data_]. fold s.
        destruct (Z.leb_spec 4 s); [reflexivity | lia]. }
      split; [intros Hsmall; apply wrap32_small; lia|].
      split; [|exact Hiter].
      intros Hz. unfold NewIterator, NumRestarts. cbn [size_ data_]. fold s.
      destruct (Z.ltb_spec s 4); [lia|].
      destruct (Z.leb_spec 4 s); [|lia]. cbn [assert obind]. fold nr.
      rewrite Hz. reflexivity.
Qed.

Lemma Block_construction_witness :
  exists b,
    new_Block (mkBlockContents fruit_block false) = Done b
    /\ b = mkBlock fruit_block 34 (Some 22) false
    /\ NewIterator b bytewise
       = Done (BlockIterator
                 (Iter.mkIter bytewise fruit_block 22 2 22 2
                    [] empty_Slice OK)).
Proof.
  destruct (Block_construction (mkBlockContents fruit_block false) bytewise)
    as (b & Hb & _ & _ & H).
  exists b. split; [exact Hb|].
  destruct H as (Hblock & _ & _ & _ & Hit).
  - vm_compute. discriminate.
  - vm_compute. discriminate.
  - split; [exact Hblock|]. apply Hit. vm_compute. discriminate.
Defined.

Lemma DecodeFixed_app_r n (pre l : list byte) (i : Z) :
  0 <= i -> DecodeFixed n (pre ++ l) (zlen pre + i) = DecodeFixed n l i.
Proof.
  revert i. induction n as [|n IH]; intros i Hi; [reflexivity|].
  cbn [DecodeFixed]. rewrite byte_at_app_r by exact Hi.
  rewrite <- Z.add_assoc, IH by lia. reflexivity.
Qed.

(** Claim C7 does not hold as stated.  In a region of [2^32 + 8] bytes
    with one restart point the restart array starts at offset
    [s - (1 + restartCount) * 4 = 2^32]; the constructor keeps 0, the
    32-bit value of it, and the iterator [NewIterator] returns has its
    restart array at offset 0. *)
Lemma Block_construction_beyond_4GiB :
  zlen long_block = 2 ^ 32 + 8
  /\ DecodeFixed32 long_block (zlen long_block - 4) = 1
  /\ zlen long_block - (1 + 1) * 4 = 2 ^ 32
  /\ new_Block (mkBlockContents long_block false)
     = Done (mkBlock long_block (2 ^ 32 + 8) (Some 0) false)
  /\ NewIterator (mkBlock long_block (2 ^ 32 + 8) (Some 0) false) bytewise
     = Done (BlockIterator
               (Iter.mkIter bytewise long_block 0 1 0 1 [] empty_Slice OK)).
Proof.
  unfold long_block.
  generalize (length_replicate (Z.to_nat (2 ^ 32)) x00).
  generalize (replicate (Z.to_nat (2 ^ 32)) x00). intros pre Hpre.
  assert (Hlen : zlen pre = 2 ^ 32) by (unfold zlen; rewrite Hpre; lia).
  clear Hpre.
  set (tail := bytes [0; 0; 0; 0; 1; 0; 0; 0]).
  assert (Hs : zlen (pre ++ tail) = 2 ^ 32 + 8).
  { rewrite zlen_app, Hlen. reflexivity. }
  assert (Hn : DecodeFixed32 (pre ++ tail) (zlen (pre ++ tail) - 4) = 1).
  { rewrite Hs. replace (2 ^ 32 + 8 - 4) with (zlen pre + 4) by lia.
    unfold DecodeFixed32. rewrite DecodeFixed_app_r by lia. reflexivity. }
  split; [exact Hs|]. split; [exact Hn|]. split; [lia|].
  destruct (Block_of_region (pre ++ tail) false bytewise) as [Hnew Hiter].
  - lia.
  - rewrite Hn, Hs. apply Z.div_le_lower_bound; lia.
  - rewrite Hn, Hs in Hnew, Hiter.
    change (wrap32 (2 ^ 32 + 8 - (1 + 1) * 4)) with 0 in Hnew, Hiter.
    split; [exact Hnew|]. apply Hiter. discriminate.
Qed.

(** Claim C10.  For every block that is not corrupt and has
    [restartCount > 0], the iterator [NewIterator] returns starts invalid:
    its cursor is the restart array offset and its restart index is
    [restartCount], so [Valid()] is false, and [key()] and [value()], which
    assert [Valid()], may not be used before a positioning call. *)
Theorem fresh_iterator_invalid (contents : BlockContents)
    (cmp : list byte -> list byte -> Z) (b : Block) (num_restarts : Z) :
  new_Block contents = Done b ->
  4 <= size_ b ->
  NumRestarts b = Done num_restarts ->
  0 < num_restarts ->
  exists it restart_offset,
    NewIterator b cmp = Done (BlockIterator it)
    /\ restart_offset_ b = Some restart_offset
    /\ Iter.current_ it = restart_offset
    /\ Iter.restarts_ it = restart_offset
    /\ Iter.restart_index_ it = num_restarts
    /\ Iter.num_restarts_ it = num_restarts
    /\ Iter.Valid it = false
    /\ Iter.status it = OK
    /\ Iter.key it = Abort
    /\ Iter.value it = Abort.
Proof.
  intros Hnew Hsize Hnr Hpos.
  assert (Hoff : exists ro, restart_offset_ b = Some ro).
  { unfold new_Block in Hnew.
    destruct (size_ _ <? 4).
    - injection Hnew as <-. cbn in Hsize. lia.
    - destruct (NumRestarts _) as [nr| |]; cbn [obind] in Hnew; try discriminate.
      destruct (_ <? nr).
      + injection Hnew as <-. cbn in Hsize. lia.
      + injection Hnew as <-. cbn. eauto. }
  destruct Hoff as (ro & Hro).
  unfold NewIterator. rewrite Hnr, Hro. cbn [obind].
  destruct (Z.ltb_spec (size_ b) 4); [lia|].
  destruct (Z.eqb_spec num_restarts 0); [lia|].
  unfold Iter.new_Iter. destruct (Z.ltb_spec 0 num_restarts); [|lia].
  cbn [assert obind].
  eexists. exists ro. split; [reflexivity|]. cbn.
  unfold Iter.Valid, Iter.key, Iter.value, Iter.Valid. cbn.
  rewrite Z.ltb_irrefl. repeat split; reflexivity.
Qed.

Lemma fresh_iterator_invalid_witness :
  exists it,
    NewIterator (mkBlock fruit_block 34 (Some 22) false) bytewise
    = Done (BlockIterator it)
    /\ Iter.Valid it = false.
Proof.
  destruct (fresh_iterator_invalid (mkBlockContents fruit_block false) bytewise
              (mkBlock fruit_block 34 (Some 22) false) 2)
    as (it & ro & H & _ & _ & _ & _ & _ & Hv & _).
  - vm_compute. reflexivity.
  - vm_compute. discriminate.
  - vm_compute. reflexivity.
  - lia.
  - exists it. split; [exact H | exact Hv].
Defined.

End BlockProperties.

Module EnvFacts.
Import Posix EnvPosix ByteFacts.

(** *** Slices at the end of a file *)

Lemma slice_bytes_all (l : list byte) : slice_bytes l 0 (zlen l) = l.
Proof.
  unfold slice_bytes. pose proof (zlen_nonneg l).
  rewrite Z.min_id, Z.min_l by lia. change (Z.to_nat 0) with 0%nat.
  rewrite drop_0. unfold zlen. rewrite Nat2Z.id. apply firstn_all.
Qed.



(** *** Random-access reads *)





End EnvFacts.

Module FileProperties.
Import Posix EnvPosix Examples ByteFacts EnvFacts.



End FileProperties.

Module LockFacts.
Import Posix EnvPosix Examples.

(** A first [LockFile] on a free path takes the lock. *)
Lemma LockFile_first (env : PosixEnv) (k : Kernel) (fname : string) :
  0 <= k_next_fd k -> fname ∉ locks_ env -> fname ∉ k_foreign k ->
  exists env1 k1,
    LockFile env k fname
    = (OK, Some (mkPosixFileLock (k_next_fd k) fname), env1, k1)
    /\ locks_ env1 = locks_ env ∪ {[fname]}
    /\ k_fds k1 = <[k_next_fd k := fname]> (k_fds k)
    /\ k_next_fd k1 = k_next_fd k + 1
    /\ k_locks k1 = k_locks k ∪ {[fname]}.
Proof.
  intros Hnext Hfree Hforeign.
  unfold LockFile, open_creat.
  destruct (Z.ltb_spec (k_next_fd k) 0); [lia|].
  unfold Insert. rewrite bool_decide_eq_true_2 by exact Hfree. cbn [negb].
  unfold LockOrUnlock, fcntl_setlk. cbn [k_fds k_foreign].
  rewrite lookup_insert_eq.
  destruct (decide (fname ∈ k_foreign k)); [contradiction|].
  change (0 =? -1) with false. cbv iota.
  do 2 eexists. split; [reflexivity|]. cbn. auto.
Qed.

(** A second [LockFile] on the path fails, keeps the path registered and
    the first descriptor open; the [close] of its own descriptor releases
    the record lock of the process on the file. *)
Lemma LockFile_second (env1 : PosixEnv) (k1 : Kernel) (fname : string) (fd1 : Z) :
  0 <= k_next_fd k1 -> fname ∈ locks_ env1 ->
  k_fds k1 !! fd1 = Some fname -> fd1 < k_next_fd k1 ->
  exists k2,
    LockFile env1 k1 fname
    = (IOError ("lock " +:+ fname) "already held by process", None, env1, k2)
    /\ k_fds k2 !! fd1 = Some fname
    /\ fname ∉ k_locks k2.
Proof.
  intros Hnext Hheld Hfd Hlt.
  unfold LockFile, open_creat.
  destruct (Z.ltb_spec (k_next_fd k1) 0); [lia|].
  unfold Insert. rewrite bool_decide_eq_false_2 by (intros H'; now apply H').
  cbn [negb]. eexists. split; [reflexivity|].
  unfold close. cbn [k_fds]. rewrite lookup_insert_eq. cbn.
  split.
  - rewrite lookup_delete_ne by lia. rewrite lookup_insert_ne by lia. exact Hfd.
  - intros Hin. apply elem_of_difference in Hin as [_ Hin].
    apply Hin. now apply elem_of_singleton.
Qed.

(** Claim C8, at the input where the code departs from it.  Two [LockFile]
    calls on "LOCK" in one process: the first succeeds and the process holds
    the record lock; the second fails with [IOError] "already held by
    process", leaves the path registered and the first descriptor open, but
    has opened and closed a descriptor of its own on the file, and with that
    [close] the process no longer holds the record lock. *)
Theorem LockFile_twice :
  exists lock env1 k1 k2,
    LockFile env0 kernel0 "LOCK" = (OK, Some lock, env1, k1)
    /\ "LOCK" ∈ k_locks k1
    /\ LockFile env1 k1 "LOCK"
       = (IOError "lock LOCK" "already held by process", None, env1, k2)
    /\ "LOCK" ∈ locks_ env1
    /\ k_fds k2 !! lock_fd_ lock = Some "LOCK"
    /\ "LOCK" ∉ k_locks k2.
Proof.
  destruct (LockFile_first env0 kernel0 "LOCK")
    as (env1 & k1 & H1 & Hl & Hfds & Hnext & Hk);
    [vm_compute; discriminate | set_solver | set_solver |].
  destruct (LockFile_second env1 k1 "LOCK" (k_next_fd kernel0))
    as (k2 & H2 & Hfd2 & Hgone).
  - rewrite Hnext. vm_compute. discriminate.
  - rewrite Hl. set_solver.
  - rewrite Hfds. apply lookup_insert_eq.
  - rewrite Hnext. lia.
  - exists (mkPosixFileLock (k_next_fd kernel0) "LOCK"), env1, k1, k2.
    split; [exact H1|]. split; [rewrite Hk; set_solver|].
    split; [exact H2|]. split; [rewrite Hl; set_solver|].
    split; [exact Hfd2 | exact Hgone].
Qed.

End LockFacts.

Module ScheduleFacts.
Import EnvPosix.

Lemma one_at_a_time_app l1 l2 :
  one_at_a_time (l1 ++ l2) = one_at_a_time l1 ++ one_at_a_time l2.
Proof. unfold one_at_a_time. apply flat_map_app. Qed.

Lemma invariant_step bg bg' : invariant bg -> step bg bg' -> invariant bg'.
Proof.
  intros Hinv Hstep. destruct Hstep as [bg f a | bg t bg' Htake | bg t bg' Hret].
  - (* Schedule *)
    right. split; [reflexivity|].
    destruct Hinv as [(Hs & Ht & Hq & Htr) | (Hs & w & done & Ht & Hsub & Hst & Hrun)].
    + exists None, []. unfold Schedule. rewrite Hs, Ht, Hq, Htr. cbn.
      repeat split; reflexivity.
    + exists w, done. unfold Schedule. rewrite Hs. cbn [threads trace queue_].
      unfold submitted, started, run_events in *.
      rewrite !omap_app, Hsub, Hst, Hrun. cbn.
      rewrite !app_nil_r, <- !app_assoc.
      repeat split; try reflexivity; assumption.
  - (* the worker takes the front item *)
    unfold BGThread_take in Htake.
    destruct Hinv as [(Hs & Ht & Hq & Htr) | (Hs & w & done & Ht & Hsub & Hst & Hrun)].
    { rewrite Ht in Htake. destruct t; discriminate. }
    rewrite Ht in Htake.
    destruct t as [|t]; [|destruct t; discriminate]. cbn in Htake.
    destruct w as [i|]; [discriminate|].
    destruct (queue_ bg) as [|front rest] eqn:Hq; [discriminate|].
    injection Htake as <-. right. split; [exact Hs|].
    exists (Some front), done. cbn [threads trace queue_ running_items] in *.
    unfold submitted, started, run_events in *.
    rewrite !omap_app, Hsub, Hst, Hrun. cbn.
    rewrite !app_nil_r. repeat split; reflexivity.
  - (* the callable returns *)
    unfold BGThread_return in Hret.
    destruct Hinv as [(Hs & Ht & Hq & Htr) | (Hs & w & done & Ht & Hsub & Hst & Hrun)].
    { rewrite Ht in Hret. destruct t; discriminate. }
    rewrite Ht in Hret.
    destruct t as [|t]; [|destruct t; discriminate]. cbn in Hret.
    destruct w as [i|]; [|discriminate].
    injection Hret as <-. right. split; [exact Hs|].
    exists None, (done ++ [i]). cbn [threads trace queue_ running_items] in *.
    unfold submitted, started, run_events in *.
    rewrite !omap_app, Hsub, Hst, Hrun. cbn.
    rewrite one_at_a_time_app, !app_nil_r, <- !app_assoc. cbn.
    repeat split; reflexivity.
Qed.

Lemma reachable_invariant bg : reachable bg -> invariant bg.
Proof.
  induction 1 as [|bg bg' _ IH Hstep].
  - left. repeat split; reflexivity.
  - eapply invariant_step; eassumption.
Qed.

Lemma Schedule_all_spec (items : list BGItem) : forall bg,
  started_bgthread_ bg = true ->
  started_bgthread_ (Schedule_all bg items) = true
  /\ threads (Schedule_all bg items) = threads bg
  /\ queue_ (Schedule_all bg items) = queue_ bg ++ items
  /\ submitted (trace (Schedule_all bg items))
     = submitted (trace bg) ++ items
  /\ run_events (trace (Schedule_all bg items)) = run_events (trace bg).
Proof.
  induction items as [|i items IH]; intros bg Hs.
  - cbn. rewrite !app_nil_r. auto.
  - cbn [Schedule_all fold_left].
    destruct (IH (Schedule bg (function i) (arg i)) eq_refl)
      as (H1 & H2 & H3 & H4 & H5).
    change (fold_left _ items ?b) with (Schedule_all b items).
    unfold Schedule_all in *.
    rewrite H1, H2, H3, H4, H5. unfold Schedule. rewrite Hs.
    cbn [threads queue_ trace]. unfold submitted, run_events.
    rewrite !omap_app. cbn. rewrite !app_nil_r, <- !app_assoc.
    destruct i. repeat split; reflexivity.
Qed.

Lemma Schedule_all_reachable (items : list BGItem) : forall bg,
  reachable bg -> reachable (Schedule_all bg items).
Proof.
  induction items as [|i items IH]; intros bg Hr; [exact Hr|].
  cbn [Schedule_all fold_left]. apply IH.
  eapply reachable_step; [exact Hr | constructor].
Qed.

(** Once the thread exists and is idle, it takes and runs the queued items
    one after the other until the queue is empty. *)
Lemma drain_queue (items : list BGItem) : forall bg w_done,
  started_bgthread_ bg = true -> threads bg = [None] ->
  queue_ bg = items ->
  run_events (trace bg) = one_at_a_time w_done ->
  exists bg',
    drain (length items) bg = Some bg'
    /\ queue_ bg' = []
    /\ submitted (trace bg') = submitted (trace bg)
    /\ run_events (trace bg') = one_at_a_time (w_done ++ items).
Proof.
  induction items as [|i items IH]; intros bg w_done Hs Ht Hq Hrun.
  - exists bg. cbn. rewrite app_nil_r. auto.
  - cbn [length drain]. unfold BGThread_take. rewrite Ht, Hq. cbn.
    destruct (IH (mkBackground (started_bgthread_ bg) items [None]
                    ((trace bg ++ [Started i]) ++ [Returned i]))
                 (w_done ++ [i])) as (bg' & Hd & Hq' & Hsub & Hrun');
      try reflexivity; try assumption.
    + cbn [trace]. unfold run_events in *. rewrite !omap_app, Hrun. cbn.
      rewrite one_at_a_time_app, <- app_assoc. reflexivity.
    + exists bg'. rewrite <- app_assoc in Hrun'.
      split; [exact Hd|]. split; [exact Hq'|]. split; [|exact Hrun'].
      rewrite Hsub. cbn [trace]. unfold submitted. rewrite !omap_app. cbn.
      now rewrite !app_nil_r.
Qed.

(** Claim C9.  In every state the scheduler can reach, whatever the
    interleaving of [Schedule] calls with the steps of the background
    thread, there is at most one such thread (none before the first
    [Schedule]), the callables started so far
    are the submitted ones in submission order (what is submitted is what
    was started followed by the queue), and each callable returns before
    the next one starts.  In particular, [N >= 1] callables scheduled back
    to back leave one idle thread and the [N] items queued in order, and the
    thread then runs exactly these, one after the other, in that order. *)
Theorem background_runs_in_submission_order :
  (forall bg, reachable bg ->
     (length (threads bg) <= 1)%nat
     /\ submitted (trace bg) = started (trace bg) ++ queue_ bg
     /\ exists done running,
          started (trace bg) = done ++ running
          /\ (length running <= 1)%nat
          /\ run_events (trace bg)
             = one_at_a_time done ++ map Started running)
  /\ threads new_Background = []
  /\ (forall items, items <> [] ->
        reachable (Schedule_all new_Background items)
        /\ threads (Schedule_all new_Background items) = [None]
        /\ queue_ (Schedule_all new_Background items) = items
        /\ exists bg',
             drain (length items) (Schedule_all new_Background items) = Some bg'
             /\ queue_ bg' = []
             /\ submitted (trace bg') = items
             /\ run_events (trace bg') = one_at_a_time items).
Proof.
  split.
  - intros bg Hreach. apply reachable_invariant in Hreach.
    destruct Hreach
      as [(Hs & Ht & Hq & Htr) | (Hs & w & done & Ht & Hsub & Hst & Hrun)].
    + rewrite Ht, Hq, Htr. cbn. split; [lia|]. split; [reflexivity|].
      exists [], []. cbn. repeat split; [lia].
    + rewrite Ht, Hsub, Hst, Hrun. cbn [length]. split; [lia|].
      split; [now rewrite app_assoc|].
      exists done, (running_items w). split; [reflexivity|].
      split; [destruct w; cbn; lia | reflexivity].
  - split; [reflexivity|].
    intros [|i items] Hne; [contradiction|].
    split; [apply Schedule_all_reachable; constructor|].
    cbn [Schedule_all fold_left].
    change (fold_left _ items ?b) with (Schedule_all b items).
    destruct (Schedule_all_spec items (Schedule new_Background (function i) (arg i))
                eq_refl) as (H1 & H2 & H3 & H4 & H5).
    cbn in H2, H3, H4, H5. destruct i as [f a]. cbn [function arg] in *.
    split; [exact H2|]. split; [exact H3|].
    destruct (drain_queue (mkBGItem f a :: items)
                (Schedule_all (Schedule new_Background f a) items) []
                H1 H2 H3 H5) as (bg' & Hd & Hq & Hsub & Hrun).
    exists bg'. split; [exact Hd|]. split; [exact Hq|].
    split; [now rewrite Hsub, H4 | exact Hrun].
Qed.

Lemma background_runs_in_submission_order_witness :
  submitted (trace (Schedule (Schedule new_Background 1 10) 2 20))
  = started (trace (Schedule (Schedule new_Background 1 10) 2 20))
    ++ queue_ (Schedule (Schedule new_Background 1 10) 2 20).
Proof.
  refine (proj1 (proj2 (proj1 background_runs_in_submission_order _ _))).
  apply (reachable_step (Schedule new_Background 1 10)).
  - apply (reachable_step new_Background); constructor.
  - constructor.
Defined.

End ScheduleFacts.

Module PositionFacts.
Import Coding Block BlockFormat BlockState ByteFacts CodingFacts ChainFacts IterFacts ScanFacts PrevFacts SeekFacts.

Ltac iter_fields :=
  unfold Iter.set_current, Iter.set_restart_index, Iter.set_position,
         Iter.set_key_value, Iter.set_status;
  cbn [Iter.comparator_ Iter.data_ Iter.restarts_ Iter.num_restarts_
       Iter.current_ Iter.restart_index_ Iter.key_ Iter.value_ Iter.status_
       slice_data slice_size obind].

Section WellFormed.

Context (data : list byte) (L : Layout) (WF : well_formed data L).

Local Abbreviation limit := (restart_array L).
Local Abbreviation n := (restart_count L).
Local Abbreviation es := (entries L).
Local Abbreviation restart := (restart_point data limit).
Local Abbreviation bracket := (restart_bracket data L).

(** A block without entries has a single restart point. *)
Lemma no_entries_one_restart : es = [] -> n = 1.
Proof.
  intros Heq. pose proof (limit_range _ _ WF) as Hr.
  destruct (Z.eq_dec n 1) as [|Hne]; [assumption|].
  destruct (restart_entry data L WF 1 ltac:(lia)) as (_ & e & Hin & _).
  rewrite Heq in Hin. destruct Hin.
Qed.

(** From every restart point a run of entries decodes up to the restart
    array, starting from the empty key. *)
Lemma restart_ready j :
  0 <= j < n ->
  exists pre prev suf,
    es = pre ++ suf
    /\ chain data limit (restart j) prev suf
    /\ (forall h, head suf = Some h -> key_ready [] prev h).
Proof.
  intros Hj. destruct es as [|e0 rest] eqn:Hes.
  - pose proof (no_entries_one_restart Hes) as Hn.
    assert (j = 0) as -> by lia.
    pose proof (wf_chain _ _ WF) as Hc. rewrite Hes in Hc.
    exists [], [], []. rewrite (restart_first _ _ WF).
    split; [reflexivity|]. split; [exact Hc|]. intros h [=].
  - destruct (restart_suffix data L WF j Hj)
      as (pre & e & tail & Heq & Hoff & Hc & Hk & _).
    { rewrite Hes. discriminate. }
    exists pre, (last_key [] pre), (e :: tail). rewrite <- Hes.
    split; [exact Heq|]. split; [exact Hc|]. intros h [= <-]. exact Hk.
Qed.

Section Iterator.

Context (cmp : list byte -> list byte -> Z).

Local Abbreviation iter := (BlockFormat.iter data L cmp).
Local Abbreviation at_entry := (BlockFormat.at_entry data L cmp).

(** The loop at the end of [ParseNextKey] stops on a restart index that
    brackets the cursor. *)
Lemma advance_restart_index_bracket fuel cur ri k v st :
  0 <= ri < n -> n - ri <= Z.of_nat fuel -> restart ri <= cur ->
  exists ri', Iter.advance_restart_index fuel (iter cur ri k v st)
              = Done (iter cur ri' k v st)
              /\ ri <= ri' /\ bracket ri' cur.
Proof.
  pose proof (limit_range _ _ WF) as Hr.
  revert ri. induction fuel as [|fuel IH]; intros ri Hri Hfuel Hle; [lia|].
  cbn [Iter.advance_restart_index].
  change (Iter.restart_index_ (iter cur ri k v st)) with ri.
  change (Iter.num_restarts_ (iter cur ri k v st)) with n.
  change (Iter.current_ (iter cur ri k v st)) with cur.
  rewrite (wrap32_small (ri + 1)) by lia.
  destruct (Z.ltb_spec (ri + 1) n) as [Hlt|Hge].
  - rewrite (GetRestartPoint_ok data L) by lia. cbn [obind].
    destruct (Z.ltb_spec (restart (ri + 1)) cur) as [Hr1|Hr1].
    + change (Iter.set_restart_index (iter cur ri k v st) (ri + 1))
        with (iter cur (ri + 1) k v st).
      destruct (IH (ri + 1)) as (ri' & -> & Hri' & Hb); [lia|lia|lia|].
      exists ri'. split; [reflexivity|]. split; [lia | exact Hb].
    + exists ri. split; [reflexivity|]. split; [lia|].
      split; [lia|]. split; [lia|]. intros _. lia.
  - exists ri. split; [reflexivity|]. split; [lia|].
    split; [lia|]. split; [lia|]. intros ?. lia.
Qed.

(** [ParseNextKey] onto entry [e], from a restart index at or before it. *)
Lemma ParseNextKey_bracket prev e suf cur ri k o s st :
  chain data limit (e_off e) prev (e :: suf) ->
  0 <= e_off e -> o + s = e_off e ->
  key_ready k prev e ->
  0 <= ri < n -> restart ri <= e_off e ->
  exists ri',
    Iter.ParseNextKey (iter cur ri k (mkSlice (InBlock o) s) st)
    = Done (true, at_entry ri' e st)
    /\ ri <= ri' /\ bracket ri' (e_off e).
Proof.
  intros (Hlt & _ & (p & ns & Hd & Hsh & Hfit & Hkey & Hv) & _)
         H0 Hos [Hk Htake] Hri Hle.
  pose proof (limit_range _ _ WF) as Hr.
  unfold Iter.ParseNextKey, Iter.NextEntryOffset.
  cbn [Iter.value_ BlockFormat.iter slice_data slice_size obind].
  rewrite Hos, wrap32_small by lia.
  change (Iter.set_current (iter cur ri k (mkSlice (InBlock o) s) st) (e_off e))
    with (iter (e_off e) ri k (mkSlice (InBlock o) s) st).
  cbn [Iter.current_ Iter.restarts_ Iter.data_ Iter.key_ BlockFormat.iter].
  destruct (Z.leb_spec limit (e_off e)); [lia|].
  rewrite Hd.
  destruct (Z.ltb_spec (zlen k) (e_shared e)); [lia|].
  pose proof (DecodeEntry_bounds _ _ _ _ _ _ _ Hd) as Hbounds.
  pose proof (limit_within _ _ WF) as Hw.
  destruct (Z.leb_spec (p + ns) (zlen data)); [|lia]. cbn [assert obind].
  unfold BlockFormat.iter, BlockFormat.at_entry. iter_fields.
  rewrite Htake, <- Hkey, <- Hv.
  destruct (advance_restart_index_bracket (S (Z.to_nat n)) (e_off e) ri
              (e_key e) (mkSlice (InBlock (e_voff e)) (e_vlen e)) st Hri
              ltac:(lia) Hle) as (ri' & Hadv & Hri' & Hb).
  unfold BlockFormat.iter in Hadv. rewrite Hadv.
  exists ri'. split; [reflexivity|]. split; assumption.
Qed.

(** The linear scan of [Seek] over any run of entries: it ends past the
    last entry, or on an entry of the run whose key is not below the
    target. *)
Lemma Seek_scan_lands target suf : forall fuel off prev cur ri k o s st,
  chain data limit off prev suf ->
  0 <= off -> o + s = off ->
  (forall h, head suf = Some h -> key_ready k prev h) ->
  0 <= ri < n -> restart ri <= off -> (length suf < fuel)%nat ->
  exists it',
    Iter.Seek_scan fuel (iter cur ri k (mkSlice (InBlock o) s) st) target
    = Done it'
    /\ ((exists k' v', it' = iter limit n k' v' st)
        \/ exists ri' e,
             it' = at_entry ri' e st /\ In e suf /\ bracket ri' (e_off e)
             /\ 0 <= cmp (e_key e) target).
Proof.
  pose proof (limit_range _ _ WF) as Hr.
  induction suf as [|e suf IH];
    intros fuel off prev cur ri k o s st Hc H0 Hos Hk Hri Hle Hfuel;
    (destruct fuel as [|fuel]; [cbn in Hfuel; lia|]);
    cbn [Iter.Seek_scan].
  - cbn in Hc. rewrite (ParseNextKey_end data L WF) by lia.
    cbn [obind negb]. eexists. split; [reflexivity|]. left. eauto.
  - pose proof (chain_head _ _ _ _ _ _ Hc) as (Hoff & _ & Hvl & Hv & Hn).
    rewrite <- Hoff in Hc, Hos, H0, Hle.
    destruct (ParseNextKey_bracket prev e suf cur ri k o s st Hc H0 Hos
                (Hk e eq_refl) Hri Hle) as (ri' & -> & Hri' & Hb).
    cbn [obind negb]. unfold Iter.Compare.
    change (Iter.comparator_ (at_entry ri' e st)) with cmp.
    change (Iter.key_ (at_entry ri' e st)) with (e_key e).
    destruct (Z.leb_spec 0 (cmp (e_key e) target)) as [Hge|Hlt].
    + eexists. split; [reflexivity|]. right. exists ri', e.
      split; [reflexivity|]. split; [now left|]. split; assumption.
    + destruct Hc as (_ & _ & _ & Hrest).
      destruct Hb as (Hb1 & Hb2 & _).
      destruct (IH fuel (e_next e) (e_key e) (e_off e) ri' (e_key e)
                  (e_voff e) (e_vlen e) st Hrest
                  ltac:(unfold e_next in *; lia) eq_refl
                  ltac:(intros h Hh; destruct suf as [|y suf];
                        [discriminate|]; injection Hh as <-;
                        eapply chain_key_ready; exact Hrest)
                  ltac:(lia) ltac:(unfold e_next in *; lia)
                  ltac:(cbn in Hfuel; lia))
        as (it' & Hs & Hit').
      unfold BlockFormat.at_entry at 1. rewrite Hs.
      exists it'. split; [reflexivity|].
      destruct Hit' as [Hend|(ri'' & x & Hx & Hin & Hbx)]; [now left|].
      right. exists ri'', x. split; [exact Hx|]. split; [now right | exact Hbx].
Qed.

(** The scan of [Prev] and [SeekToLast] over any run of entries, whatever
    the bound: it ends past the last entry or on an entry of the run. *)
Lemma scan_while_before_lands bound suf : forall fuel off prev cur ri k o s st,
  chain data limit off prev suf ->
  0 <= off -> o + s = off ->
  (forall h, head suf = Some h -> key_ready k prev h) ->
  0 <= ri < n -> restart ri <= off -> (length suf < fuel)%nat ->
  exists it',
    Iter.scan_while_before fuel (iter cur ri k (mkSlice (InBlock o) s) st)
      bound
    = Done it'
    /\ ((exists k' v', it' = iter limit n k' v' st)
        \/ exists ri' e,
             it' = at_entry ri' e st /\ In e suf /\ bracket ri' (e_off e)).
Proof.
  pose proof (limit_range _ _ WF) as Hr.
  induction suf as [|e suf IH];
    intros fuel off prev cur ri k o s st Hc H0 Hos Hk Hri Hle Hfuel;
    (destruct fuel as [|fuel]; [cbn in Hfuel; lia|]);
    cbn [Iter.scan_while_before].
  - cbn in Hc. rewrite (ParseNextKey_end data L WF) by lia.
    cbn [obind]. eexists. split; [reflexivity|]. left. eauto.
  - pose proof (chain_head _ _ _ _ _ _ Hc) as (Hoff & _ & Hvl & Hv & Hn).
    rewrite <- Hoff in Hc, Hos, H0, Hle.
    destruct (ParseNextKey_bracket prev e suf cur ri k o s st Hc H0 Hos
                (Hk e eq_refl) Hri Hle) as (ri' & -> & Hri' & Hb).
    cbn [obind].
    rewrite (NextEntryOffset_at_entry data L)
      by (unfold e_next in *; lia).
    cbn [obind].
    destruct (e_next e <? bound).
    + destruct Hc as (_ & _ & _ & Hrest).
      pose proof Hb as (Hb1 & Hb2 & _).
      destruct (IH fuel (e_next e) (e_key e) (e_off e) ri' (e_key e)
                  (e_voff e) (e_vlen e) st Hrest
                  ltac:(unfold e_next in *; lia) eq_refl
                  ltac:(intros h Hh; destruct suf as [|y suf];
                        [discriminate|]; injection Hh as <-;
                        eapply chain_key_ready; exact Hrest)
                  ltac:(lia) ltac:(unfold e_next in *; lia)
                  ltac:(cbn in Hfuel; lia))
        as (it' & Hs & Hit').
      unfold BlockFormat.at_entry at 1. rewrite Hs.
      exists it'. split; [reflexivity|].
      destruct Hit' as [Hend|(ri'' & x & Hx & Hin & Hbx)]; [now left|].
      right. exists ri'', x. split; [exact Hx|]. split; [now right | exact Hbx].
    + eexists. split; [reflexivity|]. right. exists ri', e.
      split; [reflexivity|]. split; [now left | exact Hb].
Qed.

(** The binary search of [Seek] ends on a restart index, whatever the
    order of the keys. *)
Lemma Seek_restart_index target cur ri k v st fuel : forall left right,
  0 <= left <= right -> right < n ->
  right - left < Z.of_nat fuel ->
  exists index,
    Iter.Seek_restart fuel (iter cur ri k v st) target left right
    = Done (inr index)
    /\ 0 <= index < n.
Proof.
  pose proof (limit_range _ _ WF) as Hr.
  induction fuel as [|fuel IH]; intros left right Hlr Hrn Hfuel; [lia|].
  cbn [Iter.Seek_restart].
  destruct (Z.ltb_spec left right) as [Hlt|Hge].
  - rewrite (wrap32_small (left + right)) by lia.
    rewrite (wrap32_small (left + right + 1)) by lia.
    assert (Hmid : left < (left + right + 1) / 2 <= right).
    { pose proof (Z.div_mod (left + right + 1) 2 ltac:(lia)).
      pose proof (Z.mod_pos_bound (left + right + 1) 2 ltac:(lia)). lia. }
    set (mid := (left + right + 1) / 2) in *.
    rewrite (wrap32_small mid) by lia.
    rewrite (GetRestartPoint_ok data L) by lia. cbn [obind].
    destruct (DecodeEntry_restart data L WF mid ltac:(lia))
      as (p & ns & vl & Hd & Hkey & Hin).
    change (Iter.data_ (iter cur ri k v st)) with data.
    change (Iter.restarts_ (iter cur ri k v st)) with limit.
    rewrite Hd. change (negb (0 =? 0)) with false. cbv iota.
    destruct (Z.leb_spec (p + ns) (zlen data)); [|lia]. cbn [assert obind].
    destruct (_ <? 0).
    + apply IH; lia.
    + rewrite (wrap32_small (mid - 1)) by lia. apply IH; lia.
  - exists left. split; [reflexivity | lia].
Qed.

(** *** Where the operations leave the iterator *)

Lemma positioning_from_restart j cur ri k v st :
  0 <= j < n ->
  exists pre prev suf,
    es = pre ++ suf
    /\ chain data limit (restart j) prev suf
    /\ (forall h, head suf = Some h -> key_ready [] prev h)
    /\ (length suf < S (Z.to_nat limit))%nat
    /\ Iter.SeekToRestartPoint (iter cur ri k v st) j
       = Done (iter cur j [] (mkSlice (InBlock (restart j)) 0) st).
Proof.
  intros Hj. destruct (restart_ready j Hj) as (pre & prev & suf & Heq & Hc & Hk).
  exists pre, prev, suf. split; [exact Heq|]. split; [exact Hc|].
  split; [exact Hk|]. split.
  - pose proof (entries_fit _ _ WF) as Hfit. rewrite Heq in Hfit.
    rewrite length_app in Hfit. lia.
  - apply (SeekToRestartPoint_ok data L). lia.
Qed.

Lemma In_suffix (pre suf : list Entry) e : es = pre ++ suf -> In e suf -> In e es.
Proof. intros -> H. apply in_or_app. now right. Qed.

Lemma SeekToFirst_lands cur ri k v st :
  exists it',
    Iter.SeekToFirst (iter cur ri k v st) = Done it'
    /\ (at_end data L cmp st it' \/ positioned data L cmp st it').
Proof.
  pose proof (limit_range _ _ WF) as Hr.
  destruct (positioning_from_restart 0 cur ri k v st ltac:(lia))
    as (pre & prev & suf & Heq & Hc & Hk & _ & Hseek).
  unfold Iter.SeekToFirst. rewrite Hseek. cbn [obind].
  destruct suf as [|e suf].
  - cbn [chain] in Hc. rewrite (ParseNextKey_end data L WF) by lia. cbn [obind].
    eexists. split; [reflexivity|]. left. eexists _, _. reflexivity.
  - pose proof (chain_head _ _ _ _ _ _ Hc) as (Hoff & _).
    rewrite <- Hoff in Hc.
    destruct (ParseNextKey_bracket prev e suf cur 0 [] (restart 0) 0 st Hc
                ltac:(rewrite Hoff; apply (restart_nonneg data L); lia)
                ltac:(lia) (Hk e eq_refl) ltac:(lia) ltac:(lia))
      as (ri' & -> & _ & Hb).
    cbn [obind]. eexists. split; [reflexivity|]. right. exists ri', e.
    split; [reflexivity|]. split; [|exact Hb].
    eapply In_suffix; [exact Heq | now left].
Qed.

Lemma SeekToLast_lands cur ri k v st :
  exists it',
    Iter.SeekToLast (iter cur ri k v st) = Done it'
    /\ (at_end data L cmp st it' \/ positioned data L cmp st it').
Proof.
  pose proof (limit_range _ _ WF) as Hr.
  destruct (positioning_from_restart (n - 1) cur ri k v st ltac:(lia))
    as (pre & prev & suf & Heq & Hc & Hk & Hlen & Hseek).
  unfold Iter.SeekToLast.
  change (Iter.num_restarts_ (iter cur ri k v st)) with n.
  rewrite wrap32_small by lia. rewrite Hseek. cbn [obind].
  change (Iter.restarts_ (iter _ _ _ _ _)) with limit.
  destruct (scan_while_before_lands limit suf (S (Z.to_nat limit))
              (restart (n - 1)) prev cur (n - 1) [] (restart (n - 1)) 0 st
              Hc (restart_nonneg data L (n - 1) ltac:(lia)) (Z.add_0_r _) Hk
              ltac:(lia) (Z.le_refl _) Hlen)
    as (it' & -> & [(k' & v' & ->)|(ri' & e & -> & Hin & Hb)]).
  - eexists. split; [reflexivity|]. left. eexists _, _. reflexivity.
  - eexists. split; [reflexivity|]. right. exists ri', e.
    split; [reflexivity|]. split; [|exact Hb].
    eapply In_suffix; eassumption.
Qed.

Lemma Seek_lands target cur ri k v st :
  exists it',
    Iter.Seek (iter cur ri k v st) target = Done it'
    /\ (at_end data L cmp st it'
        \/ positioned data L cmp st it'
           /\ 0 <= cmp (Iter.key_ it') target).
Proof.
  pose proof (limit_range _ _ WF) as Hr.
  unfold Iter.Seek.
  change (Iter.num_restarts_ (iter cur ri k v st)) with n.
  rewrite (wrap32_small (n - 1)) by lia.
  destruct (Seek_restart_index target cur ri k v st (S (Z.to_nat n)) 0 (n - 1)
              ltac:(lia) ltac:(lia) ltac:(lia)) as (index & -> & Hindex).
  cbn [obind].
  destruct (positioning_from_restart index cur ri k v st Hindex)
    as (pre & prev & suf & Heq & Hc & Hk & Hlen & Hseek).
  rewrite Hseek. cbn [obind].
  change (Iter.restarts_ (iter _ _ _ _ _)) with limit.
  destruct (Seek_scan_lands target suf (S (Z.to_nat limit))
              (restart index) prev cur index [] (restart index) 0 st
              Hc (restart_nonneg data L index Hindex) (Z.add_0_r _) Hk
              Hindex (Z.le_refl _) Hlen)
    as (it' & -> & [(k' & v' & ->)|(ri' & e & -> & Hin & Hb & Hge)]).
  - eexists. split; [reflexivity|]. left. eexists _, _. reflexivity.
  - eexists. split; [reflexivity|]. right. split; [|exact Hge].
    exists ri', e. split; [reflexivity|]. split; [|exact Hb].
    eapply In_suffix; eassumption.
Qed.

Lemma Next_lands it st :
  positioned data L cmp st it ->
  exists it',
    Iter.Next it = Done it'
    /\ (at_end data L cmp st it' \/ positioned data L cmp st it').
Proof.
  intros (ri & e & -> & Hin & Hri & Hle & _).
  destruct (entry_split _ _ WF e Hin) as (pre & suf & Heq & Hc & H0 & _).
  pose proof (chain_head _ _ _ _ _ _ Hc) as (_ & _ & Hvl & Hv & Hn).
  assert (Hlt : e_off e < limit) by apply Hc.
  unfold Iter.Next. rewrite (Valid_at_entry data L) by assumption.
  cbn [assert obind].
  destruct Hc as (_ & _ & _ & Hrest).
  destruct suf as [|e' suf].
  - cbn in Hrest. unfold BlockFormat.at_entry.
    rewrite (ParseNextKey_end data L WF) by exact Hrest. cbn [obind].
    eexists. split; [reflexivity|]. left. eexists _, _. reflexivity.
  - pose proof (chain_head _ _ _ _ _ _ Hrest) as (Hoff' & _).
    rewrite <- Hoff' in Hrest.
    destruct (ParseNextKey_bracket (e_key e) e' suf (e_off e) ri (e_key e)
                (e_voff e) (e_vlen e) st Hrest
                ltac:(unfold e_next in *; lia) ltac:(unfold e_next in *; lia)
                (chain_key_ready _ _ _ _ _ _ Hrest) Hri
                ltac:(unfold e_next in *; lia))
      as (ri' & Hp & _ & Hb).
    unfold BlockFormat.at_entry at 1. rewrite Hp. cbn [obind].
    eexists. split; [reflexivity|]. right. exists ri', e'.
    split; [reflexivity|]. split; [|exact Hb].
    rewrite Heq. apply in_or_app. right. right. now left.
Qed.

Lemma Prev_lands it st :
  positioned data L cmp st it ->
  exists it',
    Iter.Prev it = Done it'
    /\ (at_end data L cmp st it' \/ positioned data L cmp st it').
Proof.
  intros (ri & e & -> & Hin & Hri & Hle & _).
  pose proof (limit_range _ _ WF) as Hr.
  destruct (entry_split _ _ WF e Hin) as (pre & suf & Heq & Hc & H0 & _).
  assert (Hlt : e_off e < limit) by apply Hc.
  unfold Iter.Prev. rewrite (Valid_at_entry data L) by assumption.
  cbn [assert obind].
  change (Iter.current_ (at_entry ri e st)) with (e_off e).
  change (Iter.restart_index_ (at_entry ri e st)) with ri.
  destruct (Z.eq_dec (e_off e) 0) as [Hz|Hnz].
  - rewrite Hz. unfold BlockFormat.at_entry.
    rewrite (Prev_find_restart_first data L WF) by lia. cbn [obind].
    eexists. split; [reflexivity|]. left. eexists _, _. reflexivity.
  - destruct (Prev_find_restart_entry data L WF cmp (S (Z.to_nat ri)) ri
                (e_off e) (e_key e) (mkSlice (InBlock (e_voff e)) (e_vlen e))
                st (e_off e) ltac:(lia) Hri ltac:(lia))
      as (j & Hfind & Hj & Hjlt).
    unfold BlockFormat.at_entry at 1. rewrite Hfind. cbn [obind].
    change (Iter.restart_index_ (iter _ j _ _ _)) with j.
    destruct (positioning_from_restart j (e_off e) j (e_key e)
                (mkSlice (InBlock (e_voff e)) (e_vlen e)) st ltac:(lia))
      as (pre' & prev & suf' & Heq' & Hc' & Hk & Hlen & Hseek).
    rewrite Hseek. cbn [obind].
    change (Iter.restarts_ (iter _ _ _ _ _)) with limit.
    destruct (scan_while_before_lands (e_off e) suf' (S (Z.to_nat limit))
                (restart j) prev (e_off e) j [] (restart j) 0 st
                Hc' (restart_nonneg data L j ltac:(lia)) (Z.add_0_r _) Hk
                ltac:(lia) (Z.le_refl _) Hlen)
      as (it' & -> & [(k' & v' & ->)|(ri' & x & -> & Hinx & Hb)]).
    + eexists. split; [reflexivity|]. left. eexists _, _. reflexivity.
    + eexists. split; [reflexivity|]. right. exists ri', x.
      split; [reflexivity|]. split; [|exact Hb].
      eapply In_suffix; eassumption.
Qed.

(** What a positioned iterator shows. *)
Lemma positioned_shows it st :
  positioned data L cmp st it ->
  exists e,
    In e es
    /\ Iter.Valid it = true
    /\ Iter.status it = st
    /\ Iter.key it = Done (e_key e)
    /\ Iter.value it = Done (mkSlice (InBlock (e_voff e)) (e_vlen e))
    /\ iter_view it = Done (entry_view data e)
    /\ Iter.current_ it = e_off e
    /\ 0 <= e_off e /\ e_off e + 3 <= e_voff e /\ 0 <= e_vlen e
    /\ e_voff e + e_vlen e <= limit
    /\ bracket (Iter.restart_index_ it) (Iter.current_ it).
Proof.
  intros (ri & e & -> & Hin & Hb).
  destruct (entry_split _ _ WF e Hin) as (pre & suf & Heq & Hc & H0 & _).
  pose proof (chain_head _ _ _ _ _ _ Hc) as (_ & _ & Hvl & Hv & Hn).
  assert (Hlt : e_off e < limit) by apply Hc.
  exists e. split; [exact Hin|].
  split; [now apply (Valid_at_entry data L)|].
  split; [reflexivity|].
  unfold Iter.key, Iter.value.
  rewrite (Valid_at_entry data L) by assumption.
  split; [reflexivity|]. split; [reflexivity|].
  split; [now apply (iter_view_at_entry data L)|].
  split; [reflexivity|]. unfold e_next in Hn.
  repeat (split; [lia|]). exact Hb.
Qed.

End Iterator.
End WellFormed.
End PositionFacts.

Module PositionProperties.
Import Coding Block BlockFormat BlockState Examples BlockExamples ByteFacts CodingFacts ChainFacts IterFacts ScanFacts PrevFacts SeekFacts SeekCorrect IterationCorrect BlockProperties PositionFacts.

(** Property X1.
    On a well-formed block, whatever the state of the iterator
    and whatever the comparator and the order of the keys, [SeekToFirst],
    [SeekToLast] and [Seek] return with the status unchanged and leave the
    iterator either at the end (invalid, cursor on the restart array) or
    positioned: on an entry of the block, holding that entry's key and
    value, with a restart index whose restart point is at or before the
    entry and whose successor, if any, is at or after it. *)
Theorem positioning_calls_land (data : list byte) (L : Layout)
    (cmp : list byte -> list byte -> Z) (cur ri : Z) (k : list byte)
    (v : Slice) (st : Status) (target : list byte) :
  layout data = Some L ->
  (exists it',
      Iter.SeekToFirst (iter data L cmp cur ri k v st) = Done it'
      /\ (at_end data L cmp st it' \/ positioned data L cmp st it'))
  /\ (exists it',
        Iter.SeekToLast (iter data L cmp cur ri k v st) = Done it'
        /\ (at_end data L cmp st it' \/ positioned data L cmp st it'))
  /\ (exists it',
        Iter.Seek (iter data L cmp cur ri k v st) target = Done it'
        /\ (at_end data L cmp st it' \/ positioned data L cmp st it')).
Proof.
  intros Hlayout. pose proof (layout_well_formed _ _ Hlayout) as WF.
  split; [apply (SeekToFirst_lands data L WF)|].
  split; [apply (SeekToLast_lands data L WF)|].
  destruct (Seek_lands data L WF cmp target cur ri k v st)
    as (it' & HS & [Hend|[Hpos _]]); exists it'; auto.
Qed.

Lemma positioning_calls_land_witness :
  exists it',
    Iter.SeekToLast fresh_fruit = Done it'
    /\ (at_end fruit_block fruit_layout bytewise OK it'
        \/ positioned fruit_block fruit_layout bytewise OK it').
Proof.
  destruct (positioning_calls_land fruit_block fruit_layout bytewise 22 2 []
              empty_Slice OK [] eq_refl) as (_ & H & _).
  exact H.
Defined.

(** Property X2.
    On a well-formed block, [Next] and [Prev] called on a
    positioned iterator return with the status unchanged and leave the
    iterator at the end or positioned again: stepping never leaves the
    entries of the block and never loses the restart index. *)
Theorem stepping_keeps_position (data : list byte) (L : Layout)
    (cmp : list byte -> list byte -> Z) (st : Status) (it : Iter.Iter) :
  layout data = Some L ->
  positioned data L cmp st it ->
  (exists it',
      Iter.Next it = Done it'
      /\ (at_end data L cmp st it' \/ positioned data L cmp st it'))
  /\ (exists it',
        Iter.Prev it = Done it'
        /\ (at_end data L cmp st it' \/ positioned data L cmp st it')).
Proof.
  intros Hlayout Hpos. pose proof (layout_well_formed _ _ Hlayout) as WF.
  split; [now apply (Next_lands data L WF) | now apply (Prev_lands data L WF)].
Qed.

Lemma on_apple_positioned :
  positioned fruit_block fruit_layout bytewise OK on_apple.
Proof.
  exists 0, (mkEntry 0 0 (bytes [97; 112; 112; 108; 101]) 8 1).
  split; [reflexivity|]. split; [now left|].
  unfold restart_bracket. vm_compute. repeat split; intros; discriminate.
Defined.

Lemma stepping_keeps_position_witness :
  exists it',
    Iter.Next on_apple = Done it'
    /\ (at_end fruit_block fruit_layout bytewise OK it'
        \/ positioned fruit_block fruit_layout bytewise OK it').
Proof.
  destruct (stepping_keeps_position fruit_block fruit_layout bytewise OK
              on_apple eq_refl on_apple_positioned) as (H & _).
  exact H.
Defined.

(** Property X3.
    What a positioned iterator over a well-formed block gives
    its caller: it is valid, [key()] and [value()] return the key and the
    value of an entry of the block, the value lies after the entry's
    three-byte (or longer) header and ends at or before the restart array,
    and [restart_index_] brackets [current_].  An iterator at the end is
    invalid. *)
Theorem positioned_iterator_shows_entry (data : list byte) (L : Layout)
    (cmp : list byte -> list byte -> Z) (st : Status) (it : Iter.Iter) :
  layout data = Some L ->
  (positioned data L cmp st it ->
   exists e,
     In e (entries L)
     /\ Iter.Valid it = true
     /\ Iter.status it = st
     /\ Iter.key it = Done (e_key e)
     /\ Iter.value it = Done (mkSlice (InBlock (e_voff e)) (e_vlen e))
     /\ iter_view it = Done (entry_view data e)
     /\ Iter.current_ it = e_off e
     /\ 0 <= e_off e /\ e_off e + 3 <= e_voff e /\ 0 <= e_vlen e
     /\ e_voff e + e_vlen e <= restart_array L
     /\ restart_bracket data L (Iter.restart_index_ it) (Iter.current_ it))
  /\ (at_end data L cmp st it ->
      Iter.Valid it = false /\ Iter.status it = st
      /\ Iter.key it = Abort /\ Iter.value it = Abort).
Proof.
  intros Hlayout. pose proof (layout_well_formed _ _ Hlayout) as WF.
  split; [apply (positioned_shows data L WF)|].
  intros (k & v & ->).
  unfold Iter.key, Iter.value. rewrite (Valid_at_end data L).
  repeat split.
Qed.

Lemma positioned_iterator_shows_entry_witness :
  exists e,
    In e (entries fruit_layout)
    /\ Iter.key on_apple = Done (e_key e)
    /\ iter_view on_apple = Done (entry_view fruit_block e).
Proof.
  destruct (positioned_iterator_shows_entry fruit_block fruit_layout bytewise
              OK on_apple eq_refl) as (H & _).
  destruct (H on_apple_positioned) as (e & Hin & _ & _ & Hk & _ & Hv & _).
  exists e. split; [exact Hin|]. split; [exact Hk | exact Hv].
Defined.

(** Property X4.
    On a well-formed block, for every comparator (no order of
    the keys is assumed) and from every state, [Seek(target)] returns with
    the status unchanged, and when it leaves the iterator valid the key it
    stands on does not compare below [target]. *)
Theorem Seek_result_not_below_target (data : list byte) (L : Layout)
    (cmp : list byte -> list byte -> Z) (cur ri : Z) (k : list byte)
    (v : Slice) (st : Status) (target : list byte) :
  layout data = Some L ->
  exists it',
    Iter.Seek (iter data L cmp cur ri k v st) target = Done it'
    /\ Iter.status it' = st
    /\ (Iter.Valid it' = true ->
        exists k', Iter.key it' = Done k' /\ 0 <= cmp k' target).
Proof.
  intros Hlayout. pose proof (layout_well_formed _ _ Hlayout) as WF.
  destruct (Seek_lands data L WF cmp target cur ri k v st)
    as (it' & HS & [(k' & v' & Hend)|[Hpos Hge]]).
  - exists it'. split; [exact HS|]. subst it'.
    split; [reflexivity|]. rewrite (Valid_at_end data L). discriminate.
  - destruct (positioned_shows data L WF cmp it' st Hpos)
      as (e & _ & Hvalid & Hst & _).
    exists it'. split; [exact HS|].
    split; [exact Hst|]. intros _. exists (Iter.key_ it').
    split; [|exact Hge]. unfold Iter.key. rewrite Hvalid. reflexivity.
Qed.

Lemma Seek_result_not_below_target_witness :
  exists it',
    Iter.Seek fresh_fruit (bytes [97; 113]) = Done it'
    /\ Iter.status it' = OK.
Proof.
  destruct (Seek_result_not_below_target fruit_block fruit_layout bytewise
              22 2 [] empty_Slice OK (bytes [97; 113]) eq_refl)
    as (it' & HS & Hst & _).
  exists it'. split; [exact HS | exact Hst].
Defined.

(** Property X5.
    On a well-formed block, for two consecutive entries [e1],
    [e2] and whatever restart index (in range) the iterator holds: [Next]
    from [e1] lands on [e2] and [Prev] from there is back on [e1]; [Prev]
    from [e2] lands on [e1] and [Next] from there is back on [e2].  Only
    the restart index may differ after the round trip. *)
Theorem Next_Prev_round_trip (data : list byte) (L : Layout)
    (cmp : list byte -> list byte -> Z) (pre : list Entry) (e1 e2 : Entry)
    (suf : list Entry) (ri : Z) (st : Status) :
  layout data = Some L ->
  entries L = pre ++ e1 :: e2 :: suf ->
  0 <= ri < restart_count L ->
  (exists ri2 ri1,
      Iter.Next (at_entry data L cmp ri e1 st)
      = Done (at_entry data L cmp ri2 e2 st)
      /\ Iter.Prev (at_entry data L cmp ri2 e2 st)
         = Done (at_entry data L cmp ri1 e1 st))
  /\ (exists ri1 ri2,
        Iter.Prev (at_entry data L cmp ri e2 st)
        = Done (at_entry data L cmp ri1 e1 st)
        /\ Iter.Next (at_entry data L cmp ri1 e1 st)
           = Done (at_entry data L cmp ri2 e2 st)).
Proof.
  intros Hlayout Heq Hri. pose proof (layout_well_formed _ _ Hlayout) as WF.
  pose proof (wf_chain _ _ WF) as Hw. rewrite Heq in Hw.
  apply chain_split in Hw as (Hc & H0 & _).
  split.
  - destruct (Next_entry data L WF cmp _ _ _ _ ri st Hc H0 Hri)
      as (ri2 & HN & Hri2).
    destruct (Prev_entry data L WF cmp _ _ _ _ ri2 st Heq ltac:(lia))
      as (ri1 & HP & _).
    exists ri2, ri1. split; assumption.
  - destruct (Prev_entry data L WF cmp _ _ _ _ ri st Heq Hri)
      as (ri1 & HP & Hri1).
    destruct (Next_entry data L WF cmp _ _ _ _ ri1 st Hc H0 Hri1)
      as (ri2 & HN & _).
    exists ri1, ri2. split; assumption.
Qed.

Lemma Next_Prev_round_trip_witness :
  exists ri2 ri1,
    Iter.Next on_apple
    = Done (at_entry fruit_block fruit_layout bytewise ri2
              (mkEntry 9 3 (bytes [97; 112; 112; 108; 121]) 14 1) OK)
    /\ Iter.Prev (at_entry fruit_block fruit_layout bytewise ri2
                    (mkEntry 9 3 (bytes [97; 112; 112; 108; 121]) 14 1) OK)
       = Done (at_entry fruit_block fruit_layout bytewise ri1
                 (mkEntry 0 0 (bytes [97; 112; 112; 108; 101]) 8 1) OK).
Proof.
  destruct (Next_Prev_round_trip fruit_block fruit_layout bytewise []
              (mkEntry 0 0 (bytes [97; 112; 112; 108; 101]) 8 1)
              (mkEntry 9 3 (bytes [97; 112; 112; 108; 121]) 14 1)
              [mkEntry 15 0 (bytes [98; 97; 116]) 21 1] 0 OK
              eq_refl eq_refl ltac:(vm_compute; split; congruence))
    as (H & _).
  exact H.
Defined.

(** [Seek] lands on the first entry that is not below the target. *)
Lemma Seek_found (data : list byte) (L : Layout)
    (cmp : list byte -> list byte -> Z) (target : list byte)
    (pre : list Entry) (x : Entry) (suf : list Entry)
    (cur ri : Z) (k : list byte) (v : Slice) (st : Status) :
  well_formed data L ->
  keys_ascending cmp (entries L) = true ->
  (forall a b c, cmp a b < 0 -> cmp b c < 0 -> cmp a c < 0) ->
  entries L = pre ++ x :: suf ->
  Forall (below cmp target) pre -> 0 <= cmp (e_key x) target ->
  exists ri', Iter.Seek (iter data L cmp cur ri k v st) target
              = Done (at_entry data L cmp ri' x st).
Proof.
  intros WF Hsorted Htrans Heq Hpre Hx.
  pose proof (limit_range _ _ WF) as Hr.
  pose proof (entries_fit _ _ WF) as Hfit.
  destruct (Seek_restart_ok cmp Htrans data L WF Hsorted target cur ri k v st
              (S (Z.to_nat (restart_count L))) 0 (restart_count L - 1)
              ltac:(lia) ltac:(lia) ltac:(lia) ltac:(now left)
              ltac:(intros; lia))
    as (index & Hbs & Hindex & HA & HB).
  unfold Iter.Seek.
  change (Iter.num_restarts_ (iter data L cmp cur ri k v st))
    with (restart_count L).
  rewrite (wrap32_small (restart_count L - 1)) by lia.
  rewrite Hbs. cbn [obind].
  rewrite (SeekToRestartPoint_ok data L) by lia. cbn [obind].
  change (Iter.restarts_ (iter data L cmp cur index [] _ st))
    with (restart_array L).
  assert (Hne : entries L <> []) by (rewrite Heq; destruct pre; discriminate).
  destruct (restart_suffix data L WF index Hindex Hne)
    as (pre' & e & tail & Heq' & Hoff & Hc & Hk & Hall').
  assert (Hrun : exists l, pre = pre' ++ l /\ e :: tail = l ++ x :: suf).
  { pose proof Heq as Heq0. rewrite Heq' in Heq0.
    apply app_eq_app in Heq0 as (l & [[-> Hl]|[-> Hl]]).
    - destruct l as [|y l]; cbn [app] in Hl.
      + injection Hl as -> ->. exists []. rewrite !app_nil_r.
        split; reflexivity.
      + injection Hl as <- ->. exfalso.
        apply Forall_app in Hall' as [_ Hall'].
        apply Forall_cons in Hall' as [Hxe _].
        pose proof (wf_chain _ _ WF) as Hw. rewrite Heq in Hw.
        apply chain_split in Hw as (Hcx & H0x & _).
        pose proof (chain_head _ _ _ _ _ _ Hcx) as (_ & _ & Hvl & Hv & _).
        destruct HA as [->|HA].
        * rewrite (restart_first _ _ WF) in Hoff. unfold e_next in *. lia.
        * rewrite (restart_key_entry data L WF index _ _ _ Heq' Hoff) in HA.
          pose proof Hsorted as Hs. rewrite Heq' in Hs.
          apply ascending_split in Hs as [Hs _]; [|exact Htrans].
          apply Forall_app in Hs as [_ Hs]. apply Forall_cons in Hs as [Hs _].
          pose proof (Htrans _ _ _ Hs HA). lia.
    - exists l. split; [reflexivity | exact Hl]. }
  destruct Hrun as (l & -> & Hl).
  rewrite Hl in Hc.
  apply Forall_app in Hpre as [Hpre' Hpre].
  assert (Hk' : key_ready [] (last_key [] pre') (hd x l)).
  { destruct l as [|y l]; cbn [app hd] in *; injection Hl as <-; exact Hk. }
  assert (Hlen : (length l < S (Z.to_nat (restart_array L)))%nat).
  { rewrite Heq in Hfit. rewrite !length_app in Hfit. lia. }
  destruct (Seek_scan_found cmp data L WF target x suf l
              (S (Z.to_nat (restart_array L)))
              (restart_point data (restart_array L) index) _ cur index []
              (restart_point data (restart_array L) index) 0 st
              Hc Hpre Hx (restart_nonneg data L index Hindex) ltac:(lia)
              Hk' Hindex Hlen) as (ri' & Hscan).
  rewrite Hscan. exists ri'. reflexivity.
Qed.

(** Property X6.
    On a well-formed block whose keys ascend strictly under a
    transitive comparator, [Seek] for the key of an entry [x] of the block
    (a key the comparator finds equal to itself) leaves the iterator valid
    on [x], showing its key and its value, with the status unchanged. *)
Theorem Seek_finds_present_key (data : list byte) (L : Layout)
    (cmp : list byte -> list byte -> Z) (x : Entry)
    (cur ri : Z) (k : list byte) (v : Slice) (st : Status) :
  layout data = Some L ->
  keys_ascending cmp (entries L) = true ->
  (forall a b c, cmp a b < 0 -> cmp b c < 0 -> cmp a c < 0) ->
  In x (entries L) ->
  cmp (e_key x) (e_key x) = 0 ->
  exists it',
    Iter.Seek (iter data L cmp cur ri k v st) (e_key x) = Done it'
    /\ Iter.Valid it' = true
    /\ Iter.status it' = st
    /\ iter_view it' = Done (entry_view data x).
Proof.
  intros Hlayout Hsorted Htrans Hin Hrefl.
  pose proof (layout_well_formed _ _ Hlayout) as WF.
  destruct (entry_split _ _ WF x Hin) as (pre & suf & Heq & Hc & _).
  assert (Hlt : e_off x < restart_array L) by apply Hc.
  pose proof Hsorted as Hs. rewrite Heq in Hs.
  apply ascending_split in Hs as [Hs _]; [|exact Htrans].
  destruct (Seek_found data L cmp (e_key x) pre x suf cur ri k v st WF
              Hsorted Htrans Heq Hs ltac:(lia)) as (ri' & HS).
  eexists. split; [exact HS|].
  split; [now apply (Valid_at_entry data L)|].
  split; [reflexivity|]. now apply (iter_view_at_entry data L).
Qed.

Lemma Seek_finds_present_key_witness :
  exists it',
    Iter.Seek fresh_fruit (bytes [97; 112; 112; 108; 121]) = Done it'
    /\ iter_view it'
       = Done (9, bytes [97; 112; 112; 108; 121], bytes [50]).
Proof.
  destruct (Seek_finds_present_key fruit_block fruit_layout bytewise
              (mkEntry 9 3 (bytes [97; 112; 112; 108; 121]) 14 1)
              22 2 [] empty_Slice OK eq_refl eq_refl bytewise_trans
              ltac:(right; left; reflexivity) eq_refl)
    as (it' & HS & _ & _ & Hv).
  exists it'. split; [exact HS | exact Hv].
Defined.

(** Property X7.
    On a well-formed block without entries (a single restart
    point at offset 0), [SeekToFirst], [SeekToLast] and [Seek] all leave the
    iterator invalid with the status unchanged. *)
Theorem empty_block_stays_invalid (data : list byte) (L : Layout)
    (cmp : list byte -> list byte -> Z) (cur ri : Z) (k : list byte)
    (v : Slice) (st : Status) (target : list byte) :
  layout data = Some L ->
  entries L = [] ->
  (exists it',
      Iter.SeekToFirst (iter data L cmp cur ri k v st) = Done it'
      /\ Iter.Valid it' = false /\ Iter.status it' = st)
  /\ (exists it',
        Iter.SeekToLast (iter data L cmp cur ri k v st) = Done it'
        /\ Iter.Valid it' = false /\ Iter.status it' = st)
  /\ (exists it',
        Iter.Seek (iter data L cmp cur ri k v st) target = Done it'
        /\ Iter.Valid it' = false /\ Iter.status it' = st).
Proof.
  intros Hlayout Hes. pose proof (layout_well_formed _ _ Hlayout) as WF.
  split; [|split].
  - rewrite (SeekToFirst_empty data L WF) by exact Hes.
    eexists. split; [reflexivity|]. split; [apply (Valid_at_end data L)|].
    reflexivity.
  - rewrite (SeekToLast_empty data L WF) by exact Hes.
    eexists. split; [reflexivity|]. split; [apply (Valid_at_end data L)|].
    reflexivity.
  - destruct (Seek_lands data L WF cmp target cur ri k v st)
      as (it' & HS & [(k' & v' & ->)|[(ri' & e & _ & Hin & _) _]]).
    + eexists. split; [exact HS|]. split; [apply (Valid_at_end data L)|].
      reflexivity.
    + rewrite Hes in Hin. destruct Hin.
Qed.

Lemma empty_block_stays_invalid_witness :
  exists it',
    Iter.Seek (Iter.mkIter bytewise empty_block 0 1 0 1 [] empty_Slice OK)
              (bytes [97])
    = Done it'
    /\ Iter.Valid it' = false /\ Iter.status it' = OK.
Proof.
  destruct (empty_block_stays_invalid empty_block empty_layout bytewise
              0 1 [] empty_Slice OK (bytes [97]) eq_refl eq_refl)
    as (_ & _ & H).
  exact H.
Defined.

(** *** Any block *)

Lemma Seek_restart_forgets fuel c d r nr s target :
  forall left right cur1 ri1 k1 v1 cur2 ri2 k2 v2,
  Iter.Seek_restart fuel (Iter.mkIter c d r nr cur1 ri1 k1 v1 s) target
    left right
  = Iter.Seek_restart fuel (Iter.mkIter c d r nr cur2 ri2 k2 v2 s) target
      left right.
Proof.
  induction fuel as [|fuel IH]; intros; [reflexivity|].
  cbn [Iter.Seek_restart].
  destruct (left <? right); [|reflexivity].
  unfold Iter.GetRestartPoint.
  cbn [Iter.num_restarts_ Iter.data_ Iter.restarts_].
  destruct (_ <? nr); [|reflexivity]. cbn [assert obind].
  destruct (DecodeEntry _ _ _) as [[[[p sh] ns] vl]|]; [|reflexivity].
  destruct (negb _); [reflexivity|].
  destruct (_ <=? zlen d); [|reflexivity]. cbn [assert obind].
  unfold Iter.Compare. cbn [Iter.comparator_].
  destruct (_ <? 0); apply IH.
Qed.

(** Property X8.
    On any block, [SeekToFirst], [SeekToLast] and [Seek] do
    not depend on where the iterator stood: two iterators over the same
    block with the same comparator and status come out of them equal,
    whatever cursor, restart index, key and value each of them held. *)
Theorem positioning_forgets_position (it1 it2 : Iter.Iter)
    (target : list byte) :
  same_block it1 it2 ->
  Iter.SeekToFirst it1 = Iter.SeekToFirst it2
  /\ Iter.SeekToLast it1 = Iter.SeekToLast it2
  /\ Iter.Seek it1 target = Iter.Seek it2 target.
Proof.
  destruct it1 as [c d r nr cur1 ri1 k1 v1 s].
  destruct it2 as [c2 d2 r2 nr2 cur2 ri2 k2 v2 s2].
  unfold same_block. cbn. intros (<- & <- & <- & <- & <-).
  split; [|split].
  - unfold Iter.SeekToFirst, Iter.SeekToRestartPoint, Iter.GetRestartPoint.
    cbn. destruct (0 <? nr); reflexivity.
  - unfold Iter.SeekToLast, Iter.SeekToRestartPoint, Iter.GetRestartPoint.
    cbn -[Iter.scan_while_before wrap32].
    destruct (_ <? nr); [|reflexivity]. cbn [assert obind].
    cbn [Iter.scan_while_before]. reflexivity.
  - unfold Iter.Seek. cbn [Iter.num_restarts_].
    rewrite (Seek_restart_forgets _ c d r nr s target _ _ cur1 ri1 k1 v1
               cur2 ri2 k2 v2).
    destruct (Iter.Seek_restart _ _ _ _ _) as [[it|index]| |];
      [reflexivity| |reflexivity|reflexivity].
    cbn [obind].
    unfold Iter.SeekToRestartPoint, Iter.GetRestartPoint.
    cbn -[Iter.Seek_scan].
    destruct (index <? nr); [|reflexivity]. cbn [assert obind].
    cbn [Iter.Seek_scan]. reflexivity.
Qed.

Lemma positioning_forgets_position_witness :
  Iter.Seek on_apple (bytes [98]) = Iter.Seek fresh_fruit (bytes [98]).
Proof.
  destruct (positioning_forgets_position on_apple fresh_fruit (bytes [98])
              ltac:(repeat split)) as (_ & _ & H).
  exact H.
Defined.

(** *** The status of an iterator *)

Lemma obind_Done {A B : Type} (m : outcome A) (f : A -> outcome B) (r : B) :
  obind m f = Done r -> exists a, m = Done a /\ f a = Done r.
Proof. destruct m; cbn; intros H; [eauto | discriminate | discriminate]. Qed.

Lemma moved_refl it : moved it it.
Proof. unfold moved. auto 10. Qed.

Lemma moved_trans a b c : moved a b -> moved b c -> moved a c.
Proof.
  intros (A1 & A2 & A3 & A4 & A5) (B1 & B2 & B3 & B4 & B5).
  unfold moved. rewrite B1, B2, B3, B4.
  repeat (split; [assumption|]).
  destruct B5 as [B5|B5]; [rewrite B5; exact A5 | now right].
Qed.

Lemma moved_fields it cur ri k v :
  moved it (Iter.mkIter (Iter.comparator_ it) (Iter.data_ it)
              (Iter.restarts_ it) (Iter.num_restarts_ it) cur ri k v
              (Iter.status_ it)).
Proof. unfold moved. cbn. auto 10. Qed.

Lemma moved_CorruptionError it : moved it (Iter.CorruptionError it).
Proof. unfold moved. cbn. auto 10. Qed.

Ltac solve_moved :=
  unfold moved, Iter.CorruptionError; iter_fields; auto 10.

Ltac case_if H :=
  match type of H with
  | context [if ?c then _ else _] => destruct c eqn:?
  end.

Ltac bind_in H x Hx :=
  apply obind_Done in H as (x & Hx & H).

Lemma advance_restart_index_moved fuel : forall it it',
  Iter.advance_restart_index fuel it = Done it' -> moved it it'.
Proof.
  induction fuel as [|fuel IH]; intros it it' H; [discriminate|].
  cbn [Iter.advance_restart_index] in H.
  case_if H; [|injection H as <-; apply moved_refl].
  bind_in H r Hr.
  case_if H; [|injection H as <-; apply moved_refl].
  apply IH in H. eapply moved_trans; [|exact H]. apply moved_fields.
Qed.

Lemma ParseNextKey_moved it b it' :
  Iter.ParseNextKey it = Done (b, it') -> moved it it'.
Proof.
  unfold Iter.ParseNextKey. intros H. bind_in H current Hc.
  cbv zeta in H.
  case_if H; [injection H as <- <-; solve_moved|].
  destruct (DecodeEntry _ _ _) as [[[[p sh] ns] vl]|];
    [|injection H as <- <-; solve_moved].
  case_if H; [injection H as <- <-; solve_moved|].
  bind_in H within Hwithin.
  bind_in H it2 Hadv. injection H as <- <-.
  apply advance_restart_index_moved in Hadv.
  eapply moved_trans; [|exact Hadv]. solve_moved.
Qed.

Lemma SeekToRestartPoint_moved it j it' :
  Iter.SeekToRestartPoint it j = Done it' -> moved it it'.
Proof.
  unfold Iter.SeekToRestartPoint. intros H. bind_in H offset Ho.
  injection H as <-. solve_moved.
Qed.

Lemma scan_while_before_moved fuel : forall it bound it',
  Iter.scan_while_before fuel it bound = Done it' -> moved it it'.
Proof.
  induction fuel as [|fuel IH]; intros it bound it' H; [discriminate|].
  cbn [Iter.scan_while_before] in H.
  bind_in H r Hp. destruct r as [parsed it1].
  apply ParseNextKey_moved in Hp.
  destruct parsed; [|injection H as <-; exact Hp].
  bind_in H next Hn.
  case_if H; [|injection H as <-; exact Hp].
  apply IH in H. eapply moved_trans; eassumption.
Qed.

Lemma Seek_scan_moved fuel : forall it target it',
  Iter.Seek_scan fuel it target = Done it' -> moved it it'.
Proof.
  induction fuel as [|fuel IH]; intros it target it' H; [discriminate|].
  cbn [Iter.Seek_scan] in H.
  bind_in H r Hp. destruct r as [parsed it1].
  apply ParseNextKey_moved in Hp.
  destruct parsed; cbn [negb] in H; [|injection H as <-; exact Hp].
  case_if H; [injection H as <-; exact Hp|].
  apply IH in H. eapply moved_trans; eassumption.
Qed.

Lemma Prev_find_restart_moved fuel : forall it original r,
  Iter.Prev_find_restart fuel it original = Done r ->
  moved it (match r with inl a => a | inr a => a end).
Proof.
  induction fuel as [|fuel IH]; intros it original r H; [discriminate|].
  cbn [Iter.Prev_find_restart] in H.
  bind_in H p Hp.
  case_if H; [|injection H as <-; apply moved_refl].
  case_if H; [injection H as <-; apply moved_fields|].
  apply IH in H. eapply moved_trans; [|exact H]. apply moved_fields.
Qed.

Lemma Seek_restart_moved fuel : forall it target left right it',
  Iter.Seek_restart fuel it target left right = Done (inl it') ->
  moved it it'.
Proof.
  induction fuel as [|fuel IH]; intros it target left right it' H;
    [discriminate|].
  cbn [Iter.Seek_restart] in H.
  case_if H; [|discriminate].
  bind_in H region Hr.
  destruct (DecodeEntry _ _ _) as [[[[p sh] ns] vl]|];
    [|injection H as <-; apply moved_CorruptionError].
  case_if H; [injection H as <-; apply moved_CorruptionError|].
  bind_in H within Hwithin.
  case_if H; eapply IH; exact H.
Qed.

(** Property X9.
    On any block, whichever of [SeekToFirst], [SeekToLast],
    [Seek], [Next] and [Prev] returns, the iterator still has its
    comparator, block and restart array, and its status is the one it had
    or [Corruption("bad entry in block")]: no call sets the status back to
    [OK] once an error has been recorded. *)
Theorem calls_keep_block_and_error (it it' : Iter.Iter) (target : list byte) :
  Iter.SeekToFirst it = Done it' \/ Iter.SeekToLast it = Done it'
  \/ Iter.Seek it target = Done it' \/ Iter.Next it = Done it'
  \/ Iter.Prev it = Done it' ->
  moved it it' /\ (Iter.status it <> OK -> Iter.status it' <> OK).
Proof.
  intros H.
  assert (Hm : moved it it').
  { destruct H as [H|[H|[H|[H|H]]]].
    - unfold Iter.SeekToFirst in H. bind_in H it1 H1.
      bind_in H r Hp. destruct r as [b it2]. injection H as <-.
      apply SeekToRestartPoint_moved in H1. apply ParseNextKey_moved in Hp.
      eapply moved_trans; eassumption.
    - unfold Iter.SeekToLast in H. bind_in H it1 H1.
      apply SeekToRestartPoint_moved in H1.
      apply scan_while_before_moved in H.
      eapply moved_trans; eassumption.
    - unfold Iter.Seek in H. cbv zeta in H. bind_in H found Hf.
      destruct found as [it1|index].
      + injection H as <-. eapply Seek_restart_moved. exact Hf.
      + bind_in H it1 H1. apply SeekToRestartPoint_moved in H1.
        apply Seek_scan_moved in H. eapply moved_trans; eassumption.
    - unfold Iter.Next in H. bind_in H u Hu.
      bind_in H r Hp. destruct r as [b it2]. injection H as <-.
      eapply ParseNextKey_moved. exact Hp.
    - unfold Iter.Prev in H. bind_in H u Hu. cbv zeta in H.
      bind_in H found Hf. apply Prev_find_restart_moved in Hf.
      destruct found as [it1|it1].
      + injection H as <-. exact Hf.
      + bind_in H it2 H2. apply SeekToRestartPoint_moved in H2.
        apply scan_while_before_moved in H.
        eapply moved_trans; [exact Hf|]. eapply moved_trans; eassumption. }
  split; [exact Hm|].
  destruct Hm as (_ & _ & _ & _ & [Hs|Hs]); unfold Iter.status;
    rewrite Hs; [auto | discriminate].
Qed.

Lemma calls_keep_block_and_error_witness :
  moved on_cut_block
    (Iter.mkIter bytewise cut_block 2 1 2 1 [] empty_Slice
       (Corruption "bad entry in block")).
Proof.
  apply (calls_keep_block_and_error on_cut_block _ []).
  left. vm_compute. reflexivity.
Defined.

(** *** Entry headers *)

Lemma DecodeEntry_room data p limit q shared non_shared value_length :
  DecodeEntry data p limit = Some (q, shared, non_shared, value_length) ->
  wrap32 (non_shared + value_length) <= wrap32 (limit - q).
Proof.
  unfold DecodeEntry.
  destruct (limit - p <? 3); [discriminate|]. cbv zeta.
  match goal with
  | |- match ?h with Some _ => _ | None => _ end = _ -> _ =>
      destruct h as [[[[p' sh] ns] vl]|]; [|discriminate]
  end.
  destruct (Z.ltb_spec (wrap32 (limit - p')) (wrap32 (ns + vl)));
    [discriminate|].
  intros [= <- <- <- <-]. lia.
Qed.

(** Property X10.
    When [DecodeEntry] returns a pointer, it has read at
    least three header bytes and has not moved past [limit], the three
    lengths are non-negative, and, when the room up to [limit] fits 32 bits
    and the sum of the two lengths does not wrap, the key delta and the
    value that follow the header end at or before [limit]. *)
Theorem DecodeEntry_stays_within_limit (data : list byte) (p limit q : Z)
    (shared non_shared value_length : Z) :
  DecodeEntry data p limit = Some (q, shared, non_shared, value_length) ->
  p + 3 <= q <= limit
  /\ 0 <= shared /\ 0 <= non_shared /\ 0 <= value_length
  /\ (limit - p < 2 ^ 32 -> non_shared + value_length < 2 ^ 32 ->
      q + non_shared + value_length <= limit).
Proof.
  intros H. pose proof (DecodeEntry_bounds _ _ _ _ _ _ _ H) as (Hq & Hs & Hn & Hv).
  repeat (split; [assumption|]).
  intros Hroom Hsum. apply DecodeEntry_room in H.
  rewrite !wrap32_small in H by lia. lia.
Qed.

Lemma DecodeEntry_stays_within_limit_witness :
  DecodeEntry fruit_block 9 22 = Some (12, 3, 2, 1)
  /\ 12 + 2 + 1 <= 22.
Proof.
  split; [reflexivity|].
  apply (DecodeEntry_stays_within_limit fruit_block 9 22 12 3 2 1 eq_refl);
    reflexivity.
Defined.

Lemma ParseNextKey_corruption_witness :
  exists it',
    Iter.ParseNextKey on_cut_block = Done (false, it')
    /\ Iter.status it' = Corruption "bad entry in block"
    /\ Iter.Valid it' = false.
Proof.
  destruct (ParseNextKey_corruption on_cut_block 0 0 eq_refl eq_refl
              (or_introl eq_refl))
    as (it' & HP & Hst & Hv & _).
  exists it'. split; [exact HP|]. split; [exact Hst | exact Hv].
Defined.

End PositionProperties.

Module SliceFacts.
Import ByteFacts.

Lemma slice_bytes_take_drop (l : list byte) (p n : Z) :
  0 <= p -> 0 <= n -> p + n <= zlen l ->
  slice_bytes l p n = take (Z.to_nat n) (drop (Z.to_nat p) l).
Proof.
  intros Hp Hn Hle. unfold slice_bytes.
  rewrite (Z.min_l n), (Z.min_l p) by lia. reflexivity.
Qed.

Lemma slice_bytes_length (l : list byte) (p n : Z) :
  0 <= p -> 0 <= n -> p + n <= zlen l -> zlen (slice_bytes l p n) = n.
Proof.
  intros Hp Hn Hle. rewrite slice_bytes_take_drop by assumption.
  unfold zlen in *. rewrite length_take, length_drop. lia.
Qed.

Lemma slice_bytes_split (l : list byte) (p a b : Z) :
  0 <= p -> 0 <= a -> 0 <= b -> p + a + b <= zlen l ->
  slice_bytes l p (a + b) = slice_bytes l p a ++ slice_bytes l (p + a) b.
Proof.
  intros Hp Ha Hb Hle. rewrite !slice_bytes_take_drop by lia.
  rewrite !Z2Nat.inj_add by lia.
  rewrite <- take_take_drop, drop_drop. reflexivity.
Qed.

Lemma slice_bytes_whole (l : list byte) (p : Z) :
  0 <= p <= zlen l -> slice_bytes l 0 p ++ slice_bytes l p (zlen l - p) = l.
Proof.
  intros Hp. rewrite !slice_bytes_take_drop by lia.
  change (Z.to_nat 0) with 0%nat. rewrite drop_0.
  rewrite (take_ge (drop _ _)) by (rewrite length_drop; unfold zlen; lia).
  apply take_drop.
Qed.

Lemma slice_bytes_inner (l : list byte) (p n m : Z) :
  0 <= p -> 0 <= m <= n -> p + n <= zlen l ->
  slice_bytes (slice_bytes l p n) 0 m = slice_bytes l p m.
Proof.
  intros Hp Hm Hle.
  rewrite (slice_bytes_take_drop _ 0 m)
    by (rewrite ?slice_bytes_length; lia).
  rewrite !slice_bytes_take_drop by lia.
  change (Z.to_nat 0) with 0%nat. rewrite drop_0.
  rewrite take_take. f_equal. lia.
Qed.

Lemma slice_bytes_cons (l : list byte) (p n : Z) :
  0 <= p -> 0 <= n -> p + n + 1 <= zlen l ->
  slice_bytes l p (n + 1) = byte_of_Z (byte_at l p) :: slice_bytes l (p + 1) n.
Proof.
  intros Hp Hn Hle.
  replace (n + 1) with (1 + n) by lia.
  rewrite slice_bytes_split by lia. f_equal.
  rewrite slice_bytes_take_drop by lia. change (Z.to_nat 1) with 1%nat.
  unfold byte_at. destruct (Z.ltb_spec p 0); [lia|].
  destruct (nth_error l (Z.to_nat p)) as [x|] eqn:E.
  - apply nth_error_split in E as (l1 & l2 & -> & Hlen).
    rewrite <- Hlen, drop_app_length. cbn [take].
    f_equal. unfold byte_of_Z.
    pose proof (byte_to_Z_range x).
    rewrite Z.mod_small by lia. unfold byte_to_Z.
    rewrite N2Z.id, Byte.of_to_N. reflexivity.
  - apply nth_error_None in E. unfold zlen in Hle. lia.
Qed.

End SliceFacts.

Module KeyFacts.
Import Coding DBFormat Keys ByteFacts CodingFacts DBFormatFacts SliceFacts.

(** The low byte of a little-endian value is its first byte. *)
Lemma DecodeFixed64_low data p :
  Z.land (DecodeFixed64 data p) 255 = byte_at data p.
Proof.
  unfold DecodeFixed64. rewrite DecodeFixed_arith.
  change 255 with (Z.ones 8). rewrite Z.land_ones by lia.
  change (2 ^ 8) with 256. pose proof (byte_at_range data p).
  replace (byte_at data p + 256 * DecodeFixed 7 data (p + 1))
    with (byte_at data p + DecodeFixed 7 data (p + 1) * 256) by lia.
  rewrite Z.mod_add by lia. apply Z.mod_small. lia.
Qed.

(** Encoding what was decoded gives the bytes back. *)
Lemma EncodeFixed_DecodeFixed n : forall data p,
  0 <= p -> p + Z.of_nat n <= zlen data ->
  EncodeFixed n (DecodeFixed n data p) = slice_bytes data p (Z.of_nat n).
Proof.
  induction n as [|n IH]; intros data p Hp Hle.
  - cbn [EncodeFixed]. rewrite slice_bytes_take_drop by lia. reflexivity.
  - rewrite DecodeFixed_arith. cbn [EncodeFixed].
    pose proof (byte_at_range data p) as Hb.
    pose proof (DecodeFixed_nonneg n data (p + 1)) as Hr.
    replace (byte_at data p + 256 * DecodeFixed n data (p + 1))
      with (byte_at data p + DecodeFixed n data (p + 1) * 256) by lia.
    change 255 with (Z.ones 8). rewrite Z.land_ones by lia.
    change (2 ^ 8) with 256. rewrite Z.mod_add by lia.
    rewrite (Z.mod_small (byte_at data p)) by lia.
    rewrite Z.shiftr_div_pow2 by lia. change (2 ^ 8) with 256.
    rewrite Z.div_add by lia. rewrite (Z.div_small (byte_at data p)) by lia.
    rewrite Z.add_0_l. rewrite IH by lia.
    replace (Z.of_nat (S n)) with (Z.of_nat n + 1) by lia.
    rewrite slice_bytes_cons by lia. reflexivity.
Qed.

(** Property X12.
    [ParseInternalKey] returns false exactly on keys shorter than eight
    bytes and on keys whose tag has a low byte (the first of its eight
    bytes) other than 0 and 1. *)
Theorem ParseInternalKey_rejects (internal_key : list byte) :
  ParseInternalKey internal_key = None
  <-> zlen internal_key < 8
      \/ 2 <= byte_at internal_key (zlen internal_key - 8).
Proof.
  unfold ParseInternalKey. cbv zeta. rewrite DecodeFixed64_low.
  destruct (Z.ltb_spec (zlen internal_key) 8) as [Hs|Hs].
  - split; [now left | reflexivity].
  - change (ValueType_code kTypeValue) with 1.
    destruct (Z.leb_spec (byte_at internal_key (zlen internal_key - 8)) 1).
    + split; [discriminate | lia].
    + split; [intros _; right; lia | reflexivity].
Qed.

(** Property X13.
    When [ParseInternalKey] succeeds, its three results are what the
    separate accessors give: the user key is [ExtractUserKey], the type is
    [ExtractValueType], the key is as long as [InternalKeyEncodingLength]
    says, and the sequence number is at most [kMaxSequenceNumber]. *)
Theorem ParseInternalKey_agrees (internal_key : list byte)
    (result : ParsedInternalKey) :
  ParseInternalKey internal_key = Some result ->
  ExtractUserKey internal_key = Some (user_key result)
  /\ ExtractValueType internal_key = Some (ValueType_code (type result))
  /\ InternalKeyEncodingLength result = zlen internal_key
  /\ 0 <= sequence result <= kMaxSequenceNumber.
Proof.
  unfold ParseInternalKey, ExtractUserKey, ExtractValueType,
    InternalKeyEncodingLength. cbv zeta.
  rewrite DecodeFixed64_low.
  destruct (Z.ltb_spec (zlen internal_key) 8) as [Hs|Hs]; [discriminate|].
  change (ValueType_code kTypeValue) with 1.
  pose proof (byte_at_range internal_key (zlen internal_key - 8)) as Hb.
  destruct (Z.leb_spec (byte_at internal_key (zlen internal_key - 8)) 1)
    as [Hc|Hc]; [|discriminate].
  intros [= <-]. cbn [user_key type sequence].
  split; [reflexivity|]. split.
  - destruct (Z.eqb_spec (byte_at internal_key (zlen internal_key - 8)) 0)
      as [->|Hne]; [reflexivity|].
    cbn [ValueType_code]. f_equal. lia.
  - split.
    + rewrite slice_bytes_length by lia. lia.
    + pose proof (DecodeFixed_bound 8 internal_key (zlen internal_key - 8))
        as Hd.
      fold (DecodeFixed64 internal_key (zlen internal_key - 8)) in Hd.
      change (2 ^ (8 * Z.of_nat 8)) with (2 ^ 64) in Hd.
      rewrite Z.shiftr_div_pow2 by lia.
      change kMaxSequenceNumber with (2 ^ 56 - 1).
      split.
      * apply Z.div_pos; lia.
      * assert (DecodeFixed64 internal_key (zlen internal_key - 8) / 2 ^ 8
                < 2 ^ 56); [|lia].
        apply Z.div_lt_upper_bound; [lia|].
        change (2 ^ 8 * 2 ^ 56) with (2 ^ 64). lia.
Qed.

Lemma ParseInternalKey_agrees_witness :
  ExtractUserKey (bytes [107; 1; 5; 0; 0; 0; 0; 0; 0]) = Some (bytes [107])
  /\ ExtractValueType (bytes [107; 1; 5; 0; 0; 0; 0; 0; 0]) = Some 1.
Proof.
  destruct (ParseInternalKey_agrees (bytes [107; 1; 5; 0; 0; 0; 0; 0; 0])
              (mkParsedInternalKey (bytes [107]) 5 kTypeValue) eq_refl)
    as (H1 & H2 & _).
  split; [exact H1 | exact H2].
Defined.

Lemma reencode (internal_key : list byte) (result : ParsedInternalKey) :
  ParseInternalKey internal_key = Some result ->
  AppendInternalKey [] result = internal_key.
Proof.
  unfold ParseInternalKey, AppendInternalKey, PackSequenceAndType,
    EncodeFixed64. cbv zeta.
  rewrite DecodeFixed64_low.
  destruct (Z.ltb_spec (zlen internal_key) 8) as [Hs|Hs]; [discriminate|].
  change (ValueType_code kTypeValue) with 1.
  pose proof (byte_at_range internal_key (zlen internal_key - 8)) as Hb.
  destruct (Z.leb_spec (byte_at internal_key (zlen internal_key - 8)) 1)
    as [Hc|Hc]; [|discriminate].
  intros [= <-]. cbn [user_key type sequence app].
  set (p := zlen internal_key - 8) in *.
  pose proof (DecodeFixed_bound 8 internal_key p) as Hd.
  change (2 ^ (8 * Z.of_nat 8)) with (2 ^ 64) in Hd.
  pose proof (DecodeFixed_arith 7 internal_key p) as Ha.
  pose proof (DecodeFixed_nonneg 7 internal_key (p + 1)) as Hr.
  unfold DecodeFixed64.
  assert (Hhigh : Z.shiftr (DecodeFixed 8 internal_key p) 8
                  = DecodeFixed 7 internal_key (p + 1)).
  { rewrite Ha, Z.shiftr_div_pow2 by lia. change (2 ^ 8) with 256.
    replace (byte_at internal_key p + 256 * DecodeFixed 7 internal_key (p + 1))
      with (byte_at internal_key p + DecodeFixed 7 internal_key (p + 1) * 256)
      by lia.
    rewrite Z.div_add by lia. rewrite Z.div_small by lia. lia. }
  assert (Hcode : ValueType_code
                    (if byte_at internal_key p =? 0 then kTypeDeletion
                     else kTypeValue)
                  = byte_at internal_key p).
  { destruct (Z.eqb_spec (byte_at internal_key p) 0) as [->|Hne];
      [reflexivity | cbn [ValueType_code]; lia]. }
  rewrite Hhigh, Hcode.
  assert (Hshift : wrap64 (Z.shiftl (DecodeFixed 7 internal_key (p + 1)) 8)
                   = Z.shiftl (DecodeFixed 7 internal_key (p + 1)) 8).
  { unfold wrap64. apply Z.mod_small.
    rewrite Z.shiftl_mul_pow2 by lia. change (2 ^ 8) with 256. lia. }
  rewrite Hshift, Z.lor_comm, lor_shiftl_8 by lia.
  rewrite <- Ha.
  rewrite (EncodeFixed_DecodeFixed 8) by (unfold p; lia).
  change (Z.of_nat 8) with 8.
  pose proof (slice_bytes_whole internal_key p ltac:(unfold p; lia)) as Hw.
  replace (zlen internal_key - p) with 8 in Hw by (unfold p; lia).
  exact Hw.
Qed.

(** Property X14.
    Parsing loses nothing: a key that [ParseInternalKey] accepts is the
    serialization [AppendInternalKey] writes for the result, so two keys
    with the same successful parse are the same bytes. *)
Theorem ParseInternalKey_reencodes (key1 key2 : list byte)
    (result : ParsedInternalKey) :
  ParseInternalKey key1 = Some result ->
  AppendInternalKey [] result = key1
  /\ (ParseInternalKey key2 = Some result -> key2 = key1).
Proof.
  intros H1. pose proof (reencode _ _ H1) as E1.
  split; [exact E1|]. intros H2. apply reencode in H2. congruence.
Qed.

Lemma ParseInternalKey_reencodes_witness :
  AppendInternalKey [] (mkParsedInternalKey (bytes [107]) 5 kTypeValue)
  = bytes [107; 1; 5; 0; 0; 0; 0; 0; 0].
Proof.
  exact (proj1 (ParseInternalKey_reencodes
                  (bytes [107; 1; 5; 0; 0; 0; 0; 0; 0]) []
                  (mkParsedInternalKey (bytes [107]) 5 kTypeValue) eq_refl)).
Defined.

(** Property X15.
    The three views of a [LookupKey] laid out as its class comment says
    fit together: [internal_key()] is [user_key()] followed by the eight
    tag bytes, [ExtractUserKey] of it is [user_key()], and
    [memtable_key()] is the length prefix followed by [internal_key()]. *)
Theorem LookupKey_views (k : LookupKey) :
  LookupKey_layout k ->
  internal_key k
  = LookupKey_user_key k ++ slice_bytes (lk_array k) (end_ k - 8) 8
  /\ ExtractUserKey (internal_key k) = Some (LookupKey_user_key k)
  /\ memtable_key k
     = slice_bytes (lk_array k) (start_ k) (kstart_ k - start_ k)
       ++ internal_key k
  /\ zlen (internal_key k) = zlen (LookupKey_user_key k) + 8.
Proof.
  intros (Hs & He). unfold internal_key, LookupKey_user_key, memtable_key,
    ExtractUserKey.
  assert (Hlen : zlen (slice_bytes (lk_array k) (kstart_ k)
                         (end_ k - kstart_ k)) = end_ k - kstart_ k)
    by (apply slice_bytes_length; lia).
  split; [|split; [|split]].
  - replace (end_ k - kstart_ k) with ((end_ k - kstart_ k - 8) + 8) at 1
      by lia.
    rewrite slice_bytes_split by lia. f_equal. f_equal. lia.
  - rewrite Hlen. destruct (Z.ltb_spec (end_ k - kstart_ k) 8); [lia|].
    f_equal. apply slice_bytes_inner; lia.
  - replace (end_ k - start_ k)
      with ((kstart_ k - start_ k) + (end_ k - kstart_ k)) by lia.
    rewrite slice_bytes_split by lia. f_equal. f_equal. lia.
  - rewrite Hlen, slice_bytes_length by lia. lia.
Qed.

Lemma LookupKey_views_witness :
  ExtractUserKey (internal_key FileExamples.lookup_k)
  = Some (LookupKey_user_key FileExamples.lookup_k).
Proof.
  refine (proj1 (proj2 (LookupKey_views FileExamples.lookup_k _))).
  unfold LookupKey_layout. vm_compute. repeat split; discriminate.
Defined.

(** Property X16.
    An [InternalKey] built from a user key, a sequence number and a type
    gives the user key back and encodes to the serialization of the three;
    a default-constructed or cleared one may neither be encoded nor asked
    for its user key (both assert), and [DecodeFrom] of fewer than eight
    bytes leaves a key whose [user_key()] asserts. *)
Theorem InternalKey_user_key_round_trip (u : list byte) (s : SequenceNumber)
    (t : ValueType) (k : InternalKey) (short : list byte) :
  zlen short < 8 ->
  InternalKey_user_key (new_InternalKey u s t) = Some u
  /\ InternalKey_user_key (SetFrom k (mkParsedInternalKey u s t)) = Some u
  /\ Encode (new_InternalKey u s t)
     = Some (AppendInternalKey [] (mkParsedInternalKey u s t))
  /\ Encode empty_InternalKey = None
  /\ InternalKey_user_key empty_InternalKey = None
  /\ Encode (Clear k) = None
  /\ InternalKey_user_key (Clear k) = None
  /\ InternalKey_user_key (DecodeFrom k short) = None.
Proof.
  intros Hshort.
  assert (Hu : ExtractUserKey
                 (AppendInternalKey [] (mkParsedInternalKey u s t)) = Some u).
  { unfold ExtractUserKey, AppendInternalKey, EncodeFixed64.
    cbn [app user_key sequence type]. rewrite zlen_app.
    assert (Hl : zlen (EncodeFixed 8 (PackSequenceAndType s t)) = 8)
      by (unfold zlen; now rewrite EncodeFixed_length).
    rewrite !Hl. pose proof (zlen_nonneg u).
    destruct (Z.ltb_spec (zlen u + 8) 8); [lia|].
    replace (zlen u + 8 - 8) with (zlen u) by lia.
    now rewrite slice_bytes_prefix. }
  split; [exact Hu|]. split; [exact Hu|]. split.
  - unfold Encode, new_InternalKey, AppendInternalKey, EncodeFixed64.
    cbn [rep_ app user_key sequence type].
    destruct u; reflexivity.
  - repeat split.
    unfold InternalKey_user_key, DecodeFrom, ExtractUserKey. cbn [rep_].
    destruct (Z.ltb_spec (zlen short) 8); [reflexivity | lia].
Qed.

Lemma InternalKey_user_key_round_trip_witness :
  InternalKey_user_key (new_InternalKey (bytes [107]) 5 kTypeValue)
  = Some (bytes [107]).
Proof.
  refine (proj1 (InternalKey_user_key_round_trip (bytes [107]) 5 kTypeValue
                   empty_InternalKey [] _)).
  reflexivity.
Defined.

End KeyFacts.

Module ResourceFacts.
Import Posix EnvPosix EnvFiles Examples FileExamples ByteFacts EnvFacts SliceFacts.

(** *** The limiter *)

Lemma Limiter_run_invariant (calls : list LimiterCall) : forall l held,
  0 <= held -> 0 <= allowed_ l ->
  0 <= (Limiter_run l held calls).2
  /\ 0 <= allowed_ (Limiter_run l held calls).1
  /\ allowed_ (Limiter_run l held calls).1 + (Limiter_run l held calls).2
     = allowed_ l + held.
Proof.
  induction calls as [|c calls IH]; intros l held Hh Ha.
  - cbn. lia.
  - destruct c; cbn [Limiter_run].
    + unfold Acquire.
      destruct (Z.leb_spec (allowed_ l) 0) as [Hz|Hz]; cbv zeta.
      * apply IH; assumption.
      * destruct (Z.leb_spec (allowed_ l) 0); [lia|].
        destruct (IH (mkLimiter (allowed_ l - 1)) (held + 1))
          as (H1 & H2 & H3); [lia | cbn; lia |].
        cbn [allowed_] in H3. lia.
    + destruct (Z.ltb_spec 0 held) as [Hp|Hp].
      * destruct (IH (Release l) (held - 1)) as (H1 & H2 & H3);
          [lia | cbn; lia |].
        cbn [Release allowed_] in H3. lia.
      * apply IH; assumption.
Qed.

(** Property X17.
    A limiter created for [n] resources never has more than [n] of them
    out: after any run of [Acquire] and [Release] calls by users that
    release only what they acquired, the number held is between 0 and [n]
    and the count still allowed is [n] minus the number held.  An [Acquire]
    on an exhausted limiter returns false and changes nothing, and a
    [Release] undoes a successful [Acquire]. *)
Theorem Limiter_never_exceeds (n : Z) (calls : list LimiterCall) (l : Limiter) :
  0 <= n ->
  0 <= (Limiter_run (mkLimiter n) 0 calls).2 <= n
  /\ allowed_ (Limiter_run (mkLimiter n) 0 calls).1
     = n - (Limiter_run (mkLimiter n) 0 calls).2
  /\ (allowed_ l <= 0 -> Acquire l = (false, l))
  /\ (0 < allowed_ l ->
      exists l', Acquire l = (true, l') /\ allowed_ l' = allowed_ l - 1
                 /\ Release l' = l).
Proof.
  intros Hn.
  destruct (Limiter_run_invariant calls (mkLimiter n) 0 ltac:(lia)
              ltac:(cbn; lia)) as (H1 & H2 & H3).
  cbn [allowed_] in H3.
  split; [lia|]. split; [lia|]. split.
  - intros Hz. unfold Acquire.
    destruct (Z.leb_spec (allowed_ l) 0); [reflexivity | lia].
  - intros Hp. unfold Acquire.
    destruct (Z.leb_spec (allowed_ l) 0); [lia|].
    eexists. split; [reflexivity|]. split; [reflexivity|].
    destruct l as [a]. unfold Release. cbn. f_equal. lia.
Qed.

Lemma Limiter_never_exceeds_witness :
  0 <= (Limiter_run (mkLimiter 1) 0
          [CallAcquire; CallAcquire; CallRelease; CallAcquire]).2 <= 1.
Proof.
  refine (proj1 (Limiter_never_exceeds 1
                   [CallAcquire; CallAcquire; CallRelease; CallAcquire]
                   (mkLimiter 1) _)).
  lia.
Defined.

(** *** Opening a random-access file *)

Lemma close_fresh (k : Kernel) (fname : string) :
  descriptors_fresh k ->
  k_fds (close (mkKernel (k_files k) (<[k_next_fd k := fname]> (k_fds k))
                   (k_next_fd k + 1) (k_locks k) (k_foreign k))
               (k_next_fd k))
  = k_fds k.
Proof.
  intros [H0 Hfresh]. unfold close. cbn [k_fds].
  rewrite lookup_insert_eq. cbn [k_fds].
  apply delete_insert_id. apply Hfresh. lia.
Qed.

(** [NewRandomAccessFile] on a file that exists and can be opened (an
    empty file cannot be mapped), by what the limiters still allow. *)
Lemma NewRandomAccessFile_found (env : PosixEnv) (k : Kernel)
    (fname : string) (contents : list byte) :
  descriptors_fresh k ->
  k_files k !! fname = Some contents ->
  contents <> [] \/ allowed_ (mmap_limit_ env) <= 0 ->
  exists file env' k',
    NewRandomAccessFile env k fname = (OK, Some file, env', k')
    /\ locks_ env' = locks_ env
    /\ k_files k' = k_files k
    /\ k_next_fd k' = k_next_fd k + 1
    /\ (0 < allowed_ (mmap_limit_ env) ->
        file = PosixMmapReadableFile fname contents (zlen contents)
        /\ allowed_ (mmap_limit_ env') = allowed_ (mmap_limit_ env) - 1
        /\ fd_limit_ env' = fd_limit_ env
        /\ k_fds k' = k_fds k)
    /\ (allowed_ (mmap_limit_ env) <= 0 ->
        0 < allowed_ (fd_limit_ env) ->
        file = PosixRandomAccessFile fname false (k_next_fd k)
        /\ mmap_limit_ env' = mmap_limit_ env
        /\ allowed_ (fd_limit_ env') = allowed_ (fd_limit_ env) - 1
        /\ k_fds k' = <[k_next_fd k := fname]> (k_fds k))
    /\ (allowed_ (mmap_limit_ env) <= 0 ->
        allowed_ (fd_limit_ env) <= 0 ->
        file = PosixRandomAccessFile fname true (-1)
        /\ mmap_limit_ env' = mmap_limit_ env
        /\ fd_limit_ env' = fd_limit_ env
        /\ k_fds k' = k_fds k).
Proof.
  intros Hfresh Hfile Hopen. pose proof Hfresh as [H0 _].
  unfold NewRandomAccessFile, open_rdonly. rewrite Hfile.
  destruct (Z.ltb_spec (k_next_fd k) 0); [lia|].
  unfold Acquire at 1.
  destruct (Z.leb_spec (allowed_ (mmap_limit_ env)) 0) as [Hm|Hm].
  - (* no memory map left *)
    unfold new_PosixRandomAccessFile, Acquire.
    destruct (Z.leb_spec (allowed_ (fd_limit_ env)) 0) as [Hf|Hf];
      cbn [negb].
    + do 3 eexists. split; [reflexivity|]. cbn [locks_ mmap_limit_ fd_limit_].
      split; [reflexivity|].
      split; [unfold close; cbn; rewrite lookup_insert_eq; reflexivity|].
      split; [unfold close; cbn; rewrite lookup_insert_eq; reflexivity|].
      split; [intros; lia|]. split; [intros; lia|].
      intros _ _. repeat (split; [reflexivity|]).
      now apply close_fresh.
    + destruct (Z.leb_spec (allowed_ (fd_limit_ env)) 0); [lia|].
      cbn [negb].
      do 3 eexists. split; [reflexivity|]. cbn.
      split; [reflexivity|]. split; [reflexivity|]. split; [reflexivity|].
      split; [intros; lia|]. split; [|intros; lia].
      intros _ _. repeat split.
  - (* a memory map is allowed *)
    cbv zeta.
    destruct (Z.leb_spec (allowed_ (mmap_limit_ env)) 0); [lia|].
    destruct Hopen as [Hne|]; [|lia].
    assert (Hpos : 0 < zlen contents).
    { destruct contents; [contradiction|]. unfold zlen. cbn [length]. lia. }
    unfold GetFileSize, stat_size. cbn [k_files]. rewrite Hfile.
    cbn [ok]. unfold mmap. cbn [k_fds k_files].
    destruct (Z.leb_spec (zlen contents) 0); [lia|].
    rewrite lookup_insert_eq, Hfile. cbn [ok].
    rewrite slice_bytes_all.
    do 3 eexists. split; [reflexivity|]. cbn [locks_ mmap_limit_ fd_limit_].
    split; [reflexivity|].
    split; [unfold close; cbn; rewrite lookup_insert_eq; reflexivity|].
    split; [unfold close; cbn; rewrite lookup_insert_eq; reflexivity|].
    split; [|split; intros; lia].
    intros _. repeat (split; [reflexivity|]).
    now apply close_fresh.
Qed.

(** [NewRandomAccessFile] on an empty file while a memory map is allowed:
    [mmap] refuses the length 0, and what was taken is given back. *)
Lemma NewRandomAccessFile_empty (env : PosixEnv) (k : Kernel)
    (fname : string) :
  descriptors_fresh k ->
  k_files k !! fname = Some [] ->
  0 < allowed_ (mmap_limit_ env) ->
  exists k',
    NewRandomAccessFile env k fname
    = (IOError fname "Invalid argument", None, env, k')
    /\ k_files k' = k_files k
    /\ k_next_fd k' = k_next_fd k + 1
    /\ k_fds k' = k_fds k.
Proof.
  intros Hfresh Hfile Hm. pose proof Hfresh as [H0 _].
  unfold NewRandomAccessFile, open_rdonly. rewrite Hfile.
  destruct (Z.ltb_spec (k_next_fd k) 0); [lia|].
  replace (Acquire (mmap_limit_ env))
    with (true, mkLimiter (allowed_ (mmap_limit_ env) - 1))
    by (unfold Acquire;
        destruct (Z.leb_spec (allowed_ (mmap_limit_ env)) 0);
        [lia | reflexivity]).
  unfold GetFileSize, stat_size. cbn [k_files]. rewrite Hfile.
  cbn [ok]. unfold mmap. change (zlen [] <=? 0) with true. cbv iota.
  cbn [ok IOError_errno].
  eexists. split.
  - f_equal. f_equal. destruct env as [locks [m] fd_limit]. unfold Release.
    cbn [locks_ mmap_limit_ fd_limit_ allowed_]. do 2 f_equal. lia.
  - split; [unfold close; cbn; rewrite lookup_insert_eq; reflexivity|].
    split; [unfold close; cbn; rewrite lookup_insert_eq; reflexivity|].
    now apply close_fresh.
Qed.

(** Property X18.
    What [NewRandomAccessFile] takes and leaves.  On a missing file it
    returns an [IOError] without a file and changes neither the limiters
    nor the kernel.  On an empty file, while a memory map is allowed, it
    returns the [IOError] of [mmap] ("Invalid argument") without a file:
    the limiters are as they were and the descriptor it opened is closed
    again.  On any other file that exists it succeeds and: with a memory
    map allowed, returns a mapping of the whole contents, one map fewer is
    allowed and the descriptor it opened is closed again; else with a
    descriptor allowed, returns a file that keeps the descriptor open, one
    descriptor fewer is allowed; else returns a file that opens on every
    read, with the descriptor closed and both limiters as they were. *)
Theorem NewRandomAccessFile_accounting (env : PosixEnv) (k : Kernel)
    (fname : string) :
  descriptors_fresh k ->
  (k_files k !! fname = None ->
   NewRandomAccessFile env k fname
   = (IOError fname "No such file or directory", None, env, k))
  /\ (k_files k !! fname = Some [] -> 0 < allowed_ (mmap_limit_ env) ->
      exists k',
        NewRandomAccessFile env k fname
        = (IOError fname "Invalid argument", None, env, k')
        /\ k_files k' = k_files k
        /\ k_next_fd k' = k_next_fd k + 1
        /\ k_fds k' = k_fds k)
  /\ (forall contents, k_files k !! fname = Some contents ->
      contents <> [] \/ allowed_ (mmap_limit_ env) <= 0 ->
      exists file env' k',
        NewRandomAccessFile env k fname = (OK, Some file, env', k')
        /\ locks_ env' = locks_ env
        /\ k_files k' = k_files k
        /\ k_next_fd k' = k_next_fd k + 1
        /\ (0 < allowed_ (mmap_limit_ env) ->
            file = PosixMmapReadableFile fname contents (zlen contents)
            /\ allowed_ (mmap_limit_ env') = allowed_ (mmap_limit_ env) - 1
            /\ fd_limit_ env' = fd_limit_ env
            /\ k_fds k' = k_fds k)
        /\ (allowed_ (mmap_limit_ env) <= 0 ->
            0 < allowed_ (fd_limit_ env) ->
            file = PosixRandomAccessFile fname false (k_next_fd k)
            /\ mmap_limit_ env' = mmap_limit_ env
            /\ allowed_ (fd_limit_ env') = allowed_ (fd_limit_ env) - 1
            /\ k_fds k' = <[k_next_fd k := fname]> (k_fds k))
        /\ (allowed_ (mmap_limit_ env) <= 0 ->
            allowed_ (fd_limit_ env) <= 0 ->
            file = PosixRandomAccessFile fname true (-1)
            /\ mmap_limit_ env' = mmap_limit_ env
            /\ fd_limit_ env' = fd_limit_ env
            /\ k_fds k' = k_fds k)).
Proof.
  intros Hfresh. split; [|split].
  - intros Hnone. unfold NewRandomAccessFile, open_rdonly. rewrite Hnone.
    reflexivity.
  - intros Hfile Hm. now apply NewRandomAccessFile_empty.
  - intros contents Hfile Hopen. now apply NewRandomAccessFile_found.
Qed.

Lemma kernel0_fresh : descriptors_fresh kernel0.
Proof. split; [vm_compute; discriminate|]. intros fd _. apply lookup_empty. Defined.

Lemma empty_file_kernel_fresh : descriptors_fresh empty_file_kernel.
Proof. split; [vm_compute; discriminate|]. intros fd _. apply lookup_empty. Defined.

Lemma NewRandomAccessFile_accounting_witness :
  exists k',
    NewRandomAccessFile env0 empty_file_kernel "e"
    = (IOError "e" "Invalid argument", None, env0, k')
    /\ k_fds k' = k_fds empty_file_kernel.
Proof.
  destruct (proj1 (proj2 (NewRandomAccessFile_accounting env0
                            empty_file_kernel "e" empty_file_kernel_fresh))
              eq_refl ltac:(vm_compute; reflexivity))
    as (k' & H & _ & _ & Hfds).
  exists k'. split; [exact H | exact Hfds].
Defined.

(** Property X19.
    Opening a random-access file and deleting it again leaves the
    environment as it was (both limiters back at their counts) and the
    descriptor table of the process as it was: no descriptor and no
    limiter slot leaks, whichever of the three kinds of file was made.
    Nor does the one open of an existing file that fails leak: an empty
    file while a memory map is allowed, which [mmap] refuses. *)
Theorem open_then_delete_restores (env : PosixEnv) (k : Kernel)
    (fname : string) (contents : list byte) :
  descriptors_fresh k ->
  k_files k !! fname = Some contents ->
  (contents <> [] \/ allowed_ (mmap_limit_ env) <= 0 ->
   exists file env' k',
     NewRandomAccessFile env k fname = (OK, Some file, env', k')
     /\ (delete_RandomAccessFile env' k' file).1 = env
     /\ k_fds (delete_RandomAccessFile env' k' file).2 = k_fds k)
  /\ (contents = [] -> 0 < allowed_ (mmap_limit_ env) ->
      exists k',
        NewRandomAccessFile env k fname
        = (IOError fname "Invalid argument", None, env, k')
        /\ k_fds k' = k_fds k).
Proof.
  intros Hfresh Hfile. split.
  - intros Hopen.
    destruct (NewRandomAccessFile_found env k fname contents Hfresh Hfile
                Hopen)
      as (file & env' & k' & HN & Hl & Hfiles & Hnext & Hmap & Hfd & Htmp).
    exists file, env', k'. split; [exact HN|].
    destruct env as [locks [m] [f]], env' as [locks' [m'] [f']].
    cbn [locks_ mmap_limit_ fd_limit_ allowed_] in *. subst locks'.
    destruct (Z.lt_ge_cases 0 m) as [Hm|Hm].
    + destruct (Hmap Hm) as (-> & Hm' & Hf' & Hfds).
      cbn [delete_RandomAccessFile fst snd]. split; [|exact Hfds].
      unfold Release. cbn [locks_ mmap_limit_ fd_limit_ allowed_].
      injection Hf' as ->. replace (m' + 1) with m by lia. reflexivity.
    + destruct (Z.lt_ge_cases 0 f) as [Hf|Hf].
      * destruct (Hfd ltac:(lia) Hf) as (-> & Hm' & Hf' & Hfds).
        cbn [delete_RandomAccessFile negb fst snd]. split.
        -- unfold Release. cbn [locks_ mmap_limit_ fd_limit_ allowed_].
           injection Hm' as ->. replace (f' + 1) with f by lia. reflexivity.
        -- unfold close. rewrite Hfds, lookup_insert_eq. cbn [k_fds].
           apply delete_insert_id. apply Hfresh. lia.
      * destruct (Htmp ltac:(lia) ltac:(lia)) as (-> & Hm' & Hf' & Hfds).
        cbn [delete_RandomAccessFile negb fst snd]. split; [|exact Hfds].
        injection Hm' as ->. injection Hf' as ->. reflexivity.
  - intros -> Hm.
    destruct (NewRandomAccessFile_empty env k fname Hfresh Hfile Hm)
      as (k' & HN & _ & _ & Hfds).
    exists k'. split; [exact HN | exact Hfds].
Qed.

Lemma open_then_delete_restores_witness :
  exists file env' k',
    NewRandomAccessFile env0 kernel0 "f" = (OK, Some file, env', k')
    /\ (delete_RandomAccessFile env' k' file).1 = env0.
Proof.
  destruct (proj1 (open_then_delete_restores env0 kernel0 "f" small_file
                     kernel0_fresh eq_refl)
              ltac:(left; vm_compute; discriminate))
    as (file & env' & k' & H1 & H2 & _).
  exists file, env', k'. split; [exact H1 | exact H2].
Defined.



(** *** File locks *)

Lemma LockFile_free (env : PosixEnv) (k : Kernel) (fname : string) :
  0 <= k_next_fd k -> fname ∉ locks_ env -> fname ∉ k_foreign k ->
  exists env1 k1,
    LockFile env k fname
    = (OK, Some (mkPosixFileLock (k_next_fd k) fname), env1, k1)
    /\ locks_ env1 = locks_ env ∪ {[fname]}
    /\ k_fds k1 = <[k_next_fd k := fname]> (k_fds k)
    /\ k_next_fd k1 = k_next_fd k + 1
    /\ k_locks k1 = k_locks k ∪ {[fname]}
    /\ k_foreign k1 = k_foreign k.
Proof.
  intros Hnext Hfree Hforeign.
  unfold LockFile, open_creat.
  destruct (Z.ltb_spec (k_next_fd k) 0); [lia|].
  unfold Insert. rewrite bool_decide_eq_true_2 by exact Hfree. cbn [negb].
  unfold LockOrUnlock, fcntl_setlk. cbn [k_fds k_foreign].
  rewrite lookup_insert_eq.
  destruct (decide (fname ∈ k_foreign k)); [contradiction|].
  change (0 =? -1) with false. cbv iota.
  do 2 eexists. split; [reflexivity|]. cbn. auto 10.
Qed.

(** Property X21.
    [LockFile] on a path that nobody has locked, then [UnlockFile]: both
    return [OK]; in between the path is registered and the process holds
    the record lock; afterwards the set of registered paths and the
    descriptor table are as they were, the record lock is gone, and the
    path can be locked again. *)
Theorem LockFile_UnlockFile_round_trip (env : PosixEnv) (k : Kernel)
    (fname : string) :
  descriptors_fresh k -> fname ∉ locks_ env -> fname ∉ k_foreign k ->
  exists lock env1 k1 env2 k2,
    LockFile env k fname = (OK, Some lock, env1, k1)
    /\ (fname ∈ locks_ env1) /\ (fname ∈ k_locks k1)
    /\ UnlockFile env1 k1 lock = (OK, env2, k2)
    /\ locks_ env2 = locks_ env
    /\ k_fds k2 = k_fds k
    /\ (fname ∉ k_locks k2)
    /\ exists lock' env3 k3,
         LockFile env2 k2 fname = (OK, Some lock', env3, k3).
Proof.
  intros [H0 Hfresh] Hfree Hforeign.
  destruct (LockFile_free env k fname H0 Hfree Hforeign)
    as (env1 & k1 & HL & Hlocks & Hfds & Hnext & Hklocks & Hfor1).
  exists (mkPosixFileLock (k_next_fd k) fname), env1, k1.
  assert (HU : exists env2 k2,
    UnlockFile env1 k1 (mkPosixFileLock (k_next_fd k) fname) = (OK, env2, k2)
    /\ locks_ env2 = locks_ env1 ∖ {[fname]}
    /\ k_fds k2 = delete (k_next_fd k) (k_fds k1)
    /\ k_next_fd k2 = k_next_fd k1
    /\ k_foreign k2 = k_foreign k1
    /\ fname ∉ k_locks k2).
  { unfold UnlockFile, LockOrUnlock, fcntl_setlk. cbn [lock_fd_ name_].
    rewrite Hfds, lookup_insert_eq. change (0 =? -1) with false. cbv iota.
    do 2 eexists. split; [reflexivity|]. cbn [locks_].
    split; [reflexivity|].
    unfold close. cbn [k_fds]. rewrite lookup_insert_eq. cbn.
    repeat (split; [reflexivity|]).
    intros Hin. apply elem_of_difference in Hin as [_ Hin].
    apply Hin. now apply elem_of_singleton. }
  destruct HU as (env2 & k2 & HU & Hlocks2 & Hfds2 & Hnext2 & Hfor2 & Hnot).
  exists env2, k2.
  assert (Heq : locks_ env2 = locks_ env).
  { rewrite Hlocks2, Hlocks. apply set_eq. intros x.
    rewrite elem_of_difference, elem_of_union, elem_of_singleton.
    split; [intros [[Hx|Hx] Hne]; [exact Hx | contradiction]|].
    intros Hx. split; [now left|]. intros ->. contradiction. }
  split; [exact HL|].
  split; [rewrite Hlocks; apply elem_of_union; right; now apply elem_of_singleton|].
  split; [rewrite Hklocks; apply elem_of_union; right; now apply elem_of_singleton|].
  split; [exact HU|]. split; [exact Heq|].
  split; [rewrite Hfds2, Hfds; apply delete_insert_id; apply Hfresh; lia|].
  split; [exact Hnot|].
  destruct (LockFile_free env2 k2 fname ltac:(lia)
              ltac:(rewrite Heq; exact Hfree)
              ltac:(rewrite Hfor2, Hfor1; exact Hforeign))
    as (env3 & k3 & HL3 & _).
  eauto.
Qed.

Lemma LockFile_UnlockFile_round_trip_witness :
  exists lock env1 k1 env2 k2,
    LockFile env0 kernel0 "LOCK" = (OK, Some lock, env1, k1)
    /\ UnlockFile env1 k1 lock = (OK, env2, k2)
    /\ locks_ env2 = locks_ env0
    /\ k_fds k2 = k_fds kernel0.
Proof.
  destruct (LockFile_UnlockFile_round_trip env0 kernel0 "LOCK" kernel0_fresh
              ltac:(apply not_elem_of_empty) ltac:(apply not_elem_of_empty))
    as (lock & env1 & k1 & env2 & k2 & H1 & _ & _ & H2 & H3 & H4 & _).
  exists lock, env1, k1, env2, k2. auto.
Defined.

(** Property X22.
    [LockFile] on a path that another process holds locked fails with the
    [IOError] of [fcntl] under the context "lock <path>" and returns no
    lock; the path is not left registered, the descriptor it opened is
    closed again, and the process holds no record lock on the file.  The
    file exists afterwards: it is created before the lock is tried. *)
Theorem LockFile_contended (env : PosixEnv) (k : Kernel) (fname : string) :
  descriptors_fresh k -> fname ∉ locks_ env -> fname ∈ k_foreign k ->
  exists env' k',
    LockFile env k fname
    = (IOError ("lock " +:+ fname) "Resource temporarily unavailable", None,
       env', k')
    /\ locks_ env' = locks_ env
    /\ mmap_limit_ env' = mmap_limit_ env
    /\ fd_limit_ env' = fd_limit_ env
    /\ k_fds k' = k_fds k
    /\ (fname ∉ k_locks k')
    /\ is_Some (k_files k' !! fname).
Proof.
  intros [H0 Hfresh] Hfree Hforeign.
  unfold LockFile, open_creat.
  destruct (Z.ltb_spec (k_next_fd k) 0); [lia|].
  unfold Insert. rewrite bool_decide_eq_true_2 by exact Hfree. cbn [negb].
  unfold LockOrUnlock, fcntl_setlk. cbn [k_fds k_foreign].
  rewrite lookup_insert_eq.
  destruct (decide (fname ∈ k_foreign k)); [|contradiction].
  change (-1 =? -1) with true. cbv iota.
  do 2 eexists. split; [reflexivity|]. cbn [locks_ mmap_limit_ fd_limit_].
  split.
  { unfold Remove. apply set_eq. intros x.
    rewrite elem_of_difference, elem_of_union, elem_of_singleton.
    split; [intros [[Hx|Hx] Hne]; [exact Hx | contradiction]|].
    intros Hx. split; [now left|]. intros ->. contradiction. }
  split; [reflexivity|]. split; [reflexivity|].
  unfold close. cbn [k_fds]. rewrite lookup_insert_eq. cbn.
  split; [apply delete_insert_id; apply Hfresh; lia|].
  split.
  - intros Hin. apply elem_of_difference in Hin as [_ Hin].
    apply Hin. now apply elem_of_singleton.
  - destruct (k_files k !! fname) eqn:E; [rewrite E; eauto|].
    rewrite lookup_insert_eq. eauto.
Qed.

Lemma contended_kernel_fresh : descriptors_fresh contended_kernel.
Proof. split; [vm_compute; discriminate|]. intros fd _. apply lookup_empty. Defined.

Lemma LockFile_contended_witness :
  exists env' k',
    LockFile env0 contended_kernel "LOCK"
    = (IOError "lock LOCK" "Resource temporarily unavailable", None, env', k')
    /\ locks_ env' = locks_ env0.
Proof.
  destruct (LockFile_contended env0 contended_kernel "LOCK"
              contended_kernel_fresh ltac:(apply not_elem_of_empty)
              ltac:(vm_compute; reflexivity))
    as (env' & k' & H1 & H2 & _).
  exists env', k'. split; [exact H1 | exact H2].
Defined.

End ResourceFacts.

Module StreamFacts.
Import Posix EnvPosix EnvFiles Examples FileExamples ByteFacts EnvFacts SliceFacts.

(** *** Sequential reads *)

Lemma slice_bytes_any (l : list byte) (p n : Z) :
  0 <= p -> 0 <= n ->
  slice_bytes l p n = take (Z.to_nat n) (drop (Z.to_nat p) l).
Proof.
  intros Hp Hn. unfold slice_bytes, zlen.
  destruct (Z.le_gt_cases p (Z.of_nat (length l))) as [Hpl|Hpl].
  - rewrite (Z.min_l p) by lia.
    destruct (Z.le_gt_cases n (Z.of_nat (length l))) as [Hnl|Hnl].
    + rewrite Z.min_l by lia. reflexivity.
    + rewrite Z.min_r by lia. rewrite Nat2Z.id.
      rewrite !take_ge; [reflexivity | |]; rewrite length_drop; lia.
  - rewrite (Z.min_r p) by lia. rewrite Nat2Z.id.
    rewrite drop_all, (drop_ge l (Z.to_nat p)) by lia.
    now rewrite !take_nil.
Qed.

(** Two slices, the second starting where the first ended, make the slice
    of the two sizes together, also across the end of the bytes. *)
Lemma slice_bytes_chain (l : list byte) (p n m : Z) :
  0 <= p -> 0 <= n -> 0 <= m ->
  slice_bytes l p n ++ slice_bytes l (p + zlen (slice_bytes l p n)) m
  = slice_bytes l p (n + m).
Proof.
  intros Hp Hn Hm.
  pose proof (zlen_nonneg (slice_bytes l p n)) as Hz.
  rewrite (slice_bytes_any l (p + _) m) by lia.
  rewrite !slice_bytes_any by lia.
  rewrite !Z2Nat.inj_add by (try apply zlen_nonneg; lia).
  rewrite <- drop_drop. unfold zlen. rewrite Nat2Z.id.
  rewrite <- take_take_drop. f_equal. f_equal.
  set (x := drop (Z.to_nat p) l).
  destruct (Nat.le_gt_cases (Z.to_nat n) (length x)) as [Hle|Hgt].
  - rewrite length_take. f_equal. lia.
  - rewrite take_ge by lia. rewrite drop_all, drop_ge by lia. reflexivity.
Qed.

Lemma Read_healthy (filename : string) (f : RStream) (n : Z) :
  r_fault f = None ->
  SequentialFile_Read filename f n
  = (OK, slice_bytes (r_bytes f) (r_pos f) n,
     mkRStream (r_bytes f)
               (r_pos f + zlen (slice_bytes (r_bytes f) (r_pos f) n))
               (r_eof f || (zlen (slice_bytes (r_bytes f) (r_pos f) n) <? n))
               None).
Proof.
  intros Hf. unfold SequentialFile_Read, fread_unlocked. rewrite Hf.
  cbv zeta. rewrite slice_bytes_all. unfold feof. cbn [r_eof].
  destruct (zlen (slice_bytes (r_bytes f) (r_pos f) n) <? n);
    [rewrite orb_true_r|]; reflexivity.
Qed.

(** Property X23.
    Reads one after the other on a stream whose device does not fail: each
    returns [OK], also the short ones at the end of the file, and the
    results put together are the bytes of the file from the starting
    position, as many as were asked for in total or as many as the file
    has; the stream ends positioned after them. *)
Theorem sequential_reads_compose (filename : string) (sizes : list Z) :
  forall f : RStream,
  r_fault f = None -> 0 <= r_pos f -> Forall (fun n => 0 <= n) sizes ->
  Forall (fun r => r.1 = OK) (Read_each filename f sizes).1
  /\ concat (map snd (Read_each filename f sizes).1)
     = slice_bytes (r_bytes f) (r_pos f) (fold_right Z.add 0 sizes)
  /\ r_pos (Read_each filename f sizes).2
     = r_pos f
       + zlen (slice_bytes (r_bytes f) (r_pos f) (fold_right Z.add 0 sizes))
  /\ r_bytes (Read_each filename f sizes).2 = r_bytes f.
Proof.
  induction sizes as [|n sizes IH]; intros f Hf Hp Hall.
  - cbn [Read_each fst snd map concat fold_right].
    split; [constructor|]. rewrite slice_bytes_any by lia.
    change (Z.to_nat 0) with 0%nat. rewrite take_0.
    split; [reflexivity|]. split; [|reflexivity].
    unfold zlen. cbn [length]. lia.
  - apply Forall_cons in Hall as [Hn Hall].
    assert (Hsum : 0 <= fold_right Z.add 0 sizes).
    { clear -Hall. induction Hall; cbn; lia. }
    cbn [Read_each fold_right]. rewrite Read_healthy by exact Hf.
    set (got := slice_bytes (r_bytes f) (r_pos f) n).
    set (f1 := mkRStream (r_bytes f) (r_pos f + zlen got) _ None).
    pose proof (zlen_nonneg got) as Hgot.
    destruct (IH f1 eq_refl ltac:(cbn; lia) Hall) as (H1 & H2 & H3 & H4).
    destruct (Read_each filename f1 sizes) as [results f2].
    cbn [fst snd map concat] in *.
    cbn [r_bytes r_pos f1] in H2, H3, H4.
    split; [constructor; [reflexivity | exact H1]|].
    pose proof (slice_bytes_chain (r_bytes f) (r_pos f) n
                  (fold_right Z.add 0 sizes) Hp Hn Hsum) as Hchain.
    fold got in Hchain.
    split; [rewrite H2; exact Hchain|].
    split; [|exact H4].
    rewrite H3, <- Hchain, zlen_app. lia.
Qed.

Lemma sequential_reads_compose_witness :
  concat (map snd (Read_each "f" small_stream [3; 3; 3]).1)
  = slice_bytes small_file 0 9.
Proof.
  refine (proj1 (proj2 (sequential_reads_compose "f" [3; 3; 3] small_stream
                          eq_refl _ _))).
  - vm_compute. discriminate.
  - repeat constructor; vm_compute; discriminate.
Defined.



End StreamFacts.

Module SyncFacts.
Import Posix EnvPosix EnvFiles Examples FileExamples ByteFacts EnvFacts SliceFacts StreamFacts.

(** Property X25.
    [Skip(n)] moves the position of the stream by [n] and clears the
    end-of-file indicator, so that the next [Read] on a healthy device
    returns the bytes at the new position (none beyond the end of the
    file).  The [uint64_t n] reaches [fseek] as a [long]: a value of
    [2^63] or more is a negative offset, which moves the position back, or
    fails with [IOError] "Invalid argument", the stream unchanged, when it
    would move before the start of the file. *)
Theorem Skip_moves_position (filename : string) (f : RStream) (n : Z) :
  0 <= r_pos f < 2 ^ 63 -> 0 <= n < 2 ^ 64 ->
  (n < 2 ^ 63 -> r_pos f + n < 2 ^ 63 ->
   SequentialFile_Skip filename f n
   = (OK, mkRStream (r_bytes f) (r_pos f + n) false (r_fault f))
   /\ (r_fault f = None -> forall m, 0 <= m ->
       (SequentialFile_Read filename (SequentialFile_Skip filename f n).2 m).1
       = (OK, slice_bytes (r_bytes f) (r_pos f + n) m)))
  /\ (2 ^ 63 <= n -> r_pos f + n - 2 ^ 64 < 0 ->
      SequentialFile_Skip filename f n
      = (IOError filename "Invalid argument", f))
  /\ (2 ^ 63 <= n -> 0 <= r_pos f + n - 2 ^ 64 ->
      SequentialFile_Skip filename f n
      = (OK, mkRStream (r_bytes f) (r_pos f + n - 2 ^ 64) false (r_fault f))).
Proof.
  intros Hp Hn. unfold SequentialFile_Skip, fseek_cur, to_off_t.
  split; [|split].
  - intros Hsmall Hfit.
    destruct (Z.ltb_spec n (2 ^ 63)); [|lia].
    destruct (Z.ltb_spec (r_pos f + n) 0); [lia|].
    destruct (Z.leb_spec (2 ^ 63) (r_pos f + n)); [lia|].
    cbn [negb Z.eqb]. split; [reflexivity|].
    intros Hf m Hm. cbn [snd].
    rewrite Read_healthy by exact Hf. reflexivity.
  - intros Hbig Hneg.
    destruct (Z.ltb_spec n (2 ^ 63)); [lia|].
    destruct (Z.ltb_spec (r_pos f + (n - 2 ^ 64)) 0); [|lia].
    reflexivity.
  - intros Hbig Hpos.
    destruct (Z.ltb_spec n (2 ^ 63)); [lia|].
    destruct (Z.ltb_spec (r_pos f + (n - 2 ^ 64)) 0); [lia|].
    destruct (Z.leb_spec (2 ^ 63) (r_pos f + (n - 2 ^ 64))); [lia|].
    cbn [negb Z.eqb]. do 3 f_equal. lia.
Qed.

Lemma Skip_moves_position_witness :
  (SequentialFile_Read "f" (SequentialFile_Skip "f" small_stream 1).2 2).1
  = (OK, slice_bytes small_file 1 2).
Proof.
  refine (proj2 (proj1 (Skip_moves_position "f" small_stream 1 _ _) _ _)
            eq_refl 2 _); vm_compute; try split; congruence.
Defined.

(** *** The file name of a writable file *)

Lemma strrchr_None (c : Ascii.ascii) (f : string) :
  strrchr f c = None -> ~ In c (String.list_ascii_of_string f).
Proof.
  induction f as [|a f IH]; cbn [strrchr String.list_ascii_of_string]; [auto|].
  destruct (strrchr f c) as [[before after]|]; [discriminate|].
  destruct (Ascii.eqb_spec a c) as [->|Hne]; [discriminate|].
  intros _ [H|H]; [contradiction | now apply IH].
Qed.

Lemma strrchr_Some (c : Ascii.ascii) (f before after : string) :
  strrchr f c = Some (before, after) ->
  f = (before ++ String c after)%string
  /\ ~ In c (String.list_ascii_of_string after).
Proof.
  revert before. induction f as [|a f IH]; intros before;
    cbn [strrchr]; [discriminate|].
  destruct (strrchr f c) as [[b' a']|] eqn:E.
  - intros [= <- <-]. destruct (IH b' eq_refl) as [-> Hno].
    split; [reflexivity | exact Hno].
  - destruct (Ascii.eqb_spec a c) as [->|Hne]; [|discriminate].
    intros [= <- <-]. split; [reflexivity|]. now apply strrchr_None.
Qed.

(** Property X26.
    The directory and the base name that [SyncDirIfManifest] takes from the
    file name (as C reads it, up to a first NUL): the base name holds no
    ['/']; when the name holds a ['/'] it is the directory, a ['/'] and the
    base name, split at the last ['/']; otherwise the directory is "." and
    the base name is the whole name. *)
Theorem split_filename_parts (filename : string) :
  ~ In slash (String.list_ascii_of_string (split_filename filename).2)
  /\ (c_str filename
      = ((split_filename filename).1
         ++ String slash (split_filename filename).2)%string
      \/ ((split_filename filename).1 = "."%string
          /\ (split_filename filename).2 = c_str filename
          /\ ~ In slash (String.list_ascii_of_string (c_str filename)))).
Proof.
  unfold split_filename.
  destruct (strrchr (c_str filename) slash) as [[before after]|] eqn:E;
    cbn [fst snd].
  - apply strrchr_Some in E as [-> Hno]. split; [exact Hno | now left].
  - apply strrchr_None in E. split; [exact E|]. right. auto.
Qed.

(** *** Sync *)

(** Property X27.
    The calls [Sync] makes and what it returns.  For a file whose base name
    does not start with "MANIFEST" no directory is touched: the calls are
    [fflush] and, if that succeeded, [fdatasync].  For a manifest the first
    call opens the containing directory, and the data of the file is
    flushed only if the directory was opened and synced: when either fails
    [Sync] returns that error without [fflush] or [fdatasync].  In every
    case the descriptor opened for the directory is closed again, and
    [Sync] returns [OK] only if each of the calls it made succeeded, the
    flush and the data sync among them. *)
Theorem Sync_calls (a : SyncAnswers) (filename : string) :
  (starts_with (split_filename filename).2 "MANIFEST" = false ->
   (Sync a filename).2 = [Sys_fflush]
   \/ (Sync a filename).2 = [Sys_fflush; Sys_fdatasync])
  /\ (starts_with (split_filename filename).2 "MANIFEST" = true ->
      exists rest,
        (Sync a filename).2 = Sys_open (split_filename filename).1 :: rest)
  /\ (In Sys_fflush (Sync a filename).2 ->
      ok (SyncDirIfManifest a filename).1 = true)
  /\ (ok (SyncDirIfManifest a filename).1 = false ->
      Sync a filename = SyncDirIfManifest a filename)
  /\ open_descriptors a (Sync a filename).2 [] = []
  /\ (ok (Sync a filename).1 = true ->
      In Sys_fflush (Sync a filename).2
      /\ In Sys_fdatasync (Sync a filename).2
      /\ (a_fflush a).1 = 0 /\ (a_fdatasync a).1 = 0
      /\ (starts_with (split_filename filename).2 "MANIFEST" = true ->
          0 <= (a_open a (split_filename filename).1).1
          /\ 0 <= (a_fsync a (a_open a (split_filename filename).1).1).1)).
Proof.
  unfold Sync, SyncDirIfManifest.
  destruct (split_filename filename) as [dir basename]. cbn [fst snd].
  destruct (a_fflush a) as [r1 e1] eqn:E1.
  destruct (a_fdatasync a) as [r2 e2] eqn:E2.
  destruct (starts_with basename "MANIFEST") eqn:EM.
  - destruct (a_open a dir) as [fd eo] eqn:EO. cbn [fst].
    destruct (Z.ltb_spec fd 0) as [Hfd|Hfd].
    + (* the directory cannot be opened *)
      cbn [ok IOError_errno negb fst snd].
      split; [discriminate|]. split; [eauto|].
      split; [intros [H|[]]; discriminate|].
      split; [reflexivity|].
      split; [|discriminate].
      cbn [open_descriptors]. rewrite EO. cbn [fst].
      destruct (Z.ltb_spec fd 0); [reflexivity | lia].
    + destruct (a_fsync a fd) as [rs es] eqn:ES. cbn [fst].
      assert (Hclosed : forall rest,
                 (forall held, open_descriptors a rest held = held) ->
                 open_descriptors a
                   ([Sys_open dir; Sys_fsync fd; Sys_close fd] ++ rest) []
                 = []).
      { intros rest Hrest. cbn [app open_descriptors]. rewrite EO. cbn [fst].
        destruct (Z.ltb_spec fd 0); [lia|]. cbn [List.remove].
        destruct (Z.eq_dec fd fd); [|contradiction]. apply Hrest. }
      destruct (Z.ltb_spec rs 0) as [Hrs|Hrs].
      * (* the directory cannot be synced *)
        cbn [ok IOError_errno negb fst snd].
        split; [discriminate|]. split; [eauto|].
        split; [intros [H|[H|[H|[]]]]; discriminate|].
        split; [reflexivity|].
        split; [|discriminate].
        rewrite <- (app_nil_r [_; _; _]). apply Hclosed. reflexivity.
      * cbn [ok negb].
        destruct (Z.eqb_spec r1 0) as [->|Hr1]; cbn [negb fst snd].
        -- destruct (Z.eqb_spec r2 0) as [->|Hr2]; cbn [negb fst snd ok].
           ++ split; [discriminate|]. split; [cbn [app]; eauto|].
              split; [reflexivity|]. split; [discriminate|].
              split; [apply Hclosed; reflexivity|].
              intros _. cbn [app].
              split; [right; right; right; now left|].
              split; [do 4 right; now left|].
              split; [reflexivity|]. split; [reflexivity|].
              intros _. lia.
           ++ split; [discriminate|]. split; [cbn [app]; eauto|].
              split; [reflexivity|]. split; [discriminate|].
              split; [apply Hclosed; reflexivity | discriminate].
        -- split; [discriminate|]. split; [cbn [app]; eauto|].
           split; [reflexivity|]. split; [discriminate|].
           split; [apply Hclosed; reflexivity | discriminate].
  - (* not a manifest *)
    cbn [ok negb app].
    destruct (Z.eqb_spec r1 0) as [->|Hr1]; cbn [negb fst snd].
    + destruct (Z.eqb_spec r2 0) as [->|Hr2]; cbn [negb fst snd ok].
      * split; [intros _; now right|]. split; [discriminate|].
        split; [reflexivity|]. split; [discriminate|].
        split; [reflexivity|].
        intros _. split; [now left|]. split; [right; now left|].
        split; [reflexivity|]. split; [reflexivity | discriminate].
      * split; [intros _; now right|]. split; [discriminate|].
        split; [reflexivity|]. split; [discriminate|].
        split; [reflexivity | discriminate].
    + split; [intros _; now left|]. split; [discriminate|].
      split; [reflexivity|]. split; [discriminate|].
      split; [reflexivity | discriminate].
Qed.

End SyncFacts.

Module TerminationFacts.
Import Coding Block BlockFormat BlockState BlockCalls Examples BlockExamples ByteFacts CodingFacts ChainFacts PositionFacts PositionProperties.

Local Abbreviation returns r :=
  (r <> Timeout /\ forall it', r = Done it' -> in_range it').

Lemma wrap32_add_room (q s room : Z) :
  0 <= q -> 0 <= room -> q + room < 2 ^ 32 -> wrap32 s <= room ->
  wrap32 (q + s) = q + wrap32 s.
Proof.
  intros Hq Hroom Hfit Hle. pose proof (wrap32_range s) as Hs.
  unfold wrap32 in *. rewrite <- Z.add_mod_idemp_r by lia.
  apply Z.mod_small. lia.
Qed.

(** The loop at the end of [ParseNextKey] ends within [num_restarts_]
    rounds. *)
Lemma advance_restart_index_ends fuel : forall it,
  in_range it ->
  Iter.num_restarts_ it - Iter.restart_index_ it < Z.of_nat fuel ->
  exists ri',
    Iter.advance_restart_index fuel it = Done (Iter.set_restart_index it ri')
    /\ 0 <= ri' <= Iter.num_restarts_ it.
Proof.
  induction fuel as [|fuel IH]; intros it (Hr & Hn & Hri) Hfuel; [lia|].
  destruct it as [c d r n cur ri k v s].
  cbn [Iter.restarts_ Iter.num_restarts_ Iter.restart_index_] in *.
  cbn [Iter.advance_restart_index Iter.restart_index_ Iter.num_restarts_].
  rewrite (wrap32_small (ri + 1)) by lia.
  destruct (Z.ltb_spec (ri + 1) n) as [Hlt|Hge].
  - unfold Iter.GetRestartPoint. cbn [Iter.num_restarts_].
    destruct (Z.ltb_spec (ri + 1) n); [|lia]. cbn [assert obind].
    destruct (_ <? _).
    + destruct (IH (Iter.mkIter c d r n cur (ri + 1) k v s))
        as (ri' & HA & Hri'); [repeat split; cbn; lia | cbn; lia |].
      exists ri'. split; [exact HA | exact Hri'].
    + exists ri. split; [reflexivity | lia].
  - exists ri. split; [reflexivity | lia].
Qed.

(** One [ParseNextKey] on any block: it aborts, or returns
    false, or returns true with the end of the entry strictly after the
    end of the previous one and at or before the restart array. *)
Lemma ParseNextKey_progress (it : Iter.Iter) :
  in_range it ->
  Iter.ParseNextKey it = Abort
  \/ (exists it', Iter.ParseNextKey it = Done (false, it') /\ in_range it'
                  /\ Iter.restarts_ it' = Iter.restarts_ it)
  \/ (exists it' c c',
        Iter.ParseNextKey it = Done (true, it') /\ in_range it'
        /\ Iter.restarts_ it' = Iter.restarts_ it
        /\ Iter.NextEntryOffset it = Done c
        /\ Iter.NextEntryOffset it' = Done c'
        /\ c < c' <= Iter.restarts_ it).
Proof.
  intros Hin. pose proof Hin as (Hr & Hn & Hri).
  destruct it as [cm d r n cur ri k v s].
  cbn [Iter.restarts_ Iter.num_restarts_ Iter.restart_index_] in *.
  unfold Iter.ParseNextKey.
  destruct (Iter.NextEntryOffset _) as [c| |] eqn:EN;
    [|now left|unfold Iter.NextEntryOffset in EN; cbn in EN;
               destruct (slice_data v); discriminate].
  assert (Hc : 0 <= c < 2 ^ 32).
  { unfold Iter.NextEntryOffset in EN. cbn in EN.
    destruct (slice_data v); [|discriminate]. injection EN as <-.
    apply wrap32_range. }
  cbn [obind]. cbv zeta. iter_fields.
  destruct (Z.leb_spec r c) as [Hend|Hlt].
  { right. left. eexists. split; [reflexivity|].
    split; [repeat split; cbn; lia | reflexivity]. }
  destruct (DecodeEntry d c r) as [[[[q sh] ns] vl]|] eqn:ED.
  2:{ right. left. eexists. split; [reflexivity|].
      split; [repeat split; cbn; lia | reflexivity]. }
  destruct (Z.ltb_spec (zlen k) sh).
  { right. left. eexists. split; [reflexivity|].
    split; [repeat split; cbn; lia | reflexivity]. }
  destruct (Z.leb_spec (q + ns) (zlen d)); [|now left]. cbn [assert obind].
  pose proof (DecodeEntry_bounds _ _ _ _ _ _ _ ED) as (Hq & _ & Hns & Hvl).
  pose proof (DecodeEntry_room _ _ _ _ _ _ _ ED) as Hroom.
  rewrite (wrap32_small (r - q)) in Hroom by lia.
  destruct (advance_restart_index_ends (S (Z.to_nat n))
              (Iter.mkIter cm d r n c ri
                 (firstn (Z.to_nat sh) k ++ slice_bytes d q ns)
                 (mkSlice (InBlock (q + ns)) vl) s))
    as (ri' & HA & Hri'); [repeat split; cbn; lia | cbn; lia |].
  rewrite HA. cbn [obind].
  right. right. eexists _, c, (q + wrap32 (ns + vl)).
  split; [reflexivity|]. unfold Iter.set_restart_index, Iter.set_position.
  cbn [Iter.comparator_ Iter.data_ Iter.restarts_ Iter.num_restarts_
       Iter.current_ Iter.restart_index_ Iter.key_ Iter.value_ Iter.status_]
    in *.
  split; [repeat split; cbn; lia|]. split; [reflexivity|].
  split; [reflexivity|]. split.
  - unfold Iter.NextEntryOffset. cbn. f_equal.
    rewrite <- Z.add_assoc. apply (wrap32_add_room q (ns + vl) (r - q)); lia.
  - pose proof (wrap32_range (ns + vl)). lia.
Qed.

(** The scan of [Seek] ends within as many rounds as there are bytes
    before the restart array. *)
Lemma Seek_scan_ends target fuel : forall it,
  in_range it ->
  (forall c, Iter.NextEntryOffset it = Done c ->
             Iter.restarts_ it - c <= Z.of_nat fuel) ->
  returns (Iter.Seek_scan (S fuel) it target).
Proof.
  induction fuel as [|fuel IH]; intros it Hin Hm;
    cbn [Iter.Seek_scan];
    destruct (ParseNextKey_progress it Hin)
      as [HP|[(it' & HP & Hin' & _)
             |(it' & c & c' & HP & Hin' & Hr' & Hc & Hc' & Hlt)]];
    rewrite HP; cbn [obind negb].
  - split; [discriminate | intros ? [=]].
  - split; [discriminate | intros ? [= <-]; exact Hin'].
  - specialize (Hm c Hc). lia.
  - split; [discriminate | intros ? [=]].
  - split; [discriminate | intros ? [= <-]; exact Hin'].
  - destruct (0 <=? _);
      [split; [discriminate | intros ? [= <-]; exact Hin']|].
    apply IH; [exact Hin'|].
    intros c2 Hc2. rewrite Hc' in Hc2. injection Hc2 as <-.
    specialize (Hm c Hc). rewrite Hr'. lia.
Qed.

(** So does the scan of [Prev] and [SeekToLast]. *)
Lemma scan_while_before_ends bound fuel : forall it,
  in_range it ->
  (forall c, Iter.NextEntryOffset it = Done c ->
             Iter.restarts_ it - c <= Z.of_nat fuel) ->
  returns (Iter.scan_while_before (S fuel) it bound).
Proof.
  induction fuel as [|fuel IH]; intros it Hin Hm;
    cbn [Iter.scan_while_before];
    destruct (ParseNextKey_progress it Hin)
      as [HP|[(it' & HP & Hin' & _)
             |(it' & c & c' & HP & Hin' & Hr' & Hc & Hc' & Hlt)]];
    rewrite HP; cbn [obind].
  - split; [discriminate | intros ? [=]].
  - split; [discriminate | intros ? [= <-]; exact Hin'].
  - specialize (Hm c Hc). lia.
  - split; [discriminate | intros ? [=]].
  - split; [discriminate | intros ? [= <-]; exact Hin'].
  - rewrite Hc'. cbn [obind].
    destruct (c' <? bound);
      [|split; [discriminate | intros ? [= <-]; exact Hin']].
    apply IH; [exact Hin'|].
    intros c2 Hc2. rewrite Hc' in Hc2. injection Hc2 as <-.
    specialize (Hm c Hc). rewrite Hr'. lia.
Qed.

Lemma SeekToRestartPoint_in_range (it : Iter.Iter) (j : Z) :
  in_range it -> 0 <= j ->
  Iter.SeekToRestartPoint it j = Abort
  \/ exists it', Iter.SeekToRestartPoint it j = Done it' /\ in_range it'
                 /\ Iter.restarts_ it' = Iter.restarts_ it
                 /\ exists c, Iter.NextEntryOffset it' = Done c /\ 0 <= c.
Proof.
  intros (Hr & Hn & Hri) Hj. destruct it as [cm d r n cur ri k v s].
  unfold Iter.SeekToRestartPoint, Iter.GetRestartPoint.
  cbn [Iter.restarts_ Iter.num_restarts_ Iter.restart_index_] in *.
  iter_fields.
  destruct (Z.ltb_spec j n); [|now left]. cbn [assert obind]. right.
  eexists. split; [reflexivity|].
  split; [repeat split; cbn; lia|]. split; [reflexivity|].
  eexists. split; [reflexivity|]. apply wrap32_range.
Qed.

(** The binary search of [Seek] ends within [num_restarts_] rounds. *)
Lemma Seek_restart_ends target fuel : forall it left right,
  in_range it ->
  0 <= left <= right -> right < Iter.num_restarts_ it ->
  right - left < Z.of_nat fuel ->
  Iter.Seek_restart fuel it target left right = Abort
  \/ (exists it', Iter.Seek_restart fuel it target left right = Done (inl it')
                  /\ it' = Iter.CorruptionError it)
  \/ (exists index, Iter.Seek_restart fuel it target left right
                    = Done (inr index)
                    /\ 0 <= index < Iter.num_restarts_ it).
Proof.
  induction fuel as [|fuel IH]; intros it left right Hin Hlr Hrn Hfuel; [lia|].
  pose proof Hin as (Hr & Hn & Hri).
  cbn [Iter.Seek_restart].
  destruct (Z.ltb_spec left right) as [Hlt|Hge].
  - rewrite (wrap32_small (left + right)) by lia.
    rewrite (wrap32_small (left + right + 1)) by lia.
    assert (Hmid : left < (left + right + 1) / 2 <= right).
    { pose proof (Z.div_mod (left + right + 1) 2 ltac:(lia)).
      pose proof (Z.mod_pos_bound (left + right + 1) 2 ltac:(lia)). lia. }
    set (mid := (left + right + 1) / 2) in *.
    rewrite (wrap32_small mid) by lia.
    unfold Iter.GetRestartPoint.
    destruct (Z.ltb_spec mid (Iter.num_restarts_ it)); [|lia].
    cbn [assert obind].
    destruct (DecodeEntry _ _ _) as [[[[p sh] ns] vl]|];
      [|right; left; eauto].
    destruct (negb _); [right; left; eauto|].
    destruct (_ <=? zlen _); [|now left]. cbn [assert obind].
    destruct (_ <? 0).
    + apply IH; [exact Hin | lia | lia | lia].
    + rewrite (wrap32_small (mid - 1)) by lia.
      apply IH; [exact Hin | lia | lia | lia].
  - right. right. exists left. split; [reflexivity | lia].
Qed.

(** The first loop of [Prev] ends within [restart_index_ + 1] rounds. *)
Lemma Prev_find_restart_ends original fuel : forall it,
  in_range it ->
  Iter.restart_index_ it < Z.of_nat fuel ->
  Iter.Prev_find_restart fuel it original = Abort
  \/ exists it', (Iter.Prev_find_restart fuel it original = Done (inl it')
                  \/ Iter.Prev_find_restart fuel it original = Done (inr it'))
                 /\ in_range it'
                 /\ (Iter.Prev_find_restart fuel it original = Done (inr it')
                     -> Iter.restart_index_ it' < Iter.num_restarts_ it').
Proof.
  induction fuel as [|fuel IH]; intros it Hin Hfuel.
  { destruct Hin as (_ & _ & Hri). lia. }
  pose proof Hin as (Hr & Hn & Hri).
  destruct it as [cm d r n cur ri k v s].
  cbn [Iter.restarts_ Iter.num_restarts_ Iter.restart_index_] in *.
  cbn [Iter.Prev_find_restart]. unfold Iter.GetRestartPoint.
  cbn [Iter.restart_index_ Iter.num_restarts_].
  destruct (Z.ltb_spec ri n) as [Hlt|Hge]; [|now left]. cbn [assert obind].
  destruct (_ <=? _).
  - destruct (Z.eqb_spec ri 0) as [->|Hne].
    + right. eexists. split; [left; reflexivity|].
      split; [repeat split; cbn; lia | discriminate].
    + rewrite wrap32_small by lia.
      apply (IH (Iter.mkIter cm d r n cur (ri - 1) k v s));
        [repeat split; cbn; lia | cbn; lia].
  - right. eexists. split; [right; reflexivity|].
    split; [exact Hin|]. intros _. cbn. lia.
Qed.

Lemma in_range_CorruptionError it : in_range it -> in_range (Iter.CorruptionError it).
Proof.
  intros (Hr & Hn & Hri). destruct it. repeat split; cbn in *; lia.
Qed.

Lemma SeekToFirst_returns (it : Iter.Iter) :
  in_range it -> returns (Iter.SeekToFirst it).
Proof.
  intros Hin. unfold Iter.SeekToFirst.
  destruct (SeekToRestartPoint_in_range it 0 Hin ltac:(lia))
    as [->|(it1 & -> & Hin1 & _)]; cbn [obind];
    [split; [discriminate | intros ? [=]]|].
  destruct (ParseNextKey_progress it1 Hin1)
    as [->|[(it' & -> & Hin' & _)|(it' & c & c' & -> & Hin' & _)]];
    cbn [obind]; (split; [discriminate|]); intros ? [=]; subst; exact Hin'.
Qed.

Lemma SeekToLast_returns (it : Iter.Iter) :
  in_range it -> returns (Iter.SeekToLast it).
Proof.
  intros Hin. unfold Iter.SeekToLast.
  destruct (SeekToRestartPoint_in_range it
              (wrap32 (Iter.num_restarts_ it - 1)) Hin
              ltac:(apply wrap32_range))
    as [->|(it1 & -> & Hin1 & Hr1 & c & Hc & Hc0)]; cbn [obind];
    [split; [discriminate | intros ? [=]]|].
  apply scan_while_before_ends; [exact Hin1|].
  intros c2 Hc2. rewrite Hc in Hc2. injection Hc2 as <-.
  destruct Hin1 as (Hr1' & _). lia.
Qed.

Lemma Seek_returns (it : Iter.Iter) (target : list byte) :
  in_range it -> returns (Iter.Seek it target).
Proof.
  intros Hin. pose proof Hin as (Hr & Hn & Hri).
  unfold Iter.Seek. cbv zeta.
  rewrite (wrap32_small (Iter.num_restarts_ it - 1)) by lia.
  destruct (Seek_restart_ends target (S (Z.to_nat (Iter.num_restarts_ it)))
              it 0 (Iter.num_restarts_ it - 1) Hin ltac:(lia) ltac:(lia)
              ltac:(lia))
    as [->|[(it1 & -> & ->)|(index & -> & Hindex)]]; cbn [obind].
  - split; [discriminate | intros ? [=]].
  - split; [discriminate|]. intros ? [= <-].
    now apply in_range_CorruptionError.
  - destruct (SeekToRestartPoint_in_range it index Hin ltac:(lia))
      as [->|(it1 & -> & Hin1 & Hr1 & c & Hc & Hc0)]; cbn [obind];
      [split; [discriminate | intros ? [=]]|].
    apply Seek_scan_ends; [exact Hin1|].
    intros c2 Hc2. rewrite Hc in Hc2. injection Hc2 as <-.
    destruct Hin1 as (Hr1' & _). lia.
Qed.

Lemma Next_returns (it : Iter.Iter) :
  in_range it -> returns (Iter.Next it).
Proof.
  intros Hin. unfold Iter.Next. destruct (Iter.Valid it); cbn [assert obind];
    [|split; [discriminate | intros ? [=]]].
  destruct (ParseNextKey_progress it Hin)
    as [->|[(it' & -> & Hin' & _)|(it' & c & c' & -> & Hin' & _)]];
    cbn [obind]; (split; [discriminate|]); intros ? [=]; subst; exact Hin'.
Qed.

Lemma Prev_returns (it : Iter.Iter) :
  in_range it -> returns (Iter.Prev it).
Proof.
  intros Hin. pose proof Hin as (Hr & Hn & Hri).
  unfold Iter.Prev. destruct (Iter.Valid it); cbn [assert obind];
    [|split; [discriminate | intros ? [=]]].
  cbv zeta.
  destruct (Prev_find_restart_ends (Iter.current_ it)
              (S (Z.to_nat (Iter.restart_index_ it))) it Hin ltac:(lia))
    as [->|(it1 & [->|HP] & Hin1 & Hlt)]; cbn [obind].
  - split; [discriminate | intros ? [=]].
  - split; [discriminate|]. intros ? [= <-]. exact Hin1.
  - rewrite HP. cbn [obind]. specialize (Hlt HP).
    destruct Hin1 as (Hr1 & Hn1 & Hri1).
    destruct (SeekToRestartPoint_in_range it1 (Iter.restart_index_ it1)
                ltac:(repeat split; lia) ltac:(lia))
      as [->|(it2 & -> & Hin2 & Hr2 & c & Hc & Hc0)]; cbn [obind];
      [split; [discriminate | intros ? [=]]|].
    apply scan_while_before_ends; [exact Hin2|].
    intros c2 Hc2. rewrite Hc in Hc2. injection Hc2 as <-.
    destruct Hin2 as (Hr2' & _). lia.
Qed.

Lemma call_returns (it : Iter.Iter) (c : Call) :
  in_range it -> returns (call it c).
Proof.
  intros Hin. destruct c; cbn [call];
    [now apply SeekToFirst_returns | now apply SeekToLast_returns
    | now apply Seek_returns | now apply Next_returns
    | now apply Prev_returns].
Qed.

(** Property X28.
    On any block contents, for an iterator whose numbers are in range (a
    32-bit restart array offset, between 1 and [2^31] restart points, a
    restart index at most the count), none of [SeekToFirst], [SeekToLast],
    [Seek], [Next] and [Prev] runs forever: the scans end within
    [restarts_ + 1] rounds, the binary search and the restart loops within
    [num_restarts_ + 1], because every entry parsed ends strictly after the
    one before it and at or before the restart array.  Each call returns
    or aborts (a failed assertion, or a key read from beyond the block's
    buffer), and the iterator it returns is in range again. *)
Theorem calls_end_on_any_block (it : Iter.Iter) (target : list byte) :
  in_range it ->
  (Iter.SeekToFirst it <> Timeout
   /\ Iter.SeekToLast it <> Timeout
   /\ Iter.Seek it target <> Timeout
   /\ Iter.Next it <> Timeout
   /\ Iter.Prev it <> Timeout)
  /\ (forall it',
        Iter.SeekToFirst it = Done it' \/ Iter.SeekToLast it = Done it'
        \/ Iter.Seek it target = Done it' \/ Iter.Next it = Done it'
        \/ Iter.Prev it = Done it' ->
        in_range it').
Proof.
  intros Hin.
  pose proof (SeekToFirst_returns it Hin) as H1.
  pose proof (SeekToLast_returns it Hin) as H2.
  pose proof (Seek_returns it target Hin) as H3.
  pose proof (Next_returns it Hin) as H4.
  pose proof (Prev_returns it Hin) as H5.
  split.
  - repeat split; [apply H1 | apply H2 | apply H3 | apply H4 | apply H5].
  - intros it' [H|[H|[H|[H|H]]]];
      [now apply H1 | now apply H2 | now apply H3 | now apply H4
      | now apply H5].
Qed.

Lemma fresh_fruit_in_range : in_range fresh_fruit.
Proof. unfold in_range. vm_compute. repeat split; discriminate. Defined.

Lemma calls_end_on_any_block_witness :
  Iter.Seek fresh_fruit (bytes [98]) <> Timeout.
Proof.
  destruct (calls_end_on_any_block fresh_fruit (bytes [98])
              fresh_fruit_in_range) as ((_ & _ & H & _) & _).
  exact H.
Defined.

(** The iterator [NewIterator] gives for a block of at most 8 GiB is in
    range. *)
Lemma open_block_in_range (data : list byte)
    (cmp : list byte -> list byte -> Z) (it : Iter.Iter) :
  zlen data <= 2 ^ 33 ->
  open_block data cmp = Done (BlockIterator it) -> in_range it.
Proof.
  intros Hsize. unfold open_block, new_Block.
  cbn [contents_data heap_allocated size_ data_ owned_].
  destruct (Z.ltb_spec (zlen data) 4) as [Hs|Hs].
  { cbn [obind]. unfold NewIterator. cbn [size_]. discriminate. }
  unfold NumRestarts. cbn [size_ data_].
  destruct (Z.leb_spec 4 (zlen data)); [|lia]. cbn [assert obind].
  set (n := DecodeFixed32 data (zlen data - 4)).
  assert (Hn0 : 0 <= n) by apply DecodeFixed_nonneg.
  destruct (Z.ltb_spec ((zlen data - 4) / 4) n) as [Hbig|Hfit].
  { cbn [obind]. unfold NewIterator. cbn [size_]. discriminate. }
  cbn [obind]. unfold NewIterator. cbn [size_ data_ restart_offset_].
  destruct (Z.ltb_spec (zlen data) 4); [lia|].
  unfold NumRestarts. cbn [size_ data_].
  destruct (Z.leb_spec 4 (zlen data)); [|lia]. cbn [assert obind].
  fold n. destruct (Z.eqb_spec n 0) as [|Hn]; [discriminate|].
  unfold Iter.new_Iter. destruct (Z.ltb_spec 0 n); [|lia].
  cbn [assert obind]. intros [= <-].
  assert (4 * ((zlen data - 4) / 4) <= zlen data - 4)
    by (apply Z.mul_div_le; lia).
  unfold in_range.
  cbn [Iter.restarts_ Iter.num_restarts_ Iter.restart_index_].
  split; [apply wrap32_range | lia].
Qed.

(** Property X29.
    No block makes its iterator run forever: for any bytes (up to 8 GiB)
    handed to the block reader and any comparator, whatever sequence of
    [SeekToFirst], [SeekToLast], [Seek], [Next] and [Prev] is made on the
    iterator [NewIterator] returns, every call of the sequence ends: it
    returns or aborts (a failed assertion, such as that of a [Next] or
    [Prev] on an invalid iterator, or a key read from beyond the block's
    buffer). *)
Theorem no_block_hangs_the_iterator (data : list byte)
    (cmp : list byte -> list byte -> Z) (it : Iter.Iter) (cs : list Call) :
  zlen data <= 2 ^ 33 ->
  open_block data cmp = Done (BlockIterator it) ->
  calls it cs <> Timeout.
Proof.
  intros Hsize Hopen.
  pose proof (open_block_in_range data cmp it Hsize Hopen) as Hin.
  clear Hopen. revert it Hin.
  induction cs as [|c cs IH]; intros it Hin; cbn [calls]; [discriminate|].
  destruct (call_returns it c Hin) as [Hnt Hdone].
  destruct (call it c) as [it'| |]; cbn [obind];
    [|discriminate|contradiction].
  apply IH. now apply Hdone.
Qed.

Lemma no_block_hangs_the_iterator_witness :
  calls fresh_fruit [CallSeek (bytes [98]); CallPrev; CallNext; CallNext]
  <> Timeout.
Proof.
  apply (no_block_hangs_the_iterator fruit_block bytewise);
    [vm_compute; discriminate | vm_compute; reflexivity].
Defined.

End TerminationFacts.

Module CallFacts.
Import Coding Block BlockFormat BlockState BlockCalls Examples BlockExamples ByteFacts CodingFacts ChainFacts IterFacts ScanFacts PrevFacts PositionFacts.

(** A call by a caller that checks [Valid()] takes an iterator that is at
    the end or positioned to one that is at the end or positioned. *)
Lemma guarded_call_lands (data : list byte) (L : Layout)
    (cmp : list byte -> list byte -> Z) (st : Status) (it : Iter.Iter)
    (c : Call) :
  well_formed data L ->
  at_end data L cmp st it \/ positioned data L cmp st it ->
  exists it',
    guarded_call it c = Done it'
    /\ (at_end data L cmp st it' \/ positioned data L cmp st it').
Proof.
  intros WF Hst.
  assert (Hshape : exists cur ri k v, it = iter data L cmp cur ri k v st).
  { destruct Hst as [(k & v & ->)|(ri & e & -> & _)]; unfold at_entry; eauto. }
  destruct c; cbn [guarded_call call].
  - destruct Hshape as (cur & ri & k & v & ->).
    apply (SeekToFirst_lands data L WF).
  - destruct Hshape as (cur & ri & k & v & ->).
    apply (SeekToLast_lands data L WF).
  - destruct Hshape as (cur & ri & k & v & ->).
    destruct (Seek_lands data L WF cmp target cur ri k v st)
      as (it' & HS & [Hend|[Hpos _]]); exists it'; auto.
  - destruct Hst as [(k & v & ->)|Hpos].
    + rewrite (Valid_at_end data L). eexists. split; [reflexivity|].
      left. eexists _, _. reflexivity.
    + destruct (positioned_shows data L WF cmp it st Hpos)
        as (e & _ & Hv & _).
      rewrite Hv. now apply (Next_lands data L WF).
  - destruct Hst as [(k & v & ->)|Hpos].
    + rewrite (Valid_at_end data L). eexists. split; [reflexivity|].
      left. eexists _, _. reflexivity.
    + destruct (positioned_shows data L WF cmp it st Hpos)
        as (e & _ & Hv & _).
      rewrite Hv. now apply (Prev_lands data L WF).
Qed.

Lemma guarded_calls_land (data : list byte) (L : Layout)
    (cmp : list byte -> list byte -> Z) (st : Status) (cs : list Call) :
  well_formed data L ->
  forall it,
  at_end data L cmp st it \/ positioned data L cmp st it ->
  exists it',
    guarded_calls it cs = Done it'
    /\ (at_end data L cmp st it' \/ positioned data L cmp st it').
Proof.
  intros WF. induction cs as [|c cs IH]; intros it Hst; cbn [guarded_calls].
  - eauto.
  - destruct (guarded_call_lands data L cmp st it c WF Hst)
      as (it1 & -> & Hst1).
    cbn [obind]. now apply IH.
Qed.

(** Property X30.
    Iterating a well-formed block never fails.  Whatever sequence of
    [SeekToFirst], [SeekToLast], [Seek], [Next] and [Prev] is made on the
    iterator [NewIterator] returns for it, by a caller that tests [Valid()]
    before [Next] and [Prev]: every call returns, no assertion fails, the
    status is [OK] all along, and after each call the iterator is at the
    end or positioned on an entry of the block, for any comparator. *)
Theorem well_formed_block_never_fails (data : list byte) (L : Layout)
    (cmp : list byte -> list byte -> Z) (cs : list Call) :
  layout data = Some L ->
  exists it0 it',
    open_block data cmp = Done (BlockIterator it0)
    /\ guarded_calls it0 cs = Done it'
    /\ Iter.status it' = OK
    /\ (at_end data L cmp OK it' \/ positioned data L cmp OK it').
Proof.
  intros Hlayout. pose proof (layout_well_formed _ _ Hlayout) as WF.
  eexists. 
  destruct (guarded_calls_land data L cmp OK cs WF
              (iter data L cmp (restart_array L) (restart_count L) []
                 empty_Slice OK))
    as (it' & HC & Hst).
  { left. eexists _, _. reflexivity. }
  exists it'. split; [apply (open_block_ok data L WF)|].
  split; [exact HC|]. split; [|exact Hst].
  destruct Hst as [(k & v & ->)|(ri & e & -> & _)]; reflexivity.
Qed.

Lemma well_formed_block_never_fails_witness :
  exists it0 it',
    open_block fruit_block bytewise = Done (BlockIterator it0)
    /\ guarded_calls it0
         [CallSeekToLast; CallNext; CallNext; CallSeek (bytes [97]); CallPrev;
          CallPrev]
       = Done it'
    /\ Iter.status it' = OK.
Proof.
  destruct (well_formed_block_never_fails fruit_block fruit_layout bytewise
              [CallSeekToLast; CallNext; CallNext; CallSeek (bytes [97]);
               CallPrev; CallPrev] eq_refl)
    as (it0 & it' & H1 & H2 & H3 & _).
  exists it0, it'. auto.
Defined.

End CallFacts.
